(** * EnhancedTwitterMediaAnalyzer: dedup caches, scroll loop, import/export

    A shallow embedding of the extraction core of
    [EnhancedTwitterMediaAnalyzer] (the class of src/unnamed/part_001):
    the two media caches, the per-container extraction and duplicate
    check, the discovery pass [detectMedia], the scroll loop
    [infiniteScroll], the eviction step [checkCacheSize], the JSON
    import/export pair and the engagement-count parser.

    Conventions of the embedding.
    - JavaScript numbers that are counters or sizes are [Z].  A number
      that is stored in a record or compared is a [jsnum]: a finite value,
      which is a rational, an infinity or NaN.  The sign of a difference
      of two finite doubles is the sign of the exact difference, so
      comparators subtract exactly; NaN and the infinities follow IEEE 754.
    - Numbers read from text are computed in binary64, with the
      operations of the Standard Library's [SpecFloat] at precision 53 and
      exponent bound 1024: a decimal is rounded once to the nearest double,
      ties to even, and so is every product and sum.
    - Strings are [string]; a character is its code unit, which is exact
      for ASCII text.
    - A [Map] is an insertion-ordered association list with unique keys.
    - DOM look-ups are inputs: a container arrives as a record of the
      values the look-ups return, each of which may instead raise.
    - The presentation layer ([updateStatus], [updateUI],
      [displayResults], [createInterface]) is taken to run without
      throwing; it has no effect on the modelled state and is left out,
      and so is [log] at the levels info, success and warning.
    - [log] at level error calls [console.error], which the constructor
      has wrapped ([initializeErrorHandlers]) unless
      [config.ignorePwaErrors] was switched off: the wrapper counts in
      [state.errors.pwa] every call whose text holds one of the ignored
      patterns.  The pattern test is made on the message; the time stamp
      and the colour directive [log] puts around it hold no pattern and
      complete none ([logText_matches]).  The other interceptors the
      constructor installs (window error events, unhandled rejections,
      [fetch]) are driven by the page between the calls modelled here and
      are left out. *)

From Stdlib Require Import List String Ascii Bool ZArith QArith Qround Qminmax Lia Lqa.
From Stdlib Require Import Permutation Sorted DecimalString HexadecimalString.
From Stdlib Require Import Floats.SpecFloat.
Import ListNotations.

Local Open Scope string_scope.
Local Open Scope list_scope.
Local Open Scope Z_scope.

(** ** JavaScript values that reach the modelled code *)

(** A value that is a string when present: [undefined], [null] or a string. *)
Inductive jsstr : Type :=
| JUndefined
| JNull
| JStr (s : string).

(** [a === b] on such values. *)
Definition strict_eq (a b : jsstr) : bool :=
  match a, b with
  | JUndefined, JUndefined => true
  | JNull, JNull => true
  | JStr s, JStr t => String.eqb s t
  | _, _ => false
  end.

(** Truthiness: only a non-empty string is truthy. *)
Definition truthy (a : jsstr) : bool :=
  match a with
  | JStr s => negb (String.eqb s "")
  | _ => false
  end.

(** [a || b] *)
Definition js_or (a b : jsstr) : jsstr := if truthy a then a else b.

(** Interpolation of a value that went through [x || '']. *)
Definition or_empty (a : jsstr) : string :=
  match a with
  | JStr s => s
  | _ => ""
  end.

(** ** Numbers *)

(** A number as the modelled code stores and compares it. *)
Inductive jsnum : Type :=
| JNum (q : Q)             (* a finite value *)
| JInf (negative : bool)   (* Infinity, -Infinity *)
| JNaN.

(** [!n] *)
Definition num_falsy (n : jsnum) : bool :=
  match n with
  | JNum q => Qeq_bool q 0
  | JInf _ => false
  | JNaN => true
  end.

(** [a - b], as far as a comparator reads it: NaN, an infinity, or a
    finite value with the sign of the exact difference. *)
Definition num_sub (a b : jsnum) : jsnum :=
  match a, b with
  | JNaN, _ => JNaN
  | _, JNaN => JNaN
  | JInf s, JInf t => if Bool.eqb s t then JNaN else JInf s
  | JInf s, JNum _ => JInf s
  | JNum _, JInf t => JInf (negb t)
  | JNum x, JNum y => JNum (x - y)
  end.

(** A property that holds a number when the record has it: records made
    by [extractImageData] have no [durationSeconds], and
    [JSON.stringify] writes NaN and the infinities as [null]. *)
Inductive numfield : Type :=
| Present (n : jsnum)
| IsNull
| Absent.

(** ToNumber, as the subtraction of a comparator applies it. *)
Definition toNumber (f : numfield) : jsnum :=
  match f with
  | Present n => n
  | IsNull => JNum 0
  | Absent => JNaN
  end.

(** *** binary64 *)

Definition b64_mul : spec_float -> spec_float -> spec_float := SFmul 53 1024.
Definition b64_add : spec_float -> spec_float -> spec_float := SFadd 53 1024.

(** The Number value of an integer literal. *)
Definition b64_of_Z (z : Z) : spec_float := binary_normalize 53 1024 z 0 false.

(** The Number value of the decimal [n / 10^m], [n >= 0]: the quotient of
    the two integers, taken as they are, is rounded once. *)
Definition b64_decimal (n : Z) (m : nat) : spec_float :=
  match n with
  | Zpos p =>
      SFdiv 53 1024 (S754_finite false p 0)
        (S754_finite false (Z.to_pos (10 ^ Z.of_nat m)) 0)
  | _ => S754_zero false
  end.

(** [isNaN(x)] *)
Definition b64_isNaN (x : spec_float) : bool :=
  match x with
  | S754_nan => true
  | _ => false
  end.

(** The real number a finite double stands for; 0 for the others. *)
Definition b64_value (x : spec_float) : Q :=
  match x with
  | S754_finite s m e =>
      let z := if s then Zneg m else Zpos m in
      if 0 <=? e then inject_Z (z * 2 ^ e) else z # (2 ^ Z.to_pos (- e))
  | _ => 0
  end.

(** The nearest integer, halves going up. *)
Definition round (x : Q) : Z := Qfloor (x + (1 # 2)).

(** [Math.round(x)] *)
Definition mathRound (x : spec_float) : jsnum :=
  match x with
  | S754_nan => JNaN
  | S754_infinity s => JInf s
  | _ => JNum (inject_Z (round (b64_value x)))
  end.

(** ** Map: insertion-ordered, keys compared with [===] *)

Module JsMap.

Section WithValues.
Context {V : Type}.

Definition t := list (jsstr * V).

Definition empty : t := [].

Definition size (m : t) : Z := Z.of_nat (List.length m).

Definition has (k : jsstr) (m : t) : bool :=
  existsb (fun e => strict_eq (fst e) k) m.

Fixpoint get (k : jsstr) (m : t) : option V :=
  match m with
  | [] => None
  | (k', v) :: m' => if strict_eq k' k then Some v else get k m'
  end.

(** [m.set(k, v)]: an existing key keeps its position and takes the new
    value, a new key goes to the end. *)
Fixpoint set (k : jsstr) (v : V) (m : t) : t :=
  match m with
  | [] => [(k, v)]
  | (k', v') :: m' =>
      if strict_eq k' k then (k', v) :: m' else (k', v') :: set k v m'
  end.

Definition values (m : t) : list V := map snd m.
Definition keys (m : t) : list jsstr := map fst m.
Definition entries (m : t) : list (jsstr * V) := m.

(** [new Map(entries)] *)
Definition of_entries (es : list (jsstr * V)) : t :=
  fold_left (fun m e => set (fst e) (snd e) m) es empty.

(** Every Map the program can build has pairwise distinct keys. *)
Definition wf (m : t) : Prop := NoDup (keys m).

End WithValues.

Arguments t : clear implicits.

End JsMap.

(** ** Strings *)

(** [s.includes(sub)] *)
Fixpoint includes (s sub : string) : bool :=
  String.prefix sub s ||
  match s with
  | EmptyString => false
  | String _ s' => includes s' sub
  end.

(** [s.startsWith(p)] *)
Definition startsWith (s p : string) : bool := String.prefix p s.

(** [s.split(c)[0]]: the text before the first occurrence of [c]. *)
Fixpoint split_head (c : ascii) (s : string) : string :=
  match s with
  | EmptyString => EmptyString
  | String a s' => if Ascii.eqb a c then EmptyString else String a (split_head c s')
  end.

(** ** generateUniqueId *)

(** ToInt32: the value a bitwise operator sees and returns. *)
Definition to_int32 (z : Z) : Z := (z + 2 ^ 31) mod 2 ^ 32 - 2 ^ 31.

Definition charCode (c : ascii) : Z := Z.of_N (N_of_ascii c).

(** One turn of the loop: [hash = ((hash << 5) - hash) + char; hash = hash & hash]. *)
Definition hash_step (hash : Z) (c : ascii) : Z :=
  let h := (to_int32 (Z.shiftl (to_int32 hash) 5) - hash) + charCode c in
  to_int32 (Z.land h h).

Fixpoint hash_string (s : string) (hash : Z) : Z :=
  match s with
  | EmptyString => hash
  | String c s' => hash_string s' (hash_step hash c)
  end.

(** [Math.abs(hash).toString(16)] *)
Definition hex_of (z : Z) : string :=
  HexadecimalString.NilZero.string_of_uint (N.to_hex_uint (Z.to_N (Z.abs z))).

Definition decimal_of (z : Z) : string :=
  DecimalString.NilZero.string_of_int (Z.to_int z).

(** [now] is the value [Date.now()] returns inside the call. *)
Definition generateUniqueId (url secondaryId : jsstr) (now : Z) : string :=
  let combinedString :=
    (or_empty (js_or url (JStr "")) ++ "::" ++
     or_empty (js_or secondaryId (JStr "")) ++ "::" ++ decimal_of now)%string in
  ("tma_" ++ hex_of (hash_string combinedString 0))%string.

(** [buildFullUrl] *)
Definition buildFullUrl (statusLink : jsstr) : string :=
  if negb (truthy statusLink) then ""
  else
    let s := or_empty statusLink in
    if startsWith s "http" then s
    else if startsWith s "//" then ("https:" ++ s)%string
    else ("https://twitter.com" ++ (if startsWith s "/" then "" else "/") ++ s)%string.

(** ** parseFloat and parseEngagementCount *)

Definition isDigit (c : ascii) : bool :=
  let n := nat_of_ascii c in (48 <=? n)%nat && (n <=? 57)%nat.

Definition isSuffixLetter (c : ascii) : bool :=
  Ascii.eqb c "K" || Ascii.eqb c "M" || Ascii.eqb c "B".

(** The characters [/[^0-9KkMmBb.]/g] leaves in place. *)
Definition keptChar (c : ascii) : bool :=
  isDigit c ||
  Ascii.eqb c "K" || Ascii.eqb c "k" || Ascii.eqb c "M" || Ascii.eqb c "m" ||
  Ascii.eqb c "B" || Ascii.eqb c "b" || Ascii.eqb c ".".

Fixpoint filterChars (keep : ascii -> bool) (s : string) : string :=
  match s with
  | EmptyString => EmptyString
  | String c s' => if keep c then String c (filterChars keep s') else filterChars keep s'
  end.

Definition upperChar (c : ascii) : ascii :=
  let n := nat_of_ascii c in
  if (97 <=? n)%nat && (n <=? 122)%nat then ascii_of_nat (n - 32) else c.

Fixpoint toUpperCase (s : string) : string :=
  match s with
  | EmptyString => EmptyString
  | String c s' => String (upperChar c) (toUpperCase s')
  end.

Definition digitValue (c : ascii) : Z := Z.of_nat (nat_of_ascii c) - 48.

(** The longest run of digits at the head of [s], as digits read so far
    ([acc], their value, and [n], how many), and the rest of [s]. *)
Fixpoint readDigits (s : string) (acc : Z) (n : nat) : Z * nat * string :=
  match s with
  | String c s' =>
      if isDigit c then readDigits s' (10 * acc + digitValue c) (S n)
      else (acc, n, s)
  | EmptyString => (acc, n, s)
  end.

(** The decimal at the head of a string made of digits and dots, which
    is all that reaches [parseFloat] here: the longest prefix of the form
    digits, digits [.] digits, digits [.] or [.] digits, as a numerator
    [n] and a number [m] of fraction digits, standing for [n / 10^m];
    [None] when no such prefix exists. *)
Definition readDecimal (s : string) : option (Z * nat) :=
  match readDigits s 0 0 with
  | (whole, n, rest) =>
      let integer := if (n =? 0)%nat then None else Some (whole, O) in
      match rest with
      | String c rest' =>
          if Ascii.eqb c "."
          then
            match readDigits rest' 0 0 with
            | (frac, m, _) =>
                if ((n =? 0) && (m =? 0))%nat then None
                else Some (whole * 10 ^ Z.of_nat m + frac, m)
            end
          else integer
      | EmptyString => integer
      end
  end.

(** [parseFloat(s)] for such a string: the double nearest to the decimal,
    NaN when there is none. *)
Definition parseFloat (s : string) : spec_float :=
  match readDecimal s with
  | Some (n, m) => b64_decimal n m
  | None => S754_nan
  end.

Definition parseEngagementCount (text : string) : jsnum :=
  if String.eqb text "" then JNum 0
  else
    let cleanText := toUpperCase (filterChars keptChar text) in
    if (String.length cleanText =? 0)%nat then JNum 0
    else
      let number := parseFloat (filterChars (fun c => negb (isSuffixLetter c)) cleanText) in
      if b64_isNaN number then JNum 0
      else if includes cleanText "K" then mathRound (b64_mul number (b64_of_Z 1000))
      else if includes cleanText "M" then mathRound (b64_mul number (b64_of_Z 1000000))
      else if includes cleanText "B" then mathRound (b64_mul number (b64_of_Z 1000000000))
      else mathRound number.

(** ** convertDurationToSeconds *)

(** The characters [/[^\d:\.]/g] leaves in place. *)
Definition durationChar (c : ascii) : bool :=
  isDigit c || Ascii.eqb c ":" || Ascii.eqb c ".".

(** [s.split(c)]: the pieces of [s] between the occurrences of [c]; there
    is always at least one piece. *)
Fixpoint split_on (c : ascii) (s : string) : list string :=
  match s with
  | EmptyString => [EmptyString]
  | String a s' =>
      if Ascii.eqb a c then EmptyString :: split_on c s'
      else
        match split_on c s' with
        | piece :: pieces => String a piece :: pieces
        | [] => [String a EmptyString]
        end
  end.

(** [convertDurationToSeconds(durationText)].  The seconds-only branch
    tests for NaN; the two branches with colons do not. *)
Definition convertDurationToSeconds (durationText : jsstr) : jsnum :=
  if negb (truthy durationText) then JNum 0
  else
    let normalizedText := filterChars durationChar (or_empty durationText) in
    let parts := map parseFloat (split_on ":" normalizedText) in
    match parts with
    | [hours; minutes; seconds] =>
        mathRound
          (b64_add
             (b64_add (b64_mul hours (b64_of_Z 3600)) (b64_mul minutes (b64_of_Z 60)))
             seconds)
    | [minutes; seconds] =>
        mathRound (b64_add (b64_mul minutes (b64_of_Z 60)) seconds)
    | [seconds] => if b64_isNaN seconds then JNum 0 else mathRound seconds
    | _ => JNum 0
    end.

(** ** Records, configuration and state *)

(** A cached media item.  The fields no modelled operation reads
    (user name, tweet text, engagement, download and preview URLs) are
    left out.  The two fields the eviction step compares are number
    properties as a record read from a file may have them. *)
Record media : Type := {
  id : jsstr;
  url : jsstr;
  fullUrl : jsstr;
  thumbnailUrl : jsstr;
  durationSeconds : numfield;
  width : Z;
  height : Z;
  timestamp : Z;
  discoveredAtScroll : numfield
}.

Definition cache : Type := JsMap.t media.

Record config : Type := {
  maxScrollAttempts : Z;
  stabilityThreshold : Z;
  detectVideos : bool;
  detectImages : bool;
  includeReplies : bool;
  includeRetweets : bool;
  maxCacheSize : Z
}.

(** [this.state.errors] *)
Record errors : Type := {
  pwa : Z;
  api : Z;
  network : Z;
  retry_count : Z
}.

(** [this.state], with the analyzer's own [isAnalyzing] flag.  The UI
    fields and [domElements], [endTime] are not modelled.
    [pwaIntercepted] tells whether [console.error] is the wrapper of
    [initializeErrorHandlers], which the constructor installs when
    [config.ignorePwaErrors] holds, as it does by default; no modelled
    method changes it. *)
Record state : Type := {
  isAnalyzing : bool;
  isProcessing : bool;
  isScrolling : bool;
  scrollCount : Z;
  stabilityCounter : Z;
  startTime : option Q;
  videoCache : cache;
  imageCache : cache;
  newlyDiscoveredVideos : Z;
  newlyDiscoveredImages : Z;
  lastMediaDiscoveryScroll : Z;
  errs : errors;
  pwaIntercepted : bool
}.

Definition set_isAnalyzing (b : bool) (s : state) : state :=
  {| isAnalyzing := b; isProcessing := isProcessing s;
     isScrolling := isScrolling s; scrollCount := scrollCount s;
     stabilityCounter := stabilityCounter s; startTime := startTime s;
     videoCache := videoCache s; imageCache := imageCache s;
     newlyDiscoveredVideos := newlyDiscoveredVideos s;
     newlyDiscoveredImages := newlyDiscoveredImages s;
     lastMediaDiscoveryScroll := lastMediaDiscoveryScroll s; errs := errs s;
     pwaIntercepted := pwaIntercepted s |}.

Definition set_isProcessing (b : bool) (s : state) : state :=
  {| isAnalyzing := isAnalyzing s; isProcessing := b;
     isScrolling := isScrolling s; scrollCount := scrollCount s;
     stabilityCounter := stabilityCounter s; startTime := startTime s;
     videoCache := videoCache s; imageCache := imageCache s;
     newlyDiscoveredVideos := newlyDiscoveredVideos s;
     newlyDiscoveredImages := newlyDiscoveredImages s;
     lastMediaDiscoveryScroll := lastMediaDiscoveryScroll s; errs := errs s;
     pwaIntercepted := pwaIntercepted s |}.

Definition set_isScrolling (b : bool) (s : state) : state :=
  {| isAnalyzing := isAnalyzing s; isProcessing := isProcessing s;
     isScrolling := b; scrollCount := scrollCount s;
     stabilityCounter := stabilityCounter s; startTime := startTime s;
     videoCache := videoCache s; imageCache := imageCache s;
     newlyDiscoveredVideos := newlyDiscoveredVideos s;
     newlyDiscoveredImages := newlyDiscoveredImages s;
     lastMediaDiscoveryScroll := lastMediaDiscoveryScroll s; errs := errs s;
     pwaIntercepted := pwaIntercepted s |}.

Definition set_scrollCount (n : Z) (s : state) : state :=
  {| isAnalyzing := isAnalyzing s; isProcessing := isProcessing s;
     isScrolling := isScrolling s; scrollCount := n;
     stabilityCounter := stabilityCounter s; startTime := startTime s;
     videoCache := videoCache s; imageCache := imageCache s;
     newlyDiscoveredVideos := newlyDiscoveredVideos s;
     newlyDiscoveredImages := newlyDiscoveredImages s;
     lastMediaDiscoveryScroll := lastMediaDiscoveryScroll s; errs := errs s;
     pwaIntercepted := pwaIntercepted s |}.

Definition set_stabilityCounter (n : Z) (s : state) : state :=
  {| isAnalyzing := isAnalyzing s; isProcessing := isProcessing s;
     isScrolling := isScrolling s; scrollCount := scrollCount s;
     stabilityCounter := n; startTime := startTime s;
     videoCache := videoCache s; imageCache := imageCache s;
     newlyDiscoveredVideos := newlyDiscoveredVideos s;
     newlyDiscoveredImages := newlyDiscoveredImages s;
     lastMediaDiscoveryScroll := lastMediaDiscoveryScroll s; errs := errs s;
     pwaIntercepted := pwaIntercepted s |}.

Definition set_startTime (t : option Q) (s : state) : state :=
  {| isAnalyzing := isAnalyzing s; isProcessing := isProcessing s;
     isScrolling := isScrolling s; scrollCount := scrollCount s;
     stabilityCounter := stabilityCounter s; startTime := t;
     videoCache := videoCache s; imageCache := imageCache s;
     newlyDiscoveredVideos := newlyDiscoveredVideos s;
     newlyDiscoveredImages := newlyDiscoveredImages s;
     lastMediaDiscoveryScroll := lastMediaDiscoveryScroll s; errs := errs s;
     pwaIntercepted := pwaIntercepted s |}.

Definition set_videoCache (c : cache) (s : state) : state :=
  {| isAnalyzing := isAnalyzing s; isProcessing := isProcessing s;
     isScrolling := isScrolling s; scrollCount := scrollCount s;
     stabilityCounter := stabilityCounter s; startTime := startTime s;
     videoCache := c; imageCache := imageCache s;
     newlyDiscoveredVideos := newlyDiscoveredVideos s;
     newlyDiscoveredImages := newlyDiscoveredImages s;
     lastMediaDiscoveryScroll := lastMediaDiscoveryScroll s; errs := errs s;
     pwaIntercepted := pwaIntercepted s |}.

Definition set_imageCache (c : cache) (s : state) : state :=
  {| isAnalyzing := isAnalyzing s; isProcessing := isProcessing s;
     isScrolling := isScrolling s; scrollCount := scrollCount s;
     stabilityCounter := stabilityCounter s; startTime := startTime s;
     videoCache := videoCache s; imageCache := c;
     newlyDiscoveredVideos := newlyDiscoveredVideos s;
     newlyDiscoveredImages := newlyDiscoveredImages s;
     lastMediaDiscoveryScroll := lastMediaDiscoveryScroll s; errs := errs s;
     pwaIntercepted := pwaIntercepted s |}.

Definition set_newlyDiscoveredVideos (n : Z) (s : state) : state :=
  {| isAnalyzing := isAnalyzing s; isProcessing := isProcessing s;
     isScrolling := isScrolling s; scrollCount := scrollCount s;
     stabilityCounter := stabilityCounter s; startTime := startTime s;
     videoCache := videoCache s; imageCache := imageCache s;
     newlyDiscoveredVideos := n;
     newlyDiscoveredImages := newlyDiscoveredImages s;
     lastMediaDiscoveryScroll := lastMediaDiscoveryScroll s; errs := errs s;
     pwaIntercepted := pwaIntercepted s |}.

Definition set_newlyDiscoveredImages (n : Z) (s : state) : state :=
  {| isAnalyzing := isAnalyzing s; isProcessing := isProcessing s;
     isScrolling := isScrolling s; scrollCount := scrollCount s;
     stabilityCounter := stabilityCounter s; startTime := startTime s;
     videoCache := videoCache s; imageCache := imageCache s;
     newlyDiscoveredVideos := newlyDiscoveredVideos s;
     newlyDiscoveredImages := n;
     lastMediaDiscoveryScroll := lastMediaDiscoveryScroll s; errs := errs s;
     pwaIntercepted := pwaIntercepted s |}.

Definition set_lastMediaDiscoveryScroll (n : Z) (s : state) : state :=
  {| isAnalyzing := isAnalyzing s; isProcessing := isProcessing s;
     isScrolling := isScrolling s; scrollCount := scrollCount s;
     stabilityCounter := stabilityCounter s; startTime := startTime s;
     videoCache := videoCache s; imageCache := imageCache s;
     newlyDiscoveredVideos := newlyDiscoveredVideos s;
     newlyDiscoveredImages := newlyDiscoveredImages s;
     lastMediaDiscoveryScroll := n; errs := errs s;
     pwaIntercepted := pwaIntercepted s |}.

Definition set_errs (e : errors) (s : state) : state :=
  {| isAnalyzing := isAnalyzing s; isProcessing := isProcessing s;
     isScrolling := isScrolling s; scrollCount := scrollCount s;
     stabilityCounter := stabilityCounter s; startTime := startTime s;
     videoCache := videoCache s; imageCache := imageCache s;
     newlyDiscoveredVideos := newlyDiscoveredVideos s;
     newlyDiscoveredImages := newlyDiscoveredImages s;
     lastMediaDiscoveryScroll := lastMediaDiscoveryScroll s; errs := e;
     pwaIntercepted := pwaIntercepted s |}.

(** ** A state monad with exceptions *)

(** What a DOM look-up or a callee hands back: a value or a thrown error
    with its message. *)
Inductive outcome (A : Type) : Type :=
| Returns (a : A)
| Raises (message : string).

Arguments Returns {A} a.
Arguments Raises {A} message.

(** Computations over a store [S]: the analyzer's [state], or [state]
    paired with the local variables of a method. *)
Definition M (S A : Type) : Type := S -> S * outcome A.

Section Monad.
Context {S : Type}.

Definition ret {A} (a : A) : M S A := fun s => (s, Returns a).

Definition bind {A B} (c : M S A) (k : A -> M S B) : M S B :=
  fun s =>
    match c s with
    | (s', Returns a) => k a s'
    | (s', Raises e) => (s', Raises e)
    end.

Definition throw {A} (e : string) : M S A := fun s => (s, Raises e).

(** [try { body } catch (error) { handler(error.message) }]: the store
    keeps the changes made before the throw. *)
Definition try_catch {A} (body : M S A) (handler : string -> M S A) : M S A :=
  fun s =>
    match body s with
    | (s', Returns a) => (s', Returns a)
    | (s', Raises e) => handler e s'
    end.

Definition get : M S S := fun s => (s, Returns s).
Definition modify (f : S -> S) : M S unit := fun s => (f s, Returns tt).

(** Reading the result of a look-up that may throw. *)
Definition lookup {A} (o : outcome A) : M S A := fun s => (s, o).

(** [if (b) { c }] *)
Definition when (b : bool) (c : M S unit) : M S unit :=
  if b then c else ret tt.

End Monad.

(** A method of the analyzer run inside a scope that has locals [L]. *)
Definition lift {L A} (c : M state A) : M (state * L) A :=
  fun sl =>
    match c (fst sl) with
    | (s', r) => ((s', snd sl), r)
    end.

(** Assignment to the locals. *)
Definition assign {L} (f : L -> L) : M (state * L) unit :=
  fun sl => ((fst sl, f (snd sl)), Returns tt).

Declare Scope monad_scope.
Delimit Scope monad_scope with monad.
Notation "x <- c ;; k" := (bind c (fun x => k))
  (at level 61, c at next level, right associativity) : monad_scope.
Notation "c ;;; k" := (bind c (fun _ => k))
  (at level 61, right associativity) : monad_scope.
Local Open Scope monad_scope.

(** ** Logging at level error *)

Definition lowerChar (c : ascii) : ascii :=
  let n := nat_of_ascii c in
  if (65 <=? n)%nat && (n <=? 90)%nat then ascii_of_nat (n + 32) else c.

Fixpoint toLowerCase (s : string) : string :=
  match s with
  | EmptyString => EmptyString
  | String c s' => String (lowerChar c) (toLowerCase s')
  end.

Definition ignoredPatterns : list string :=
  ["hasLaunchedPWA"; "lockdown-install"; "Removing unpermitted intrinsics";
   "strato/column/User"; "/onboarding/"; "api/1.1/strato"; "x.com/i/api"]%string.

(** [shouldIgnoreError(errorString)] *)
Definition shouldIgnoreError (errorString : string) : bool :=
  existsb
    (fun pattern => includes (toLowerCase errorString) (toLowerCase pattern))
    ignoredPatterns.

(** [this.state.errors.pwa++] *)
Definition countPwa (st : state) : state :=
  set_errs
    {| pwa := pwa (errs st) + 1; api := api (errs st);
       network := network (errs st); retry_count := retry_count (errs st) |}
    st.

(** [console.error(...args)], [text] being [args.join(' ')]: the wrapper
    counts and suppresses a text that holds an ignored pattern, and hands
    any other to the original, which only prints. *)
Definition consoleError (text : string) (st : state) : state :=
  if pwaIntercepted st && shouldIgnoreError text then countPwa st else st.

(** The text [log] hands to [console.error] at level error:
    [`%c[TMA ${timestamp}] ${message}`] joined with the colour directive. *)
Definition logText (timestamp message : string) : string :=
  ("%c[TMA " ++ timestamp ++ "] " ++ message ++ " color: #f4212e")%string.

(** [this.log(message, 'error')].  The pattern test is made on the message:
    the words [log] puts around it are left out, as they hold no pattern
    and complete none (see [logText_matches]). *)
Definition logError (message : string) : M state unit :=
  modify (consoleError message).

(** ** Extraction and the duplicate check *)

(** The test both extractors make before they add an item:
    [cache.has(id) || Array.from(cache.values()).some(v => v.url === src)]. *)
Definition isCached (c : cache) (k : jsstr) (src : jsstr) : bool :=
  JsMap.has k c || existsb (fun v => strict_eq (url v) src) (JsMap.values c).

(** What the DOM look-ups of [extractVideoData] resolve for a container
    that has tweet metadata and a video container. *)
Record video_surface : Type := {
  vs_tweetUrl : jsstr;        (* findStatusUrl(element) *)
  vs_videoSrc : jsstr;        (* videoSrc after the element, source, data-attribute
                                 and background-image look-ups *)
  vs_posterSrc : jsstr;       (* posterSrc after the same look-ups *)
  vs_thumbnailUrl : string;   (* extractThumbnail(element).thumbnailUrl *)
  vs_duration : jsnum;        (* videoElement.duration; 0 without a video element *)
  vs_timeLabel : option jsstr;
                              (* timeElement.textContent || timeElement.getAttribute('datetime'),
                                 when there is a time element *)
  vs_idTime : Z;              (* Date.now() inside generateUniqueId *)
  vs_timestamp : Z            (* Date.now() of the timestamp field *)
}.

(** The source URL the record is stored under: the resolved source, or
    the tweet URL when there is none. *)
Definition video_url (v : video_surface) : jsstr :=
  let fullUrl := JStr (buildFullUrl (vs_tweetUrl v)) in
  if negb (truthy (vs_videoSrc v)) && truthy fullUrl then fullUrl
  else vs_videoSrc v.

Definition video_poster (v : video_surface) : jsstr :=
  if negb (truthy (vs_posterSrc v)) then JStr (vs_thumbnailUrl v)
  else vs_posterSrc v.

(** [duration] after [videoElement.duration || 0] and the time-label
    fallback. *)
Definition video_duration (v : video_surface) : jsnum :=
  let duration := if num_falsy (vs_duration v) then JNum 0 else vs_duration v in
  if num_falsy duration
  then
    match vs_timeLabel v with
    | Some durationText => convertDurationToSeconds durationText
    | None => duration
    end
  else duration.

Definition video_id (v : video_surface) : jsstr :=
  JStr (generateUniqueId (js_or (vs_tweetUrl v) (JStr ""))
          (js_or (video_url v) (video_poster v)) (vs_idTime v)).

Definition videoData (v : video_surface) (scroll : Z) : media :=
  {| id := video_id v;
     url := video_url v;
     fullUrl := JStr (buildFullUrl (vs_tweetUrl v));
     thumbnailUrl := video_poster v;
     durationSeconds := Present (video_duration v);
     width := 0;
     height := 0;
     timestamp := vs_timestamp v;
     discoveredAtScroll := Present (JNum (inject_Z scroll)) |}.

(** [extractVideoData(element)].  The argument is what the look-ups on the
    element give: they raise, or find no metadata or no video container
    ([None]), or resolve a surface. *)
Definition extractVideoData (element : outcome (option video_surface)) : M state Z :=
  try_catch
    (found <- lookup element ;;
     match found with
     | None => ret 0
     | Some v =>
         if negb (truthy (video_url v)) && negb (truthy (video_poster v)) then ret 0
         else
           st <- get ;;
           if isCached (videoCache st) (video_id v) (video_url v) then ret 0
           else
             modify (fun st =>
               set_videoCache
                 (JsMap.set (video_id v) (videoData v (scrollCount st)) (videoCache st))
                 st) ;;;
             ret 1
     end)
    (fun message =>
       logError ("Error extracting video data: " ++ message) ;;;
       ret 0).

(** One image container of a tweet, after the [img] and background-image
    look-ups. *)
Record image_candidate : Type := {
  ic_src : string;     (* imageSrc, '' when none was found *)
  ic_width : Z;
  ic_height : Z;
  ic_idTime : Z;
  ic_timestamp : Z
}.

Record image_surface : Type := {
  is_tweetUrl : jsstr;                               (* findStatusUrl(element) *)
  is_containers : list (outcome image_candidate)    (* element.querySelectorAll(...) *)
}.

(** The sources [extractImageData] passes over. *)
Definition skipImage (imageSrc : string) : bool :=
  negb (truthy (JStr imageSrc)) ||
  negb (includes imageSrc "twimg.com") ||
  includes imageSrc "video" ||
  includes imageSrc "_normal.jpg" ||
  includes imageSrc "_bigger.jpg" ||
  includes imageSrc "video_thumb" ||
  includes imageSrc "amplify_video_thumb" ||
  includes imageSrc "semantic_core_img" ||
  includes imageSrc "community_banner_img" ||
  includes imageSrc "profile_images".

(** The highest-quality variant of a media URL. *)
Definition upgradeImage (imageSrc : string) : string :=
  if includes imageSrc "pbs.twimg.com/media/"
  then (split_head "?"%char imageSrc ++ "?format=jpg&name=4096x4096")%string
  else imageSrc.

Definition image_url (c : image_candidate) : jsstr := JStr (upgradeImage (ic_src c)).

Definition image_id (tweetUrl : jsstr) (c : image_candidate) : jsstr :=
  JStr (generateUniqueId (js_or tweetUrl (JStr "")) (image_url c) (ic_idTime c)).

Definition imageData (tweetUrl : jsstr) (c : image_candidate) (scroll : Z) : media :=
  {| id := image_id tweetUrl c;
     url := image_url c;
     fullUrl := JStr (buildFullUrl tweetUrl);
     thumbnailUrl := JUndefined;
     durationSeconds := Absent;
     width := ic_width c;
     height := ic_height c;
     timestamp := ic_timestamp c;
     discoveredAtScroll := Present (JNum (inject_Z scroll)) |}.

(** The body of the [forEach] callback of [extractImageData]; the local
    is the counter [newImages].  Its [catch] logs a warning. *)
Definition extractImageContainer (tweetUrl : jsstr)
    (container : outcome image_candidate) : M (state * Z) unit :=
  try_catch
    (c <- lookup container ;;
     if skipImage (ic_src c) then ret tt
     else
       sl <- get ;;
       if isCached (imageCache (fst sl)) (image_id tweetUrl c) (image_url c) then ret tt
       else
         lift (modify (fun st =>
           set_imageCache
             (JsMap.set (image_id tweetUrl c) (imageData tweetUrl c (scrollCount st))
                (imageCache st))
             st)) ;;;
         assign (fun newImages => newImages + 1))
    (fun _ => ret tt).

(** [array.forEach(callback)] *)
Fixpoint forEach {S A} (callback : A -> M S unit) (l : list A) : M S unit :=
  match l with
  | [] => ret tt
  | x :: l' => callback x ;;; forEach callback l'
  end.

(** Running a block that declares locals, and reading them at its end. *)
Definition with_locals {L A} (init : L) (body : M (state * L) A) : M state (A * L) :=
  fun s =>
    match body (s, init) with
    | ((s', l), Returns a) => (s', Returns (a, l))
    | ((s', l), Raises e) => (s', Raises e)
    end.

(** [extractImageData(element)].  Its [catch] logs the failure and then
    calls [console.error('Image extraction error:', error)]; the name of
    the error, which the join puts before the message, is left out. *)
Definition extractImageData (element : outcome (option image_surface)) : M state Z :=
  try_catch
    (found <- lookup element ;;
     match found with
     | None => ret 0
     | Some surface =>
         match is_containers surface with
         | [] => ret 0
         | containers =>
             r <- with_locals 0
                    (forEach (extractImageContainer (is_tweetUrl surface)) containers) ;;
             ret (snd r)
         end
     end)
    (fun message =>
       logError ("Error extracting image data: " ++ message) ;;;
       modify (consoleError ("Image extraction error: " ++ message)) ;;;
       ret 0).

(** ** The duplicate check *)

(** A surface that [extractVideoData] drops before the duplicate check. *)
Definition video_empty (v : video_surface) : bool :=
  negb (truthy (video_url v)) && negb (truthy (video_poster v)).

(** Presenting a sequence of resolved surfaces to [extractVideoData], one
    after the other. *)
Definition presentVideos (l : list video_surface) (st : state) : state :=
  fold_left (fun s v => fst (extractVideoData (Returns (Some v)) s)) l st.

(** Presenting a sequence of image containers of one tweet. *)
Definition presentImages (tweetUrl : jsstr) (l : list image_candidate)
    (sl : state * Z) : state * Z :=
  fold_left (fun s c => fst (extractImageContainer tweetUrl (Returns c) s)) l sl.

(** Once a surface has been presented it is dropped or its URL is cached,
    and later insertions keep it so. *)
Definition video_settled (v : video_surface) (st : state) : Prop :=
  video_empty v || isCached (videoCache st) (video_id v) (video_url v) = true.

Definition image_settled (tweetUrl : jsstr) (c : image_candidate) (st : state) : Prop :=
  skipImage (ic_src c) ||
  isCached (imageCache st) (image_id tweetUrl c) (image_url c) = true.

(** ** The constructor's defaults *)

Definition default_config : config :=
  {| maxScrollAttempts := 300;
     stabilityThreshold := 8;
     detectVideos := true;
     detectImages := true;
     includeReplies := true;
     includeRetweets := true;
     maxCacheSize := 10000 |}.

Definition initial_state : state :=
  {| isAnalyzing := false;
     isProcessing := false;
     isScrolling := false;
     scrollCount := 0;
     stabilityCounter := 0;
     startTime := None;
     videoCache := JsMap.empty;
     imageCache := JsMap.empty;
     newlyDiscoveredVideos := 0;
     newlyDiscoveredImages := 0;
     lastMediaDiscoveryScroll := 0;
     errs := {| pwa := 0; api := 0; network := 0; retry_count := 0 |};
     pwaIntercepted := true |}.

(** ** checkCacheSize *)

(** [v > 0]; NaN is not. *)
Definition positive (v : jsnum) : bool :=
  match v with
  | JNum q => negb (Qle_bool q 0)
  | JInf negative => negb negative
  | JNaN => false
  end.

(** [Array.prototype.sort(compare)] is stable and puts [a] after [b] when
    [compare(a, b) > 0]; a comparator's NaN counts as 0.  It is modelled
    as a stable insertion sort.  For a comparator that is a consistent
    order every stable sort returns this list.  For one that is not, as a
    comparator that returns NaN for some pairs, the language leaves the
    order to the implementation.  The model moves an element only past a
    neighbour it compares greater than, so it returns as it is an array
    in which no element compares less than the one before it; so does a
    sort that begins by looking for such a run, as V8's does. *)
Fixpoint sort_insert {A} (compare : A -> A -> jsnum) (x : A) (l : list A) : list A :=
  match l with
  | [] => [x]
  | y :: l' =>
      if positive (compare x y) then y :: sort_insert compare x l'
      else x :: y :: l'
  end.

Definition array_sort {A} (compare : A -> A -> jsnum) (l : list A) : list A :=
  fold_right (sort_insert compare) [] l.

(** [array.slice(0, end)], with JavaScript's reading of a negative [end]. *)
Definition slice0 {A} (end_ : Z) (l : list A) : list A :=
  let len := Z.of_nat (List.length l) in
  let final := if end_ <? 0 then Z.max (len + end_) 0 else Z.min end_ len in
  firstn (Z.to_nat final) l.

(** [(a, b) => b[1].durationSeconds - a[1].durationSeconds] *)
Definition byDuration (a b : jsstr * media) : jsnum :=
  num_sub (toNumber (durationSeconds (snd b))) (toNumber (durationSeconds (snd a))).

(** [(a, b) => b[1].discoveredAtScroll - a[1].discoveredAtScroll] *)
Definition byDiscovery (a b : jsstr * media) : jsnum :=
  num_sub (toNumber (discoveredAtScroll (snd b))) (toNumber (discoveredAtScroll (snd a))).

(** The rebuild both branches of [checkCacheSize] perform. *)
Definition trimCache (compare : jsstr * media -> jsstr * media -> jsnum)
    (maxSize : Z) (c : cache) : cache :=
  if maxSize <? JsMap.size c
  then JsMap.of_entries (slice0 maxSize (array_sort compare (JsMap.entries c)))
  else c.

Definition checkCacheSize (cfg : config) (st : state) : state :=
  let st1 := set_videoCache (trimCache byDuration (maxCacheSize cfg) (videoCache st)) st in
  set_imageCache (trimCache byDiscovery (maxCacheSize cfg) (imageCache st1)) st1.

(** ** detectMedia *)

(** A tweet container as [detectMedia] sees it. *)
Record container : Type := {
  c_isReply : bool;                                (* this.isReply(container) *)
  c_isRetweet : bool;                              (* this.isRetweet(container) *)
  c_hasImage : outcome bool;                       (* container.querySelector(image selectors) *)
  c_imageData : outcome (option image_surface);   (* the look-ups of extractImageData *)
  c_hasVideo : outcome bool;                       (* container.querySelector(video selectors) *)
  c_videoData : outcome (option video_surface)    (* the look-ups of extractVideoData *)
}.

(** The object [detectMedia] returns, which is also the pair of its local
    counters. *)
Record detected : Type := {
  newVideos : Z;
  newImages : Z
}.

Definition addImages (n : Z) (d : detected) : detected :=
  {| newVideos := newVideos d; newImages := newImages d + n |}.

Definition addVideos (n : Z) (d : detected) : detected :=
  {| newVideos := newVideos d + n; newImages := newImages d |}.

(** The callback of [tweetContainers.forEach].  Its [catch] logs a
    warning. *)
Definition processContainer (cfg : config) (c : container) : M (state * detected) unit :=
  try_catch
    (if negb (includeReplies cfg) && c_isReply c then ret tt
     else if negb (includeRetweets cfg) && c_isRetweet c then ret tt
     else
       when (detectImages cfg)
         (hasImage <- lookup (c_hasImage c) ;;
          when hasImage
            (n <- lift (extractImageData (c_imageData c)) ;;
             when (0 <? n) (assign (addImages n)))) ;;;
       when (detectVideos cfg)
         (hasVideo <- lookup (c_hasVideo c) ;;
          when hasVideo
            (n <- lift (extractVideoData (c_videoData c)) ;;
             when (0 <? n) (assign (addVideos n)))))
    (fun _ => ret tt).

Definition no_media : detected := {| newVideos := 0; newImages := 0 |}.

(** [detectMedia()].  The argument is the result of
    [document.querySelectorAll] for the tweet containers. *)
Definition detectMedia (cfg : config) (tweetContainers : outcome (list container))
  : M state detected :=
  try_catch
    (found <- lookup tweetContainers ;;
     match found with
     | [] => ret no_media
     | _ =>
         r <- with_locals no_media (forEach (processContainer cfg) found) ;;
         let counted := snd r in
         modify (fun st =>
           set_newlyDiscoveredVideos (newlyDiscoveredVideos st + newVideos counted) st) ;;;
         modify (fun st =>
           set_newlyDiscoveredImages (newlyDiscoveredImages st + newImages counted) st) ;;;
         ret counted
     end)
    (fun message =>
       logError ("Error detecting media: " ++ message) ;;;
       ret no_media).

(** ** stop, infiniteScroll, startAnalysis, start *)

Definition stop (st : state) : state :=
  set_isProcessing false (set_isScrolling false (set_isAnalyzing false st)).

(** What the environment does during one turn of the scroll loop. *)
Record pass_event : Type := {
  ev_scrollBy : outcome unit;                 (* window.scrollBy(0, scrollDistance) *)
  ev_stop : bool;                             (* stop() is called while the timer waits *)
  ev_containers : outcome (list container)   (* the containers in the DOM when the timer fires *)
}.

(** The locals of [infiniteScroll]. *)
Record scroll_locals : Type := {
  currentDelay : Q;
  consecutiveErrors : Z
}.

Inductive loop_status : Type :=
| Waiting     (* the promise is pending: the next turn needs the environment *)
| Resolved.   (* resolve() was called *)

(** The two tests at the top of [scrollStep]: [Some st'] when the step
    resolves the promise there, leaving state [st']. *)
Definition scrollGuard (cfg : config) (st : state) : option state :=
  if negb (isScrolling st) then Some st
  else if maxScrollAttempts cfg <=? scrollCount st then Some (set_isScrolling false st)
  else None.

(** The [window.scrollBy] block.  [scrollDelay] is the configured delay. *)
Definition performScroll (scrollDelay : Q) (ev : pass_event)
  : M (state * scroll_locals) unit :=
  try_catch
    (lookup (ev_scrollBy ev) ;;;
     lift (modify (fun st => set_scrollCount (scrollCount st + 1) st)) ;;;
     assign (fun l => {| currentDelay := scrollDelay; consecutiveErrors := 0 |}))
    (fun message =>
       assign (fun l =>
         {| currentDelay := currentDelay l;
            consecutiveErrors := consecutiveErrors l + 1 |}) ;;;
       sl <- get ;;
       lift (logError ("Scroll error (attempt " ++ decimal_of (consecutiveErrors (snd sl))
                         ++ "): " ++ message)) ;;;
       assign (fun l =>
         {| currentDelay := Qmin (currentDelay l * (3 # 2)) 10000;
            consecutiveErrors := consecutiveErrors l |}) ;;;
       sl <- get ;;
       if 5 <=? consecutiveErrors (snd sl)
       then throw ("Multiple scroll errors: " ++ message)%string
       else ret tt).

(** What one turn tells its caller: whether [scrollStep()] is called
    again (otherwise the promise is resolved), and the [newMediaFound] the
    turn logged in its status message, if it got that far. *)
Record turn : Type := {
  again : bool;
  logged : option Z
}.

(** The body of the [setTimeout] callback. *)
Definition afterDelay (cfg : config) (ev : pass_event)
    (videosCountBefore imagesCountBefore : Z) : M state turn :=
  try_catch
    (detectMedia cfg (ev_containers ev) ;;;
     st <- get ;;
     let newVideosFound := JsMap.size (videoCache st) - videosCountBefore in
     let newImagesFound := JsMap.size (imageCache st) - imagesCountBefore in
     let newMediaFound := newVideosFound + newImagesFound in
     (if 0 <? newMediaFound
      then modify (fun st =>
             set_stabilityCounter 0
               (set_lastMediaDiscoveryScroll (scrollCount st) st))
      else modify (fun st => set_stabilityCounter (stabilityCounter st + 1) st)) ;;;
     st <- get ;;
     if stabilityThreshold cfg <=? stabilityCounter st
     then modify (set_isScrolling false) ;;;
          ret {| again := false; logged := Some newMediaFound |}
     else modify (checkCacheSize cfg) ;;;
          ret {| again := true; logged := Some newMediaFound |})
    (fun message =>
       logError ("Error during media detection: " ++ message) ;;;
       ret {| again := true; logged := None |}).

(** One turn of [scrollStep] past its guard. *)
Definition scrollPass (cfg : config) (scrollDelay : Q) (ev : pass_event)
  : M (state * scroll_locals) turn :=
  try_catch
    (sl <- get ;;
     let videosCountBefore := JsMap.size (videoCache (fst sl)) in
     let imagesCountBefore := JsMap.size (imageCache (fst sl)) in
     performScroll scrollDelay ev ;;;
     lift (when (ev_stop ev) (modify stop)) ;;;
     lift (afterDelay cfg ev videosCountBefore imagesCountBefore))
    (fun message =>
       lift (logError ("Critical error during scrolling: " ++ message)) ;;;
       lift (modify (set_isScrolling false)) ;;;
       ret {| again := false; logged := None |}).

(** Where a run of the scroll loop stands: the state, whether the promise
    is resolved, and the [newMediaFound] logged by the turns that ran,
    oldest first. *)
Record scroll_run : Type := {
  run_state : state;
  run_status : loop_status;
  run_found : list Z
}.

Definition found_of (t : outcome turn) : list Z :=
  match t with
  | Returns {| logged := Some n |} => [n]
  | _ => []
  end.

Definition calls_again (t : outcome turn) : bool :=
  match t with
  | Returns t' => again t'
  | Raises _ => false
  end.

(** [scrollStep] along the turns the environment supplies; [found] is
    what the earlier turns logged. *)
Fixpoint scrollStep (cfg : config) (scrollDelay : Q) (events : list pass_event)
    (sl : state * scroll_locals) (found : list Z) : scroll_run :=
  match scrollGuard cfg (fst sl) with
  | Some st' => {| run_state := st'; run_status := Resolved; run_found := found |}
  | None =>
      match events with
      | [] => {| run_state := fst sl; run_status := Waiting; run_found := found |}
      | ev :: events' =>
          let r := scrollPass cfg scrollDelay ev sl in
          if calls_again (snd r)
          then scrollStep cfg scrollDelay events' (fst r) (found ++ found_of (snd r))
          else {| run_state := fst (fst r); run_status := Resolved;
                  run_found := found ++ found_of (snd r) |}
      end
  end.

(** [infiniteScroll()] *)
Definition infiniteScroll (cfg : config) (scrollDelay : Q) (events : list pass_event)
    (st : state) : scroll_run :=
  let st0 := set_stabilityCounter 0 (set_scrollCount 0 (set_isScrolling true st)) in
  scrollStep cfg scrollDelay events
    (st0, {| currentDelay := scrollDelay; consecutiveErrors := 0 |}) [].

(** [!this.state.startTime] *)
Definition noStartTime (st : state) : bool :=
  match startTime st with
  | None => true
  | Some t => Qeq_bool t 0
  end.

(** What [startAnalysis] reads from its environment. *)
Record analysis_env : Type := {
  env_now : Q;                                  (* performance.now() *)
  env_onTwitter : bool;                         (* this.isOnTwitter() *)
  env_initial : outcome (list container);      (* the DOM at the initial detection *)
  env_scrollDelay : Q;                          (* this.config.scrollDelay *)
  env_events : list pass_event                  (* the turns of the scroll loop *)
}.

(** [startAnalysis()].  With status [Waiting] the method is suspended at
    [await this.infiniteScroll()]; with [Resolved] it has run to its end,
    [finally] block included. *)
Definition startAnalysis (cfg : config) (env : analysis_env) (st : state)
  : state * loop_status :=
  if isProcessing st
  then (set_isProcessing false (set_isScrolling false st), Resolved)
  else
    let st1 := set_isScrolling true (set_isProcessing true st) in
    let st2 := if noStartTime st1 then set_startTime (Some (env_now env)) st1 else st1 in
    if negb (env_onTwitter env)
    then (set_isScrolling false (set_isProcessing false st2), Resolved)
    else
      let st3 := fst (detectMedia cfg (env_initial env) st2) in
      let r := infiniteScroll cfg (env_scrollDelay env) (env_events env) st3 in
      match run_status r with
      | Waiting => (run_state r, Waiting)
      | Resolved =>
          (set_isScrolling false (set_isProcessing false (run_state r)), Resolved)
      end.

Definition start (cfg : config) (env : analysis_env) (st : state)
  : state * loop_status :=
  startAnalysis cfg env (set_isAnalyzing true st).

(** ** exportDataAsJson and importJsonData *)

(** The [stats] object of an export; [exportDate] is not modelled. *)
Record export_stats : Type := {
  totalVideos : Z;
  totalImages : Z;
  totalMedia : Z;
  x_scrollCount : Z;
  x_newlyDiscoveredVideos : Z;
  x_newlyDiscoveredImages : Z
}.

Record export_data : Type := {
  x_videos : list media;
  x_images : list media;
  x_stats : export_stats
}.

(** The object [exportDataAsJson] serializes. *)
Definition exportDataAsJson (st : state) : export_data :=
  let videos := JsMap.values (videoCache st) in
  let images := JsMap.values (imageCache st) in
  {| x_videos := videos;
     x_images := images;
     x_stats :=
       {| totalVideos := Z.of_nat (List.length videos);
          totalImages := Z.of_nat (List.length images);
          totalMedia := Z.of_nat (List.length videos) + Z.of_nat (List.length images);
          x_scrollCount := scrollCount st;
          x_newlyDiscoveredVideos := newlyDiscoveredVideos st;
          x_newlyDiscoveredImages := newlyDiscoveredImages st |} |}.

(** The [stats] object of a payload; a field may be absent. *)
Record import_stats : Type := {
  i_scrollCount : option Z;
  i_newlyDiscoveredVideos : option Z;
  i_newlyDiscoveredImages : option Z
}.

(** A parsed payload: [videos], [images] and [stats] may be absent. *)
Record import_data : Type := {
  videos : option (list media);
  images : option (list media);
  stats : option import_stats
}.

(** The object [importJsonData] returns. *)
Record import_result : Type := {
  videosAdded : Z;
  imagesAdded : Z;
  videosSkipped : Z;
  imagesSkipped : Z;
  totalProcessed : Z
}.

Definition set_id (k : jsstr) (r : media) : media :=
  {| id := k; url := url r; fullUrl := fullUrl r; thumbnailUrl := thumbnailUrl r;
     durationSeconds := durationSeconds r; width := width r; height := height r;
     timestamp := timestamp r; discoveredAtScroll := discoveredAtScroll r |}.

(** [if (!item.id) item.id = this.generateUniqueId(item.url || '', item.fullUrl || '')] *)
Definition ensureId (now : Z) (item : media) : media :=
  if negb (truthy (id item))
  then set_id (JStr (generateUniqueId (js_or (url item) (JStr ""))
                       (js_or (fullUrl item) (JStr "")) now)) item
  else item.

(** The progress of one of the two import loops: the cache, the items
    visited so far as the loop leaves them, and the two counters. *)
Record import_loop : Type := {
  l_cache : cache;
  l_items : list media;
  l_added : Z;
  l_skipped : Z
}.

(** One turn of [for (const item of importData.videos)] (or [images]);
    [now] is the clock reading if an id is generated. *)
Definition importItem (replace : bool) (now : Z) (item : media) (l : import_loop)
  : import_loop :=
  let item' := ensureId now item in
  if negb replace && JsMap.has (id item') (l_cache l)
  then {| l_cache := l_cache l; l_items := l_items l ++ [item'];
          l_added := l_added l; l_skipped := l_skipped l + 1 |}
  else {| l_cache := JsMap.set (id item') item' (l_cache l);
          l_items := l_items l ++ [item'];
          l_added := l_added l + 1; l_skipped := l_skipped l |}.

(** A whole loop; [clock i] is the clock reading while item [i] is
    visited. *)
Fixpoint importItems (replace : bool) (clock : nat -> Z) (i : nat)
    (items : list media) (l : import_loop) : import_loop :=
  match items with
  | [] => l
  | item :: items' =>
      importItems replace clock (S i) items' (importItem replace (clock i) item l)
  end.

Definition or_zero (n : option Z) : Z :=
  match n with
  | Some z => z
  | None => 0
  end.

(** [importJsonData(jsonInput, replace)].  [jsonInput] is the outcome of
    reading the input and [JSON.parse]; [clock] gives the readings of
    [Date.now()], numbered by the position of the item in
    [videos] followed by [images].  On success the result comes with the
    payload as the loops leave it, ids assigned. *)
Definition importJsonData (jsonInput : outcome import_data) (replace : bool)
    (clock : nat -> Z) : M state (import_result * import_data) :=
  try_catch
    (importData <- lookup jsonInput ;;
     match videos importData, images importData with
     | Some vs, Some is_ =>
         when replace
           (modify (fun st => set_imageCache JsMap.empty (set_videoCache JsMap.empty st))) ;;;
         st <- get ;;
         let lv := importItems replace clock 0 vs
                     {| l_cache := videoCache st; l_items := [];
                        l_added := 0; l_skipped := 0 |} in
         let li := importItems replace clock (List.length vs) is_
                     {| l_cache := imageCache st; l_items := [];
                        l_added := 0; l_skipped := 0 |} in
         modify (fun st => set_imageCache (l_cache li) (set_videoCache (l_cache lv) st)) ;;;
         match stats importData with
         | Some s =>
             if negb replace
             then
               modify (fun st =>
                 set_newlyDiscoveredImages
                   (newlyDiscoveredImages st + or_zero (i_newlyDiscoveredImages s))
                   (set_newlyDiscoveredVideos
                      (newlyDiscoveredVideos st + or_zero (i_newlyDiscoveredVideos s)) st))
             else
               modify (fun st =>
                 set_scrollCount (or_zero (i_scrollCount s))
                   (set_newlyDiscoveredImages (or_zero (i_newlyDiscoveredImages s))
                      (set_newlyDiscoveredVideos (or_zero (i_newlyDiscoveredVideos s)) st)))
         | None => ret tt
         end ;;;
         ret ({| videosAdded := l_added lv;
                 imagesAdded := l_added li;
                 videosSkipped := l_skipped lv;
                 imagesSkipped := l_skipped li;
                 totalProcessed :=
                   Z.of_nat (List.length vs) + Z.of_nat (List.length is_) |},
              {| videos := Some (l_items lv);
                 images := Some (l_items li);
                 stats := stats importData |})
     | _, _ => throw "Invalid JSON format. Missing videos or images data."
     end)
    (fun message =>
       logError ("Error importing JSON: " ++ message) ;;;
       throw message).

(** ** What a discovery pass leaves alone *)

(** Of the error counters only [pwa] has changed, and it has not
    decreased. *)
Definition only_pwa (e e' : errors) : Prop :=
  pwa e <= pwa e' /\ api e' = api e /\ network e' = network e /\
  retry_count e' = retry_count e.

(** [grown st st']: [st'] differs from [st] at most by entries appended
    to the two caches, by the two discovery totals and by the count of
    suppressed console errors. *)
Record grown (st st' : state) : Prop := {
  g_isAnalyzing : isAnalyzing st' = isAnalyzing st;
  g_isProcessing : isProcessing st' = isProcessing st;
  g_isScrolling : isScrolling st' = isScrolling st;
  g_scrollCount : scrollCount st' = scrollCount st;
  g_stabilityCounter : stabilityCounter st' = stabilityCounter st;
  g_startTime : startTime st' = startTime st;
  g_lastMediaDiscoveryScroll : lastMediaDiscoveryScroll st' = lastMediaDiscoveryScroll st;
  g_errs : only_pwa (errs st) (errs st');
  g_pwaIntercepted : pwaIntercepted st' = pwaIntercepted st;
  g_videoCache : exists added, videoCache st' = videoCache st ++ added;
  g_imageCache : exists added, imageCache st' = imageCache st ++ added
}.

(** The same, in a scope with locals. *)
Definition grown_in {L} (sl sl' : state * L) : Prop := grown (fst sl) (fst sl').

(** A computation all of whose runs stay within a relation on stores. *)
Definition preserves {S A} (R : S -> S -> Prop) (c : M S A) : Prop :=
  forall s, R s (fst (c s)).

(** A computation that never throws. *)
Definition total {S A} (c : M S A) : Prop :=
  forall s, exists a, snd (c s) = Returns a.







(** With the wrapper installed or not as [on] says, the error counters
    are those of [st]. *)
Definition calm (on : bool) (st st' : state) : Prop :=
  pwaIntercepted st = on -> errs st' = errs st /\ pwaIntercepted st' = on.

Definition calm_in {L} (on : bool) (sl sl' : state * L) : Prop :=
  calm on (fst sl) (fst sl').
(** ** Sample inputs *)

Definition sample_video : video_surface :=
  {| vs_tweetUrl := JStr "/user/status/1";
     vs_videoSrc := JStr "https://video.twimg.com/ext_tw_video/1/vid/a.mp4";
     vs_posterSrc := JStr "https://pbs.twimg.com/ext_tw_video_thumb/1/img/a.jpg";
     vs_thumbnailUrl := "";
     vs_duration := JNum 12;
     vs_timeLabel := None;
     vs_idTime := 1730000000000;
     vs_timestamp := 1730000000001 |}.

Definition sample_image : image_candidate :=
  {| ic_src := "https://pbs.twimg.com/media/abc?format=jpg&name=small";
     ic_width := 680;
     ic_height := 510;
     ic_idTime := 1730000000002;
     ic_timestamp := 1730000000003 |}.


(** A container with one photo and one video. *)
Definition sample_container : container :=
  {| c_isReply := false;
     c_isRetweet := false;
     c_hasImage := Returns true;
     c_imageData :=
       Returns (Some {| is_tweetUrl := JStr "/user/status/1";
                        is_containers := [Returns sample_image] |});
     c_hasVideo := Returns true;
     c_videoData := Returns (Some sample_video) |}.


(** ** Vocabulary of the scroll-loop properties *)

(** The update of [stabilityCounter] by a turn that found [y] new items. *)
Definition nextStability (c y : Z) : Z := if 0 <? y then 0 else c + 1.

(** A turn in which the page scrolls and no stop command arrives. *)
Definition plain (ev : pass_event) : Prop :=
  ev_scrollBy ev = Returns tt /\ ev_stop ev = false.

(** ** Sample sessions *)

(** The defaults with a stability threshold of two turns. *)
Definition short_config : config :=
  {| maxScrollAttempts := 300;
     stabilityThreshold := 2;
     detectVideos := true;
     detectImages := true;
     includeReplies := true;
     includeRetweets := true;
     maxCacheSize := 10000 |}.

(** A turn that scrolls and then sees the given containers. *)
Definition turn_with (containers : list container) : pass_event :=
  {| ev_scrollBy := Returns tt;
     ev_stop := false;
     ev_containers := Returns containers |}.

(** A turn during which a stop command arrives. *)
Definition turn_stopped (containers : list container) : pass_event :=
  {| ev_scrollBy := Returns tt;
     ev_stop := true;
     ev_containers := Returns containers |}.

(** A session that finds one photo and one video in its first turn and
    nothing new afterwards. *)
Definition sample_events : list pass_event :=
  [turn_with [sample_container]; turn_with [sample_container];
   turn_with [sample_container]; turn_with [sample_container]].

(** ** Vocabulary of the import properties *)

(** The items of a payload sequence as an import loop leaves them: an item
    without id has received one, made at the clock reading of its turn. *)
Fixpoint assignIds (clock : nat -> Z) (i : nat) (items : list media) : list media :=
  match items with
  | [] => []
  | item :: items' => ensureId (clock i) item :: assignIds clock (S i) items'
  end.

(** Every entry of the cache is filed under the id of its record. *)
Definition keyed (c : cache) : Prop :=
  Forall (fun e => id (snd e) = fst e) c.

(** The start of an import loop over a cache. *)
Definition loop_from (c : cache) : import_loop :=
  {| l_cache := c; l_items := []; l_added := 0; l_skipped := 0 |}.


(** [item'] is [item] with an id: [item] itself when it came with one, and
    otherwise [item] under the id made from its URLs at the clock reading
    [now]. *)
Definition identified (now : Z) (item item' : media) : Prop :=
  truthy (id item') = true /\
  (truthy (id item) = true -> item' = item) /\
  (truthy (id item) = false ->
   item' =
   set_id (JStr (generateUniqueId (js_or (url item) (JStr ""))
                   (js_or (fullUrl item) (JStr "")) now)) item).

(** Item by item, [items'] is [items] with ids; [i] numbers the first
    item. *)
Definition all_identified (clock : nat -> Z) (i : nat) (items items' : list media)
  : Prop :=
  List.length items' = List.length items /\
  forall (n : nat) (item : media),
    nth_error items n = Some item ->
    exists item', nth_error items' n = Some item' /\
                  identified (clock (i + n)%nat) item item'.
(** ** Sample payloads *)

(** Two records with one URL and two ids, and a payload made of them. *)
Definition twin_a : media :=
  {| id := JStr "tma_1a"; url := JStr "https://video.twimg.com/v/1.mp4";
     fullUrl := JStr "https://twitter.com/u/status/1"; thumbnailUrl := JStr "";
     durationSeconds := Present (JNum 30); width := 0; height := 0;
     timestamp := 1730000000000; discoveredAtScroll := Present (JNum 1) |}.

Definition twin_b : media :=
  {| id := JStr "tma_2b"; url := JStr "https://video.twimg.com/v/1.mp4";
     fullUrl := JStr "https://twitter.com/u/status/1"; thumbnailUrl := JStr "";
     durationSeconds := Present (JNum 30); width := 0; height := 0;
     timestamp := 1730000000500; discoveredAtScroll := Present (JNum 2) |}.

Definition twin_payload : import_data :=
  {| videos := Some [twin_a; twin_b]; images := Some []; stats := None |}.

(** A payload without its [images] sequence. *)
Definition broken_payload : import_data :=
  {| videos := Some [twin_a]; images := None; stats := None |}.

(** A clock that advances by one millisecond per reading. *)
Definition sample_clock (i : nat) : Z := 1730000000000 + Z.of_nat i.


(** Two records that came without id, and a payload made of them. *)
Definition nameless_a : media :=
  {| id := JUndefined; url := JStr "https://video.twimg.com/v/7.mp4";
     fullUrl := JStr "https://twitter.com/u/status/7"; thumbnailUrl := JStr "";
     durationSeconds := Present (JNum 15); width := 0; height := 0;
     timestamp := 1730000000000; discoveredAtScroll := Present (JNum 1) |}.

Definition nameless_b : media :=
  {| id := JUndefined; url := JStr "https://video.twimg.com/v/8.mp4";
     fullUrl := JStr "https://twitter.com/u/status/8"; thumbnailUrl := JStr "";
     durationSeconds := Present (JNum 25); width := 0; height := 0;
     timestamp := 1730000000500; discoveredAtScroll := Present (JNum 2) |}.

Definition nameless_payload : import_data :=
  {| videos := Some [nameless_a; nameless_b]; images := Some []; stats := None |}.
(** ** Vocabulary of the eviction properties *)

(** [kept] is a choice of the highest-ranked [n] entries of [all]: it has
    [n] entries, it and some [evicted] make up [all], and no evicted entry
    outranks a kept one. *)
Definition top_ranked (rank : media -> Q) (n : Z) (all kept : cache) : Prop :=
  JsMap.size kept = n /\
  exists evicted,
    Permutation all (kept ++ evicted) /\
    forall k e, In k kept -> In e evicted -> (rank (snd e) <= rank (snd k))%Q.

(** Ordered from the highest key down. *)
Definition descending {A} (key : A -> Q) : list A -> Prop :=
  StronglySorted (fun a b => (key b <= key a)%Q).

(** A record whose number property [field] is a finite number: a number
    that is neither NaN nor an infinity, or [null]. *)
Definition numbered (field : media -> numfield) (r : media) : Prop :=
  exists q, toNumber (field r) = JNum q.

(** The rank a cache is trimmed by, for such a record. *)
Definition rank_by (field : media -> numfield) (r : media) : Q :=
  match toNumber (field r) with
  | JNum q => q
  | _ => 0
  end.

(** The comparators of [checkCacheSize] on such records. *)
Definition byRank (field : media -> numfield) (a b : jsstr * media) : jsnum :=
  JNum (rank_by field (snd b) - rank_by field (snd a)).

(** A video whose duration is a finite number, and that duration. *)
Definition timed (r : media) : Prop := numbered durationSeconds r.
Definition seconds (r : media) : Q := rank_by durationSeconds r.

(** An image whose discovery pass is a finite number, and that number. *)
Definition staged (r : media) : Prop := numbered discoveredAtScroll r.
Definition discoveryRank (r : media) : Q := rank_by discoveredAtScroll r.
(** ** Sample caches *)

(** Three videos of 10, 30 and 20 seconds. *)
Definition clip (name : string) (seconds : Q) (scroll : Z) : jsstr * media :=
  (JStr name,
   {| id := JStr name; url := JStr ("https://video.twimg.com/" ++ name)%string;
      fullUrl := JStr ""; thumbnailUrl := JStr "";
      durationSeconds := Present (JNum seconds); width := 0; height := 0;
      timestamp := 0; discoveredAtScroll := Present (JNum (inject_Z scroll)) |}).

Definition three_clips : cache :=
  [clip "a" 10 1; clip "b" 30 2; clip "c" 20 3].

Definition two_config : config :=
  {| maxScrollAttempts := 300;
     stabilityThreshold := 8;
     detectVideos := true;
     detectImages := true;
     includeReplies := true;
     includeRetweets := true;
     maxCacheSize := 2 |}.

Definition full_state : state :=
  set_imageCache three_clips (set_videoCache three_clips initial_state).


(** Four tweets with a video each.  The players of the first, the third
    and the fourth know their duration: 10, 30 and 20 seconds.  The second
    has not loaded its metadata: the duration of its video element is NaN
    and its time label reads [--:--]. *)
Definition tweet_video (name : string) (duration : jsnum) (label : option jsstr)
  : video_surface :=
  {| vs_tweetUrl := JStr ("/user/status/" ++ name);
     vs_videoSrc := JStr ("https://video.twimg.com/ext_tw_video/" ++ name ++ "/vid/a.mp4");
     vs_posterSrc := JStr "";
     vs_thumbnailUrl := "";
     vs_duration := duration;
     vs_timeLabel := label;
     vs_idTime := 1730000000000;
     vs_timestamp := 1730000000001 |}.

Definition video_10s : video_surface := tweet_video "1" (JNum 10) None.
Definition video_unknown : video_surface := tweet_video "2" JNaN (Some (JStr "--:--")).
Definition video_30s : video_surface := tweet_video "3" (JNum 30) None.
Definition video_20s : video_surface := tweet_video "4" (JNum 20) None.

(** The defaults with room for one record in each cache. *)
Definition one_config : config :=
  {| maxScrollAttempts := 300;
     stabilityThreshold := 8;
     detectVideos := true;
     detectImages := true;
     includeReplies := true;
     includeRetweets := true;
     maxCacheSize := 1 |}.
(** ** A paused session *)

(** A session on Twitter over the given turns. *)
Definition session (events : list pass_event) : analysis_env :=
  {| env_now := 1000;
     env_onTwitter := true;
     env_initial := Returns [sample_container];
     env_scrollDelay := 11 # 2;
     env_events := events |}.

(** A run of three turns, stopped by the user during the third. *)
Definition paused_state : state :=
  fst (start default_config
         (session [turn_with [sample_container]; turn_with [sample_container];
                   turn_stopped [sample_container]])
         (set_startTime (Some 500%Q) initial_state)).

(** ** Vocabulary of the parser properties *)

(** A string of digits and dots. *)
Fixpoint numeric (s : string) : bool :=
  match s with
  | EmptyString => true
  | String c s' => (isDigit c || Ascii.eqb c ".") && numeric s'
  end.

(** The text [parseEngagementCount] works on. *)
Definition cleanText (text : string) : string :=
  toUpperCase (filterChars keptChar text).

(** The argument it passes to [parseFloat]. *)
Definition numberText (text : string) : string :=
  filterChars (fun c => negb (isSuffixLetter c)) (cleanText text).

(** [c] occurs in [s]. *)
Fixpoint occurs (c : ascii) (s : string) : Prop :=
  match s with
  | EmptyString => False
  | String a s' => a = c \/ occurs c s'
  end.


(** A double that is a number: a zero or a finite value. *)
Definition b64_finite (x : spec_float) : bool :=
  match x with
  | S754_zero _ | S754_finite _ _ _ => true
  | _ => false
  end.

(** A double that is not NaN and has the sign bit off. *)
Definition b64_signed (x : spec_float) : bool :=
  match x with
  | S754_nan => false
  | S754_zero s | S754_infinity s | S754_finite s _ _ => negb s
  end.

(** [0 <= n], which NaN is not. *)
Definition nonneg (n : jsnum) : Prop :=
  match n with
  | JNum q => (0 <= q)%Q
  | JInf negative => negative = false
  | JNaN => False
  end.

(** The double that is the integer [v], for [0 <= v < 2^53]: a mantissa
    of 53 digits and its exponent. *)
Definition mantissaOf (v : Z) : BinNums.positive :=
  Z.to_pos (v * 2 ^ (52 - Z.log2 v)).

Definition exponentOf (v : Z) : Z := Z.log2 v - 52.

Definition b64_int (v : Z) : spec_float :=
  match v with
  | Z.pos _ => S754_finite false (mantissaOf v) (exponentOf v)
  | _ => S754_zero false
  end.

(** The number a string of digits denotes, continued from [acc]. *)
Fixpoint digitsValue (s : string) (acc : Z) : Z :=
  match s with
  | EmptyString => acc
  | String c s' => digitsValue s' (10 * acc + digitValue c)
  end.

Definition numeralValue (s : string) : Z := digitsValue s 0.
(** ** Vocabulary of the counting properties *)

(** Between two points of [extractImageData]'s loop the counter
    [newImages] has grown by what the image cache has grown, and the video
    cache is the same. *)
Definition images_counted (sl sl' : state * Z) : Prop :=
  snd sl' - snd sl =
    JsMap.size (imageCache (fst sl')) - JsMap.size (imageCache (fst sl)) /\
  snd sl <= snd sl' /\
  videoCache (fst sl') = videoCache (fst sl).

(** Between two points of [detectMedia]'s loop each counter has grown by
    what its cache has grown. *)
Definition media_counted (sl sl' : state * detected) : Prop :=
  newVideos (snd sl') - newVideos (snd sl) =
    JsMap.size (videoCache (fst sl')) - JsMap.size (videoCache (fst sl)) /\
  newImages (snd sl') - newImages (snd sl) =
    JsMap.size (imageCache (fst sl')) - JsMap.size (imageCache (fst sl)).

(** ** Export files read back *)

(** A number property after [JSON.stringify] and [JSON.parse]: NaN and
    the infinities are written as [null], and a property that is absent
    stays so. *)
Definition json_number (f : numfield) : numfield :=
  match f with
  | Present (JNum q) => Present (JNum q)
  | Present _ => IsNull
  | IsNull => IsNull
  | Absent => Absent
  end.

Definition json_media (r : media) : media :=
  {| id := id r; url := url r; fullUrl := fullUrl r; thumbnailUrl := thumbnailUrl r;
     durationSeconds := json_number (durationSeconds r);
     width := width r; height := height r;
     timestamp := timestamp r;
     discoveredAtScroll := json_number (discoveredAtScroll r) |}.

(** The payload [JSON.parse] gives for the text [JSON.stringify] made of an
    export: the three parts are present. *)
Definition reparse (x : export_data) : import_data :=
  {| videos := Some (map json_media (x_videos x));
     images := Some (map json_media (x_images x));
     stats :=
       Some {| i_scrollCount := Some (x_scrollCount (x_stats x));
               i_newlyDiscoveredVideos := Some (x_newlyDiscoveredVideos (x_stats x));
               i_newlyDiscoveredImages := Some (x_newlyDiscoveredImages (x_stats x)) |} |}.


(** A cache whose records have gone through [JSON.stringify] and
    [JSON.parse]. *)
Definition json_cache (c : cache) : cache :=
  map (fun e => (fst e, json_media (snd e))) c.

(** Every number property in the caches is written as it is: it is a
    finite number, [null] or absent. *)
Definition json_stable (st : state) : Prop :=
  Forall (fun r => json_media r = r)
    (JsMap.values (videoCache st) ++ JsMap.values (imageCache st)).
(** ** The shape of the caches *)

(** A cache as the program builds it: distinct keys, every record filed
    under its own id, and every id a non-empty string. *)
Definition cache_ok (c : cache) : Prop :=
  JsMap.wf c /\ keyed c /\ Forall (fun e => truthy (fst e) = true) c.

Definition caches_ok (st : state) : Prop :=
  cache_ok (videoCache st) /\ cache_ok (imageCache st).

(** No two records of the cache have the same [url]. *)
Definition urls_distinct (c : cache) : Prop := NoDup (map url (JsMap.values c)).

(** What every operation on the caches keeps, import apart: the shape of
    both caches and, in each, one record per URL. *)
Definition caches_sound (st : state) : Prop :=
  caches_ok st /\ urls_distinct (videoCache st) /\ urls_distinct (imageCache st).

(** [st'] is reached from [st] by steps that keep the property [P]. *)
Definition keeps (P : state -> Prop) (st st' : state) : Prop := P st -> P st'.

(** The same, in a scope with locals. *)
Definition keeps_in {L} (P : state -> Prop) (sl sl' : state * L) : Prop :=
  P (fst sl) -> P (fst sl').

(** The state after a first look at a page with one photo and one video. *)
Definition found_state : state :=
  fst (detectMedia default_config (Returns [sample_container]) initial_state).

(** ** Vocabulary of the filter properties *)

(** The container is dropped by the reply or the retweet filter. *)
Definition filtered_out (cfg : config) (c : container) : bool :=
  (negb (includeReplies cfg) && c_isReply c) ||
  (negb (includeRetweets cfg) && c_isRetweet c).

(** ** Sample settings of the filters *)

(** Replies and retweets are left out. *)
Definition originals_config : config :=
  {| maxScrollAttempts := 300;
     stabilityThreshold := 8;
     detectVideos := true;
     detectImages := true;
     includeReplies := false;
     includeRetweets := false;
     maxCacheSize := 10000 |}.

(** Only videos are collected. *)
Definition videos_only_config : config :=
  {| maxScrollAttempts := 300;
     stabilityThreshold := 8;
     detectVideos := true;
     detectImages := false;
     includeReplies := true;
     includeRetweets := true;
     maxCacheSize := 10000 |}.

(** [sample_container] as a reply. *)
Definition reply_container : container :=
  {| c_isReply := true;
     c_isRetweet := false;
     c_hasImage := c_hasImage sample_container;
     c_imageData := c_imageData sample_container;
     c_hasVideo := c_hasVideo sample_container;
     c_videoData := c_videoData sample_container |}.

(** ** The end of a run *)

(** The status [startAnalysis] shows once [await this.infiniteScroll()]
    has returned. *)
Inductive final_status : Type :=
| AnalysisPaused      (* 'Analysis paused. Click Start/Resume to continue.' *)
| AnalysisComplete.   (* 'Analysis complete in ...', then displayResults() *)

(** The test [if (!this.state.isScrolling)] after the [await]. *)
Definition finalStatus (st : state) : final_status :=
  if negb (isScrolling st) then AnalysisPaused else AnalysisComplete.

(** The handler of the 's' key and of the Start/Stop button. *)
Definition startStopKey (cfg : config) (env : analysis_env) (st : state) : state :=
  if isAnalyzing st then stop st else fst (start cfg env st).

(** A turn in which [window.scrollBy] throws. *)
Definition failing_turn : pass_event :=
  {| ev_scrollBy := Raises "scrollBy failed";
     ev_stop := false;
     ev_containers := Returns [sample_container] |}.

(** The defaults with a ceiling of one scroll attempt. *)
Definition one_pass_config : config :=
  {| maxScrollAttempts := 1;
     stabilityThreshold := 8;
     detectVideos := true;
     detectImages := true;
     includeReplies := true;
     includeRetweets := true;
     maxCacheSize := 10000 |}.

Definition five_failures : list pass_event :=
  [failing_turn; failing_turn; failing_turn; failing_turn; failing_turn].

(** ** Vocabulary of the identifier properties *)

(** The polynomial [31^(n-1) s0 + ... + 31 s(n-2) + s(n-1)] of the
    character codes of [s] over the integers, continued from [h]. *)
Fixpoint hashCode (s : string) (h : Z) : Z :=
  match s with
  | EmptyString => h
  | String c s' => hashCode s' (31 * h + charCode c)
  end.

(** The text [generateUniqueId] hashes. *)
Definition combinedString (url secondaryId : jsstr) (now : Z) : string :=
  (or_empty (js_or url (JStr "")) ++ "::" ++
   or_empty (js_or secondaryId (JStr "")) ++ "::" ++ decimal_of now)%string.

(** ** Vocabulary of the URL properties *)

(** The query string [extractImageData] puts on a media URL. *)
Definition bestQuality : string := "?format=jpg&name=4096x4096".

(** [skipImage] without its tests for [video_thumb] and
    [amplify_video_thumb]. *)
Definition skipImage_short (imageSrc : string) : bool :=
  negb (truthy (JStr imageSrc)) ||
  negb (includes imageSrc "twimg.com") ||
  includes imageSrc "video" ||
  includes imageSrc "_normal.jpg" ||
  includes imageSrc "_bigger.jpg" ||
  includes imageSrc "semantic_core_img" ||
  includes imageSrc "community_banner_img" ||
  includes imageSrc "profile_images".

(** ** Vocabulary of the duration properties *)

(** A non-empty string of digits. *)
Fixpoint allDigits (s : string) : bool :=
  match s with
  | EmptyString => true
  | String c s' => isDigit c && allDigits s'
  end.

Definition numeral (s : string) : bool := negb (String.eqb s "") && allDigits s.

(** How often [c] occurs in [s]. *)
Fixpoint count_char (c : ascii) (s : string) : nat :=
  match s with
  | EmptyString => 0
  | String a s' => (if Ascii.eqb a c then 1 else 0) + count_char c s'
  end.

(** No digit occurs in [s]. *)
Fixpoint noDigit (s : string) : bool :=
  match s with
  | EmptyString => true
  | String c s' => negb (isDigit c) && noDigit s'
  end.

(** A string of dots. *)
Fixpoint onlyDots (s : string) : bool :=
  match s with
  | EmptyString => true
  | String c s' => Ascii.eqb c "." && onlyDots s'
  end.

(** ** extractTweetId *)

(** The longest run of digits at the head of [s], and what follows it. *)
Fixpoint takeDigits (s : string) : string * string :=
  match s with
  | String c s' =>
      if isDigit c then (String c (fst (takeDigits s')), snd (takeDigits s'))
      else (EmptyString, s)
  | EmptyString => (EmptyString, EmptyString)
  end.

(** [s.slice(n)] *)
Fixpoint drop (n : nat) (s : string) : string :=
  match n, s with
  | O, _ => s
  | S n', String _ s' => drop n' s'
  | S _, EmptyString => EmptyString
  end.

(** A match of [before(\d+)after] that starts at the head of [s]: the
    digits captured.  As [after] never starts with a digit in the
    patterns at hand, the group takes the whole run of digits. *)
Definition matchHere (before after s : string) : option string :=
  if String.prefix before s
  then
    let (digits, rest) := takeDigits (drop (String.length before) s) in
    if negb (String.eqb digits "") && String.prefix after rest then Some digits else None
  else None.

(** [s.match(/before(\d+)after/)]: the group of the leftmost match. *)
Fixpoint matchFirst (before after s : string) : option string :=
  match matchHere before after s with
  | Some digits => Some digits
  | None =>
      match s with
      | String _ s' => matchFirst before after s'
      | EmptyString => None
      end
  end.

(** The loop over the patterns: the first one that matches decides. *)
Fixpoint firstMatch (patterns : list (string * string)) (url : string) : option string :=
  match patterns with
  | [] => None
  | (before, after) :: patterns' =>
      match matchFirst before after url with
      | Some digits => Some digits
      | None => firstMatch patterns' url
      end
  end.

(** The four patterns, as the text before and after the group. *)
Definition tweetIdPatterns : list (string * string) :=
  [("/status/", ""); ("statuses/", ""); ("status/", "/photo"); ("i/status/", "")].

(** [extractTweetId(url)]; [None] is [null]. *)
Definition extractTweetId (url : jsstr) : option string :=
  if negb (truthy url) then None
  else firstMatch tweetIdPatterns (or_empty url).

(** ** throttle *)

(** One call of the function [throttle(fn, delay)] returns, made when the
    clock reads [now]: whether [fn] runs, and the new [lastTime]. *)
Definition throttled (delay now lastTime : Z) : bool * Z :=
  if delay <=? now - lastTime then (true, now) else (false, lastTime).

(** The clock readings at which [fn] runs, over a sequence of calls. *)
Fixpoint throttle_runs (delay : Z) (calls : list Z) (lastTime : Z) : list Z :=
  match calls with
  | [] => []
  | now :: calls' =>
      let (ran, lastTime') := throttled delay now lastTime in
      if ran then now :: throttle_runs delay calls' lastTime'
      else throttle_runs delay calls' lastTime'
  end.

(** Each element is at least [delay] after the one before it, the first
    after [start]. *)
Fixpoint spaced (delay start : Z) (times : list Z) : Prop :=
  match times with
  | [] => True
  | t :: times' => delay <= t - start /\ spaced delay t times'
  end.


(** * Properties *)

(** ** JavaScript values *)

Lemma strict_eq_refl (a : jsstr) : strict_eq a a = true.
Proof. destruct a; simpl; auto using String.eqb_refl. Qed.

Lemma strict_eq_true (a b : jsstr) : strict_eq a b = true <-> a = b.
Proof.
  split.
  - destruct a, b; simpl; try discriminate; auto.
    intros H. apply String.eqb_eq in H. now subst.
  - intros ->. apply strict_eq_refl.
Qed.

(** ** Maps *)

Module JsMapFacts.
Import JsMap.

Section WithValues.
Context {V : Type}.
Implicit Types (m : JsMap.t V) (k : jsstr) (v : V) (es : list (jsstr * V)).

Lemma has_true_iff k m : has k m = true <-> In k (keys m).
Proof.
  unfold has, keys. rewrite existsb_exists. split.
  - intros [[k' v] [Hin Heq]]. simpl in Heq.
    apply strict_eq_true in Heq. subst. now apply (in_map fst) in Hin.
  - intros Hin. apply in_map_iff in Hin. destruct Hin as [[k' v] [Hk Hin]].
    exists (k', v). split; [assumption|]. simpl in *. subst.
    apply strict_eq_refl.
Qed.

Lemma has_false_iff k m : has k m = false <-> ~ In k (keys m).
Proof.
  rewrite <- has_true_iff. destruct (has k m); split; intros H;
    try reflexivity; try discriminate.
  now contradiction H.
Qed.

Lemma set_fresh k v m : has k m = false -> set k v m = m ++ [(k, v)].
Proof.
  induction m as [|[k' v'] m IH]; simpl; [reflexivity|].
  destruct (strict_eq k' k); simpl; [discriminate|].
  intros H. now rewrite IH.
Qed.

Lemma keys_set_present k v m : has k m = true -> keys (set k v m) = keys m.
Proof.
  induction m as [|[k' v'] m IH]; simpl; [discriminate|].
  destruct (strict_eq k' k) eqn:E; simpl; [reflexivity|].
  intros H. now rewrite IH.
Qed.

Lemma keys_set k v m :
  keys (set k v m) = if has k m then keys m else keys m ++ [k].
Proof.
  destruct (has k m) eqn:E.
  - now apply keys_set_present.
  - rewrite set_fresh by assumption. unfold keys. now rewrite map_app.
Qed.

Lemma wf_empty : wf (@empty V).
Proof. constructor. Qed.

Lemma NoDup_snoc (A : Type) (l : list A) (x : A) :
  NoDup l -> ~ In x l -> NoDup (l ++ [x]).
Proof.
  intros Hnd Hx. apply NoDup_rev in Hnd.
  rewrite <- (rev_involutive (l ++ [x])).
  apply NoDup_rev. rewrite rev_app_distr. simpl. constructor; [|assumption].
  now rewrite <- in_rev.
Qed.

Lemma wf_set k v m : wf m -> wf (set k v m).
Proof.
  unfold wf. rewrite keys_set. destruct (has k m) eqn:E; [easy|].
  intros Hnd. apply has_false_iff in E. now apply NoDup_snoc.
Qed.

Lemma wf_of_entries_from es m : wf m ->
  wf (fold_left (fun m e => set (fst e) (snd e) m) es m).
Proof.
  revert m. induction es as [|e es IH]; simpl; intros m Hm; [assumption|].
  apply IH. now apply wf_set.
Qed.

Lemma wf_of_entries es : wf (of_entries es).
Proof. apply wf_of_entries_from, wf_empty. Qed.

(** Rebuilding a Map from entries whose keys are distinct gives the
    entries back, in their order. *)
Lemma of_entries_from_nodup es m :
  NoDup (keys m ++ map fst es) ->
  fold_left (fun m e => set (fst e) (snd e) m) es m = m ++ es.
Proof.
  revert m. induction es as [|[k v] es IH]; simpl; intros m Hnd.
  - now rewrite app_nil_r.
  - assert (Hk : has k m = false).
    { apply has_false_iff. intros Hin.
      apply NoDup_remove_2 in Hnd. apply Hnd. apply in_or_app. now left. }
    rewrite set_fresh by assumption.
    rewrite IH.
    + now rewrite <- app_assoc.
    + unfold keys in *. rewrite map_app. simpl. now rewrite <- app_assoc.
Qed.

Lemma of_entries_nodup es : NoDup (map fst es) -> of_entries es = es.
Proof.
  intros H. unfold of_entries. now rewrite of_entries_from_nodup.
Qed.

End WithValues.

End JsMapFacts.

(** ** Reasoning about computations *)

Section Preserves.
Context {S : Type} (R : S -> S -> Prop).
Hypothesis R_refl : forall s, R s s.
Hypothesis R_trans : forall s1 s2 s3, R s1 s2 -> R s2 s3 -> R s1 s3.

Lemma preserves_ret {A} (a : A) : preserves R (ret a).
Proof. intros s. apply R_refl. Qed.

Lemma preserves_throw {A} (e : string) : preserves R (@throw S A e).
Proof. intros s. apply R_refl. Qed.

Lemma preserves_lookup {A} (o : outcome A) : preserves R (lookup o).
Proof. intros s. apply R_refl. Qed.

Lemma preserves_get : preserves R get.
Proof. intros s. apply R_refl. Qed.

Lemma preserves_modify (f : S -> S) : (forall s, R s (f s)) -> preserves R (modify f).
Proof. intros H s. apply H. Qed.

Lemma preserves_bind {A B} (c : M S A) (k : A -> M S B) :
  preserves R c -> (forall a, preserves R (k a)) -> preserves R (bind c k).
Proof.
  intros Hc Hk s. unfold bind. specialize (Hc s).
  destruct (c s) as [s' [a|e]]; simpl in *; [|assumption].
  eapply R_trans; [eassumption|]. apply Hk.
Qed.

Lemma preserves_try_catch {A} (body : M S A) (handler : string -> M S A) :
  preserves R body -> (forall e, preserves R (handler e)) ->
  preserves R (try_catch body handler).
Proof.
  intros Hb Hh s. unfold try_catch. specialize (Hb s).
  destruct (body s) as [s' [a|e]]; simpl in *; [assumption|].
  eapply R_trans; [eassumption|]. apply Hh.
Qed.

Lemma preserves_when (b : bool) (c : M S unit) :
  preserves R c -> preserves R (when b c).
Proof. intros H. destruct b; simpl; [assumption|]. apply preserves_ret. Qed.

Lemma preserves_forEach {A} (callback : A -> M S unit) (l : list A) :
  (forall x, preserves R (callback x)) -> preserves R (forEach callback l).
Proof.
  intros H. induction l as [|x l IH]; simpl.
  - apply preserves_ret.
  - apply preserves_bind; [apply H | intros _; apply IH].
Qed.

End Preserves.

Section Total.
Context {S : Type}.

Lemma total_ret {A} (a : A) : total (@ret S A a).
Proof. intros s. now exists a. Qed.

Lemma total_bind {A B} (c : M S A) (k : A -> M S B) :
  total c -> (forall a, total (k a)) -> total (bind c k).
Proof.
  intros Hc Hk s. unfold bind. destruct (Hc s) as [a Ha].
  destruct (c s) as [s' r]. simpl in Ha. subst r. apply Hk.
Qed.

Lemma total_modify (f : S -> S) : total (modify f).
Proof. intros s. now exists tt. Qed.

Lemma total_get : total (@get S).
Proof. intros s. now exists s. Qed.

Lemma total_when (b : bool) (c : M S unit) : total c -> total (when b c).
Proof. intros H. destruct b; simpl; [assumption|]. apply total_ret. Qed.

(** A [catch] block that does not throw makes the whole statement total. *)
Lemma total_try_catch {A} (body : M S A) (handler : string -> M S A) :
  (forall e, total (handler e)) -> total (try_catch body handler).
Proof.
  intros Hh s. unfold try_catch.
  destruct (body s) as [s' [a|e]]; simpl; [now exists a|]. apply Hh.
Qed.

Lemma total_forEach {A} (callback : A -> M S unit) (l : list A) :
  (forall x, total (callback x)) -> total (forEach callback l).
Proof.
  intros H. induction l as [|x l IH]; simpl.
  - apply total_ret.
  - apply total_bind; [apply H | intros _; apply IH].
Qed.

End Total.

Lemma total_with_locals {L A} (init : L) (body : M (state * L) A) :
  total body -> total (with_locals init body).
Proof.
  intros H s. unfold with_locals. destruct (H (s, init)) as [a Ha].
  destruct (body (s, init)) as [[s' l] r]. simpl in Ha. subst r.
  now exists (a, l).
Qed.

Lemma total_lift {L A} (c : M state A) : total c -> total (@lift L A c).
Proof.
  intros H [s l]. unfold lift. simpl. destruct (H s) as [a Ha].
  destruct (c s) as [s' r]. simpl in *. now exists a.
Qed.

Lemma only_pwa_refl (e : errors) : only_pwa e e.
Proof. unfold only_pwa. repeat split; lia. Qed.

Lemma only_pwa_trans (e1 e2 e3 : errors) :
  only_pwa e1 e2 -> only_pwa e2 e3 -> only_pwa e1 e3.
Proof. unfold only_pwa. intros (? & ? & ? & ?) (? & ? & ? & ?). repeat split; lia. Qed.

Lemma grown_refl (st : state) : grown st st.
Proof.
  constructor; try reflexivity; try apply only_pwa_refl;
    exists []; now rewrite app_nil_r.
Qed.

Lemma grown_trans (s1 s2 s3 : state) : grown s1 s2 -> grown s2 s3 -> grown s1 s3.
Proof.
  intros [] []. constructor; try congruence.
  - eapply only_pwa_trans; eassumption.
  - destruct g_videoCache0 as [a Ha], g_videoCache1 as [b Hb].
    exists (a ++ b). now rewrite Hb, Ha, app_assoc.
  - destruct g_imageCache0 as [a Ha], g_imageCache1 as [b Hb].
    exists (a ++ b). now rewrite Hb, Ha, app_assoc.
Qed.

Lemma grown_in_refl {L} (sl : state * L) : grown_in sl sl.
Proof. apply grown_refl. Qed.

Lemma grown_in_trans {L} (s1 s2 s3 : state * L) :
  grown_in s1 s2 -> grown_in s2 s3 -> grown_in s1 s3.
Proof. apply grown_trans. Qed.

Lemma preserves_lift {L A} (c : M state A) :
  preserves grown c -> preserves grown_in (@lift L A c).
Proof.
  intros H [s l]. unfold lift, grown_in. simpl. specialize (H s).
  destruct (c s) as [s' r]. exact H.
Qed.

Lemma preserves_assign {L} (f : L -> L) : preserves grown_in (assign f).
Proof. intros [s l]. apply grown_refl. Qed.

Lemma preserves_with_locals {L A} (init : L) (body : M (state * L) A) :
  preserves grown_in body -> preserves grown (with_locals init body).
Proof.
  intros H s. unfold with_locals. specialize (H (s, init)). unfold grown_in in H.
  destruct (body (s, init)) as [[s' l] [a|e]]; exact H.
Qed.

(** Logging at level error changes at most the count of suppressed
    console errors. *)
Lemma consoleError_grown (text : string) (st : state) : grown st (consoleError text st).
Proof.
  unfold consoleError. destruct (pwaIntercepted st && shouldIgnoreError text).
  - constructor; try reflexivity; try (exists []; now rewrite app_nil_r).
    unfold only_pwa. cbn. repeat split; lia.
  - apply grown_refl.
Qed.

Lemma preserves_logError (message : string) : preserves grown (logError message).
Proof. intros st. apply consoleError_grown. Qed.

Lemma total_logError (message : string) : total (logError message).
Proof. apply total_modify. Qed.

Lemma consoleError_quiet (text : string) (st : state) :
  pwaIntercepted st && shouldIgnoreError text = false -> consoleError text st = st.
Proof. unfold consoleError. now intros ->. Qed.

(** What [console.error] leaves alone. *)
Lemma consoleError_isAnalyzing (text : string) (st : state) :
  isAnalyzing (consoleError text st) = isAnalyzing st.
Proof. unfold consoleError. now destruct (pwaIntercepted st && shouldIgnoreError text). Qed.

Lemma consoleError_isProcessing (text : string) (st : state) :
  isProcessing (consoleError text st) = isProcessing st.
Proof. unfold consoleError. now destruct (pwaIntercepted st && shouldIgnoreError text). Qed.

Lemma consoleError_isScrolling (text : string) (st : state) :
  isScrolling (consoleError text st) = isScrolling st.
Proof. unfold consoleError. now destruct (pwaIntercepted st && shouldIgnoreError text). Qed.

Lemma consoleError_scrollCount (text : string) (st : state) :
  scrollCount (consoleError text st) = scrollCount st.
Proof. unfold consoleError. now destruct (pwaIntercepted st && shouldIgnoreError text). Qed.

Lemma consoleError_stabilityCounter (text : string) (st : state) :
  stabilityCounter (consoleError text st) = stabilityCounter st.
Proof. unfold consoleError. now destruct (pwaIntercepted st && shouldIgnoreError text). Qed.

Lemma consoleError_startTime (text : string) (st : state) :
  startTime (consoleError text st) = startTime st.
Proof. unfold consoleError. now destruct (pwaIntercepted st && shouldIgnoreError text). Qed.

Lemma consoleError_videoCache (text : string) (st : state) :
  videoCache (consoleError text st) = videoCache st.
Proof. unfold consoleError. now destruct (pwaIntercepted st && shouldIgnoreError text). Qed.

Lemma consoleError_imageCache (text : string) (st : state) :
  imageCache (consoleError text st) = imageCache st.
Proof. unfold consoleError. now destruct (pwaIntercepted st && shouldIgnoreError text). Qed.

Lemma consoleError_newlyDiscoveredVideos (text : string) (st : state) :
  newlyDiscoveredVideos (consoleError text st) = newlyDiscoveredVideos st.
Proof. unfold consoleError. now destruct (pwaIntercepted st && shouldIgnoreError text). Qed.

Lemma consoleError_newlyDiscoveredImages (text : string) (st : state) :
  newlyDiscoveredImages (consoleError text st) = newlyDiscoveredImages st.
Proof. unfold consoleError. now destruct (pwaIntercepted st && shouldIgnoreError text). Qed.

Lemma consoleError_lastMediaDiscoveryScroll (text : string) (st : state) :
  lastMediaDiscoveryScroll (consoleError text st) = lastMediaDiscoveryScroll st.
Proof. unfold consoleError. now destruct (pwaIntercepted st && shouldIgnoreError text). Qed.

Lemma consoleError_pwaIntercepted (text : string) (st : state) :
  pwaIntercepted (consoleError text st) = pwaIntercepted st.
Proof. unfold consoleError. now destruct (pwaIntercepted st && shouldIgnoreError text). Qed.

Create Rewrite HintDb logged.
#[local] Hint Rewrite consoleError_isAnalyzing
  consoleError_isProcessing
  consoleError_isScrolling
  consoleError_scrollCount
  consoleError_stabilityCounter
  consoleError_startTime
  consoleError_videoCache
  consoleError_imageCache
  consoleError_newlyDiscoveredVideos
  consoleError_newlyDiscoveredImages
  consoleError_lastMediaDiscoveryScroll
  consoleError_pwaIntercepted : logged.

Create HintDb frame.
#[local] Hint Resolve grown_refl grown_trans : frame.
#[local] Hint Resolve (@grown_in_refl) (@grown_in_trans) : frame.
#[local] Hint Resolve preserves_logError consoleError_grown only_pwa_refl : frame.

(** ** The duplicate check *)

Import JsMapFacts.

Lemma isCached_true_iff (c : cache) (k src : jsstr) :
  isCached c k src = true <->
  In k (JsMap.keys c) \/ exists r, In r (JsMap.values c) /\ url r = src.
Proof.
  unfold isCached. rewrite orb_true_iff, has_true_iff, existsb_exists.
  split; intros [H|[r [Hin Hr]]]; auto; right; exists r; split; auto.
  - now apply strict_eq_true.
  - now apply strict_eq_true.
Qed.

Lemma isCached_app (c : cache) (k src : jsstr) (es : list (jsstr * media)) :
  isCached c k src = true -> isCached (c ++ es) k src = true.
Proof.
  rewrite !isCached_true_iff. unfold JsMap.keys, JsMap.values.
  rewrite !map_app. intros [H|[r [Hin Hr]]].
  - left. apply in_or_app. now left.
  - right. exists r. split; [apply in_or_app; now left | assumption].
Qed.

Lemma isCached_last (c : cache) (k k' : jsstr) (r : media) (src : jsstr) :
  url r = src -> isCached (c ++ [(k, r)]) k' src = true.
Proof.
  intros Hsrc. apply isCached_true_iff. right. exists r. split; [|assumption].
  unfold JsMap.values. rewrite map_app. apply in_or_app. right. now left.
Qed.

Lemma extractVideoData_eq (st : state) (v : video_surface) :
  extractVideoData (Returns (Some v)) st =
  if video_empty v || isCached (videoCache st) (video_id v) (video_url v)
  then (st, Returns 0)
  else (set_videoCache
          (videoCache st ++ [(video_id v, videoData v (scrollCount st))]) st,
        Returns 1).
Proof.
  unfold extractVideoData, try_catch, bind, lookup, video_empty. simpl.
  destruct (negb (truthy (video_url v)) && negb (truthy (video_poster v)));
    simpl; [reflexivity|].
  unfold get, bind. simpl.
  destruct (isCached (videoCache st) (video_id v) (video_url v)) eqn:E;
    simpl; [reflexivity|].
  unfold modify, ret. simpl. rewrite set_fresh; [reflexivity|].
  unfold isCached in E. apply orb_false_iff in E. tauto.
Qed.

Lemma extractImageContainer_eq (tweetUrl : jsstr) (c : image_candidate)
    (st : state) (n : Z) :
  extractImageContainer tweetUrl (Returns c) (st, n) =
  if skipImage (ic_src c) ||
     isCached (imageCache st) (image_id tweetUrl c) (image_url c)
  then ((st, n), Returns tt)
  else ((set_imageCache
           (imageCache st ++
              [(image_id tweetUrl c, imageData tweetUrl c (scrollCount st))]) st,
         n + 1), Returns tt).
Proof.
  unfold extractImageContainer, try_catch, bind, lookup. simpl.
  destruct (skipImage (ic_src c)); simpl; [reflexivity|].
  destruct (isCached (imageCache st) (image_id tweetUrl c) (image_url c)) eqn:E;
    simpl; [reflexivity|].
  unfold lift, modify, assign. simpl. rewrite set_fresh; [reflexivity|].
  unfold isCached in E. apply orb_false_iff in E. tauto.
Qed.

(** Extraction only appends to the caches. *)
Lemma extractVideoData_grows (element : outcome (option video_surface)) :
  preserves grown (extractVideoData element).
Proof.
  intros st. destruct element as [[v|]|e]; try apply grown_refl;
    [|apply consoleError_grown].
  rewrite extractVideoData_eq.
  destruct (video_empty v || isCached (videoCache st) (video_id v) (video_url v));
    [apply grown_refl|].
  constructor; try reflexivity; try apply only_pwa_refl; simpl.
  - eexists; reflexivity.
  - exists []; now rewrite app_nil_r.
Qed.

Lemma extractImageContainer_grows (tweetUrl : jsstr) (container : outcome image_candidate) :
  preserves grown_in (extractImageContainer tweetUrl container).
Proof.
  intros [st n]. destruct container as [c|e]; [|apply grown_refl].
  rewrite extractImageContainer_eq.
  destruct (skipImage (ic_src c) ||
            isCached (imageCache st) (image_id tweetUrl c) (image_url c));
    [apply grown_refl|].
  constructor; try reflexivity; try apply only_pwa_refl; simpl.
  - exists []; now rewrite app_nil_r.
  - eexists; reflexivity.
Qed.

Lemma extractImageData_grows (element : outcome (option image_surface)) :
  preserves grown (extractImageData element).
Proof.
  unfold extractImageData.
  apply preserves_try_catch; eauto with frame.
  - apply preserves_bind; eauto with frame.
    + apply preserves_lookup; eauto with frame.
    + intros [surface|]; [|apply preserves_ret; eauto with frame].
      destruct (is_containers surface) as [|c0 cs] eqn:E;
        [apply preserves_ret; eauto with frame|].
      apply preserves_bind; eauto with frame.
      * apply preserves_with_locals.
        apply preserves_forEach; eauto with frame.
        intros x. apply extractImageContainer_grows.
      * intros r. apply preserves_ret; eauto with frame.
  - intros e. repeat (apply preserves_bind; eauto with frame; intros);
      first [apply preserves_modify | apply preserves_ret]; eauto with frame.
Qed.

Lemma video_settled_step (v w : video_surface) (st : state) :
  video_settled v st ->
  video_settled v (fst (extractVideoData (Returns (Some w)) st)).
Proof.
  unfold video_settled. rewrite extractVideoData_eq.
  destruct (video_empty w || isCached (videoCache st) (video_id w) (video_url w)); cbn [fst videoCache set_videoCache]; [easy|].
  rewrite !orb_true_iff. intros [H|H]; [now left|right].
  now apply isCached_app.
Qed.

Lemma video_settled_self (v : video_surface) (st : state) :
  video_settled v (fst (extractVideoData (Returns (Some v)) st)).
Proof.
  unfold video_settled. rewrite extractVideoData_eq.
  destruct (video_empty v || isCached (videoCache st) (video_id v) (video_url v)) eqn:E; cbn [fst videoCache set_videoCache];
    [assumption|].
  apply orb_true_iff. right.
  now apply isCached_last.
Qed.

Lemma video_settled_present (v : video_surface) (l : list video_surface) (st : state) :
  video_settled v st -> video_settled v (presentVideos l st).
Proof.
  revert st. induction l as [|w l IH]; simpl; intros st H; [assumption|].
  apply IH. now apply video_settled_step.
Qed.

Lemma image_settled_step (tweetUrl : jsstr) (c d : image_candidate) (sl : state * Z) :
  image_settled tweetUrl c (fst sl) ->
  image_settled tweetUrl c (fst (fst (extractImageContainer tweetUrl (Returns d) sl))).
Proof.
  destruct sl as [st n]. unfold image_settled. rewrite extractImageContainer_eq.
  destruct (skipImage (ic_src d) ||
            isCached (imageCache st) (image_id tweetUrl d) (image_url d)); cbn [fst imageCache set_imageCache]; [easy|].
  rewrite !orb_true_iff. intros [H|H]; [now left|right].
  now apply isCached_app.
Qed.

Lemma image_settled_self (tweetUrl : jsstr) (c : image_candidate) (sl : state * Z) :
  image_settled tweetUrl c (fst (fst (extractImageContainer tweetUrl (Returns c) sl))).
Proof.
  destruct sl as [st n]. unfold image_settled. rewrite extractImageContainer_eq.
  destruct (skipImage (ic_src c) ||
            isCached (imageCache st) (image_id tweetUrl c) (image_url c)) eqn:E; cbn [fst imageCache set_imageCache];
    [assumption|].
  apply orb_true_iff. right.
  now apply isCached_last.
Qed.

Lemma image_settled_present (tweetUrl : jsstr) (c : image_candidate)
    (l : list image_candidate) (sl : state * Z) :
  image_settled tweetUrl c (fst sl) ->
  image_settled tweetUrl c (fst (presentImages tweetUrl l sl)).
Proof.
  revert sl. induction l as [|d l IH]; simpl; intros sl H; [assumption|].
  apply IH. now apply image_settled_step.
Qed.

Lemma size_snoc (c : cache) (e : jsstr * media) :
  JsMap.size (c ++ [e]) = JsMap.size c + 1.
Proof. unfold JsMap.size. rewrite length_app. simpl. lia. Qed.

(** C1. A record whose id is already a key of the cache, or whose URL
    equals the [url] of a cached record, is not inserted: the extractor
    reports 0 new items and the whole state, cache included, is the one
    before the call.  This holds on the video path, for each image
    container and for [extractImageData] as a whole.  Hence a record presented a second time, at any later point
    of a sequence of insertions, is rejected, and presenting a fresh record
    twice grows the cache by exactly one. *)
Theorem C1_duplicate_insert_rejected :
  (forall (st : state) (v : video_surface),
      In (video_id v) (JsMap.keys (videoCache st)) \/
      (exists r, In r (JsMap.values (videoCache st)) /\ url r = video_url v) ->
      extractVideoData (Returns (Some v)) st = (st, Returns 0)) /\
  (forall (st : state) (tweetUrl : jsstr) (c : image_candidate) (n : Z),
      In (image_id tweetUrl c) (JsMap.keys (imageCache st)) \/
      (exists r, In r (JsMap.values (imageCache st)) /\ url r = image_url c) ->
      extractImageContainer tweetUrl (Returns c) (st, n) = ((st, n), Returns tt)) /\
  (forall (st : state) (tweetUrl : jsstr) (c : image_candidate),
      In (image_id tweetUrl c) (JsMap.keys (imageCache st)) \/
      (exists r, In r (JsMap.values (imageCache st)) /\ url r = image_url c) ->
      extractImageData
        (Returns (Some {| is_tweetUrl := tweetUrl; is_containers := [Returns c] |})) st =
      (st, Returns 0)) /\
  (forall (st : state) (v : video_surface) (l : list video_surface),
      let st1 := presentVideos (v :: l) st in
      extractVideoData (Returns (Some v)) st1 = (st1, Returns 0)) /\
  (forall (st : state) (tweetUrl : jsstr) (c : image_candidate)
          (l : list image_candidate) (n : Z),
      let sl1 := presentImages tweetUrl (c :: l) (st, n) in
      extractImageContainer tweetUrl (Returns c) sl1 = (sl1, Returns tt)) /\
  (forall (st : state) (v : video_surface),
      video_empty v = false ->
      isCached (videoCache st) (video_id v) (video_url v) = false ->
      JsMap.size (videoCache (presentVideos [v; v] st)) =
      JsMap.size (videoCache st) + 1) /\
  (forall (st : state) (tweetUrl : jsstr) (c : image_candidate) (n : Z),
      skipImage (ic_src c) = false ->
      isCached (imageCache st) (image_id tweetUrl c) (image_url c) = false ->
      JsMap.size (imageCache (fst (presentImages tweetUrl [c; c] (st, n)))) =
      JsMap.size (imageCache st) + 1 /\
      snd (presentImages tweetUrl [c; c] (st, n)) = n + 1).
Proof.
  split; [|split; [|split; [|split; [|split; [|split]]]]].
  - intros st v H. apply isCached_true_iff in H.
    rewrite extractVideoData_eq, H, orb_true_r. reflexivity.
  - intros st tweetUrl c n H. apply isCached_true_iff in H.
    rewrite extractImageContainer_eq, H, orb_true_r. reflexivity.
  - intros st tweetUrl c H. apply isCached_true_iff in H.
    unfold extractImageData, try_catch, bind, lookup, with_locals.
    cbn [is_containers is_tweetUrl forEach]. unfold bind.
    rewrite extractImageContainer_eq, H, orb_true_r. reflexivity.
  - intros st v l st1.
    assert (H : video_settled v st1).
    { subst st1. unfold presentVideos. cbn [fold_left].
      apply video_settled_present, video_settled_self. }
    rewrite extractVideoData_eq. unfold video_settled in H. now rewrite H.
  - intros st tweetUrl c l n sl1.
    assert (H : image_settled tweetUrl c (fst sl1)).
    { subst sl1. unfold presentImages. cbn [fold_left].
      apply image_settled_present, image_settled_self. }
    destruct sl1 as [s1 n1]. rewrite extractImageContainer_eq.
    unfold image_settled in H. simpl in H. now rewrite H.
  - intros st v H H0. unfold presentVideos. cbn [fold_left].
    assert (E : extractVideoData (Returns (Some v)) st =
                (set_videoCache
                   (videoCache st ++ [(video_id v, videoData v (scrollCount st))]) st,
                 Returns 1)).
    { now rewrite extractVideoData_eq, H, H0. }
    rewrite E. cbn [fst].
    rewrite extractVideoData_eq. cbn [videoCache set_videoCache].
    rewrite isCached_last, orb_true_r by reflexivity. cbn [fst videoCache set_videoCache].
    apply size_snoc.
  - intros st tweetUrl c n H H0. unfold presentImages. cbn [fold_left].
    assert (E : extractImageContainer tweetUrl (Returns c) (st, n) =
                ((set_imageCache
                    (imageCache st ++
                       [(image_id tweetUrl c, imageData tweetUrl c (scrollCount st))])
                    st, n + 1), Returns tt)).
    { now rewrite extractImageContainer_eq, H, H0. }
    rewrite E. cbn [fst].
    rewrite extractImageContainer_eq. cbn [imageCache set_imageCache].
    rewrite isCached_last, orb_true_r by reflexivity. cbn [fst snd imageCache set_imageCache].
    split; [apply size_snoc | reflexivity].
Qed.

Lemma C1_witness :
  JsMap.size (videoCache (presentVideos [sample_video; sample_video] initial_state)) =
  JsMap.size (videoCache initial_state) + 1 /\
  extractVideoData (Returns (Some sample_video))
    (presentVideos [sample_video] initial_state) =
  (presentVideos [sample_video] initial_state, Returns 0).
Proof.
  split.
  - apply (proj1 (proj2 (proj2 (proj2 (proj2 (proj2 C1_duplicate_insert_rejected)))))
             initial_state sample_video); vm_compute; reflexivity.
  - apply (proj1 C1_duplicate_insert_rejected
             (presentVideos [sample_video] initial_state) sample_video).
    left. vm_compute. left. reflexivity.
Defined.

(** ** detectMedia *)

Ltac frame_step :=
  first
    [ apply preserves_ret
    | apply preserves_lookup
    | apply preserves_get
    | apply preserves_assign
    | apply preserves_when
    | apply preserves_try_catch
    | apply preserves_bind
    | apply preserves_lift
    | apply preserves_with_locals
    | apply preserves_forEach ].

(** Walks down a computation built from the monad's combinators; the
    leaves are closed from the [frame] hints. *)
Ltac frame :=
  repeat first
    [ progress intros
    | solve [eauto with frame]
    | match goal with
      | |- preserves _ (if ?b then _ else _) => destruct b
      | |- preserves _ (match ?x with _ => _ end) => destruct x
      end
    | frame_step ].

#[local] Hint Resolve extractImageData_grows extractVideoData_grows : frame.

Lemma processContainer_grows (cfg : config) (c : container) :
  preserves grown_in (processContainer cfg c).
Proof. unfold processContainer. frame. Qed.

Lemma grown_set_newlyDiscoveredVideos (n : Z) (st : state) :
  grown st (set_newlyDiscoveredVideos n st).
Proof.
  constructor; try reflexivity; try apply only_pwa_refl;
    exists []; simpl; now rewrite app_nil_r.
Qed.

Lemma grown_set_newlyDiscoveredImages (n : Z) (st : state) :
  grown st (set_newlyDiscoveredImages n st).
Proof.
  constructor; try reflexivity; try apply only_pwa_refl;
    exists []; simpl; now rewrite app_nil_r.
Qed.

(** A discovery pass appends to the caches and adds to the two discovery
    totals; of the rest it changes at most the count of suppressed
    console errors. *)
Lemma detectMedia_grows (cfg : config) (tweetContainers : outcome (list container)) :
  preserves grown (detectMedia cfg tweetContainers).
Proof.
  pose proof processContainer_grows.
  pose proof grown_set_newlyDiscoveredVideos.
  pose proof grown_set_newlyDiscoveredImages.
  unfold detectMedia. frame; apply preserves_modify; intros; auto.
Qed.

(** A discovery pass never throws. *)
Lemma detectMedia_total (cfg : config) (tweetContainers : outcome (list container)) :
  total (detectMedia cfg tweetContainers).
Proof.
  unfold detectMedia. apply total_try_catch. intros e.
  apply total_bind; [apply total_logError|intros; apply total_ret].
Qed.

Lemma processContainer_total (cfg : config) (c : container) :
  total (processContainer cfg c).
Proof.
  unfold processContainer. apply total_try_catch. intros e. apply total_ret.
Qed.

(** ** The counts of a discovery pass *)

Lemma images_counted_refl (sl : state * Z) : images_counted sl sl.
Proof. unfold images_counted. repeat split; lia. Qed.

Lemma images_counted_trans (s1 s2 s3 : state * Z) :
  images_counted s1 s2 -> images_counted s2 s3 -> images_counted s1 s3.
Proof. unfold images_counted. intros (A & B & C) (D & E & F). repeat split; try lia. congruence. Qed.

Lemma media_counted_refl (sl : state * detected) : media_counted sl sl.
Proof. unfold media_counted. split; lia. Qed.

Lemma media_counted_trans (s1 s2 s3 : state * detected) :
  media_counted s1 s2 -> media_counted s2 s3 -> media_counted s1 s3.
Proof. unfold media_counted. intros (A & B) (C & D). split; lia. Qed.

#[local] Hint Resolve images_counted_refl images_counted_trans : frame.
#[local] Hint Resolve media_counted_refl media_counted_trans : frame.

Lemma extractImageContainer_counted (tweetUrl : jsstr)
    (container : outcome image_candidate) :
  preserves images_counted (extractImageContainer tweetUrl container).
Proof.
  intros [st n]. destruct container as [c|e]; [|apply images_counted_refl].
  rewrite extractImageContainer_eq.
  destruct (skipImage (ic_src c) ||
            isCached (imageCache st) (image_id tweetUrl c) (image_url c));
    [apply images_counted_refl|].
  unfold images_counted. cbn [fst snd imageCache videoCache set_imageCache].
  rewrite size_snoc. repeat split; lia.
Qed.

Lemma extractImageContainer_total (tweetUrl : jsstr)
    (container : outcome image_candidate) :
  total (extractImageContainer tweetUrl container).
Proof.
  unfold extractImageContainer. apply total_try_catch. intros e. apply total_ret.
Qed.

(** What [extractImageData] returns is the growth of the image cache. *)
Lemma extractImageData_count (element : outcome (option image_surface)) (st : state) :
  exists st' n,
    extractImageData element st = (st', Returns n) /\
    0 <= n /\
    JsMap.size (imageCache st') = JsMap.size (imageCache st) + n /\
    videoCache st' = videoCache st.
Proof.
  assert (Hnone : exists st' n,
            (st, Returns 0) = (st', Returns n) /\ 0 <= n /\
            JsMap.size (imageCache st') = JsMap.size (imageCache st) + n /\
            videoCache st' = videoCache st).
  { exists st, 0. repeat split; lia. }
  unfold extractImageData, try_catch, bind, lookup.
  destruct element as [[surface|]|e]; try exact Hnone.
  2:{ eexists _, 0. split; [reflexivity|]. autorewrite with logged.
      repeat split; lia. }
  destruct (is_containers surface) as [|c0 cs] eqn:E; [exact Hnone|].
  set (body := forEach (extractImageContainer (is_tweetUrl surface)) (c0 :: cs)).
  assert (Ht : total body).
  { apply total_forEach. intros x. apply extractImageContainer_total. }
  assert (Hp : preserves images_counted body).
  { apply preserves_forEach; eauto with frame.
    intros x. apply extractImageContainer_counted. }
  unfold with_locals. specialize (Ht (st, 0)). specialize (Hp (st, 0)).
  destruct (body (st, 0)) as [[st' n] r]. destruct Ht as [[] Hr].
  simpl in Hr. subst r. unfold images_counted in Hp. simpl in Hp.
  destruct Hp as (Hn & Hle & Hv).
  exists st', n. unfold ret. simpl. repeat split; auto; lia.
Qed.

(** What [extractVideoData] returns is the growth of the video cache. *)
Lemma extractVideoData_count (element : outcome (option video_surface)) (st : state) :
  exists st' n,
    extractVideoData element st = (st', Returns n) /\
    0 <= n /\
    JsMap.size (videoCache st') = JsMap.size (videoCache st) + n /\
    imageCache st' = imageCache st.
Proof.
  destruct element as [[v|]|e];
    try (exists st, 0; repeat split; lia).
  2:{ eexists _, 0. split; [reflexivity|]. unfold modify. cbn [fst].
      autorewrite with logged. repeat split; lia. }
  rewrite extractVideoData_eq.
  destruct (video_empty v || isCached (videoCache st) (video_id v) (video_url v)).
  - exists st, 0. repeat split; lia.
  - eexists _, 1. split; [reflexivity|]. cbn [videoCache imageCache set_videoCache].
    rewrite size_snoc. repeat split; lia.
Qed.

Lemma image_step_counted (element : outcome (option image_surface)) :
  preserves media_counted
    (n <- lift (extractImageData element) ;; when (0 <? n) (assign (addImages n))).
Proof.
  intros [st d]. unfold bind, lift. cbn [fst snd].
  destruct (extractImageData_count element st) as (st' & n & Heq & Hn & Hi & Hv).
  rewrite Heq. unfold media_counted.
  destruct (0 <? n) eqn:E; cbn [when assign ret fst snd addImages newVideos newImages].
  - rewrite Hi, Hv. split; lia.
  - apply Z.ltb_ge in E. rewrite Hi, Hv. split; lia.
Qed.

Lemma video_step_counted (element : outcome (option video_surface)) :
  preserves media_counted
    (n <- lift (extractVideoData element) ;; when (0 <? n) (assign (addVideos n))).
Proof.
  intros [st d]. unfold bind, lift. cbn [fst snd].
  destruct (extractVideoData_count element st) as (st' & n & Heq & Hn & Hv & Hi).
  rewrite Heq. unfold media_counted.
  destruct (0 <? n) eqn:E; cbn [when assign ret fst snd addVideos newVideos newImages].
  - rewrite Hi, Hv. split; lia.
  - apply Z.ltb_ge in E. rewrite Hi, Hv. split; lia.
Qed.

#[local] Hint Resolve image_step_counted video_step_counted : frame.

Lemma processContainer_counted (cfg : config) (c : container) :
  preserves media_counted (processContainer cfg c).
Proof. unfold processContainer. frame. Qed.

(** The counts [detectMedia] returns are the growth of the two caches. *)
Lemma detectMedia_count (cfg : config) (tweetContainers : outcome (list container))
    (st : state) :
  exists st' counted,
    detectMedia cfg tweetContainers st = (st', Returns counted) /\
    newVideos counted = JsMap.size (videoCache st') - JsMap.size (videoCache st) /\
    newImages counted = JsMap.size (imageCache st') - JsMap.size (imageCache st).
Proof.
  assert (Hnone : exists st' counted,
            (st, Returns no_media) = (st', Returns counted) /\
            newVideos counted =
              JsMap.size (videoCache st') - JsMap.size (videoCache st) /\
            newImages counted =
              JsMap.size (imageCache st') - JsMap.size (imageCache st)).
  { exists st, no_media. simpl. repeat split; lia. }
  unfold detectMedia, try_catch, bind, lookup.
  destruct tweetContainers as [[|c cs]|e]; try exact Hnone.
  2:{ eexists _, no_media. split; [reflexivity|]. autorewrite with logged.
      simpl. split; lia. }
  set (body := forEach (processContainer cfg) (c :: cs)).
  assert (Ht : total body).
  { apply total_forEach. intros x. apply processContainer_total. }
  assert (Hp : preserves media_counted body).
  { apply preserves_forEach; eauto with frame.
    intros x. apply processContainer_counted. }
  unfold with_locals. specialize (Ht (st, no_media)). specialize (Hp (st, no_media)).
  destruct (body (st, no_media)) as [[st' d] r]. destruct Ht as [[] Hr].
  simpl in Hr. subst r. unfold media_counted in Hp. simpl in Hp.
  destruct Hp as (Hv & Hi).
  unfold modify, ret. cbn [snd fst]. do 2 eexists. split; [reflexivity|].
  cbn [videoCache imageCache set_newlyDiscoveredImages set_newlyDiscoveredVideos].
  split; lia.
Qed.

(** ** C8: failures inside a discovery pass *)

Lemma forEach_skip {S A} (callback : A -> M S unit) (x : A) (before after : list A) :
  (forall s, callback x s = (s, Returns tt)) ->
  forall s, forEach callback (before ++ x :: after) s =
            forEach callback (before ++ after) s.
Proof.
  intros Hx. induction before as [|y before IH]; intros s; simpl.
  - unfold bind. now rewrite Hx.
  - unfold bind. destruct (callback y s) as [s' [[]|e]]; [apply IH|reflexivity].
Qed.


Lemma set_newlyDiscovered_same (st : state) :
  set_newlyDiscoveredImages (newlyDiscoveredImages st + 0)
    (set_newlyDiscoveredVideos (newlyDiscoveredVideos st + 0) st) = st.
Proof. destruct st. unfold set_newlyDiscoveredImages. simpl. now rewrite !Z.add_0_r. Qed.


(** *** Which failures reach the error counters *)






Lemma calm_with_locals {L A} (on : bool) (init : L) (body : M (state * L) A) :
  preserves (calm_in on) body -> preserves (calm on) (with_locals init body).
Proof.
  intros H s. unfold with_locals. specialize (H (s, init)). unfold calm_in in H.
  destruct (body (s, init)) as [[s' l] [a|e]]; exact H.
Qed.













(** ** C2: the scroll loop and its stability counter *)

Lemma afterDelay_eq (cfg : config) (ev : pass_event) (vb ib : Z) (st : state) :
  let st2 := fst (detectMedia cfg (ev_containers ev) st) in
  let y := (JsMap.size (videoCache st2) - vb) + (JsMap.size (imageCache st2) - ib) in
  let st3 := if 0 <? y
             then set_stabilityCounter 0
                    (set_lastMediaDiscoveryScroll (scrollCount st2) st2)
             else set_stabilityCounter (stabilityCounter st2 + 1) st2 in
  afterDelay cfg ev vb ib st =
  if stabilityThreshold cfg <=? stabilityCounter st3
  then (set_isScrolling false st3, Returns {| again := false; logged := Some y |})
  else (checkCacheSize cfg st3, Returns {| again := true; logged := Some y |}).
Proof.
  intros st2 y st3. unfold afterDelay, try_catch, bind.
  destruct (detectMedia_total cfg (ev_containers ev) st) as [d Hd].
  subst st3 y st2.
  destruct (detectMedia cfg (ev_containers ev) st) as [st2 r]. simpl in Hd. subst r.
  cbn [fst]. unfold get. cbn beta iota.
  destruct (0 <? _); unfold modify; cbn beta iota;
    destruct (stabilityThreshold cfg <=? _); reflexivity.
Qed.

Lemma size_app_ge (c added : cache) : JsMap.size c <= JsMap.size (c ++ added).
Proof. unfold JsMap.size. rewrite length_app. lia. Qed.

(** What the timer callback does to a state [st] whose caches had the
    sizes [vb] and [ib] when the turn began. *)
Lemma afterDelay_spec (cfg : config) (ev : pass_event) (vb ib : Z) (st : state) :
  vb = JsMap.size (videoCache st) -> ib = JsMap.size (imageCache st) ->
  exists st' y,
    afterDelay cfg ev vb ib st =
      (st', Returns {| again := negb (stabilityThreshold cfg <=? stabilityCounter st');
                        logged := Some y |}) /\
    0 <= y /\
    stabilityCounter st' = nextStability (stabilityCounter st) y /\
    isScrolling st' =
      isScrolling st && negb (stabilityThreshold cfg <=? stabilityCounter st') /\
    scrollCount st' = scrollCount st /\
    (0 < y -> lastMediaDiscoveryScroll st' = scrollCount st').
Proof.
  intros Hvb Hib. rewrite afterDelay_eq.
  pose proof (detectMedia_grows cfg (ev_containers ev) st) as G.
  set (st2 := fst (detectMedia cfg (ev_containers ev) st)) in *.
  destruct G as [_ _ Gs Gn Gc _ _ _ _ [av Hv] [ai Hi]].
  set (y := JsMap.size (videoCache st2) - vb + (JsMap.size (imageCache st2) - ib)).
  assert (Hy : 0 <= y).
  { subst y vb ib. rewrite Hv, Hi.
    pose proof (size_app_ge (videoCache st) av).
    pose proof (size_app_ge (imageCache st) ai). lia. }
  set (st3 := if 0 <? y
              then set_stabilityCounter 0
                     (set_lastMediaDiscoveryScroll (scrollCount st2) st2)
              else set_stabilityCounter (stabilityCounter st2 + 1) st2).
  assert (H3c : stabilityCounter st3 = nextStability (stabilityCounter st) y).
  { subst st3. unfold nextStability. destruct (0 <? y); simpl; congruence. }
  assert (H3s : isScrolling st3 = isScrolling st).
  { subst st3. destruct (0 <? y); simpl; congruence. }
  assert (H3n : scrollCount st3 = scrollCount st).
  { subst st3. destruct (0 <? y); simpl; congruence. }
  assert (H3l : 0 < y -> lastMediaDiscoveryScroll st3 = scrollCount st3).
  { intros Hpos. apply Z.ltb_lt in Hpos. subst st3. rewrite Hpos. reflexivity. }
  destruct (stabilityThreshold cfg <=? stabilityCounter st3) eqn:E.
  - exists (set_isScrolling false st3), y.
    change (stabilityCounter (set_isScrolling false st3)) with (stabilityCounter st3).
    change (scrollCount (set_isScrolling false st3)) with (scrollCount st3).
    change (lastMediaDiscoveryScroll (set_isScrolling false st3))
      with (lastMediaDiscoveryScroll st3).
    rewrite E. cbn [negb isScrolling set_isScrolling]. rewrite andb_false_r.
    repeat split; assumption.
  - exists (checkCacheSize cfg st3), y.
    change (stabilityCounter (checkCacheSize cfg st3)) with (stabilityCounter st3).
    change (scrollCount (checkCacheSize cfg st3)) with (scrollCount st3).
    change (lastMediaDiscoveryScroll (checkCacheSize cfg st3))
      with (lastMediaDiscoveryScroll st3).
    change (isScrolling (checkCacheSize cfg st3)) with (isScrolling st3).
    rewrite E. cbn [negb]. rewrite andb_true_r.
    repeat split; assumption.
Qed.

Lemma performScroll_eq (delay : Q) (ev : pass_event) (st : state) (l : scroll_locals) :
  performScroll delay ev (st, l) =
  match ev_scrollBy ev with
  | Returns _ =>
      ((set_scrollCount (scrollCount st + 1) st,
        {| currentDelay := delay; consecutiveErrors := 0 |}), Returns tt)
  | Raises message =>
      let st' :=
        consoleError
          ("Scroll error (attempt " ++ decimal_of (consecutiveErrors l + 1) ++ "): "
             ++ message) st in
      let l' := {| currentDelay := Qmin (currentDelay l * (3 # 2)) 10000;
                   consecutiveErrors := consecutiveErrors l + 1 |} in
      if 5 <=? consecutiveErrors l + 1
      then ((st', l'), Raises ("Multiple scroll errors: " ++ message)%string)
      else ((st', l'), Returns tt)
  end.
Proof.
  unfold performScroll, try_catch, bind, lookup.
  destruct (ev_scrollBy ev) as [[]|message]; [reflexivity|].
  unfold assign, get, lift, logError, modify.
  cbn [fst snd consecutiveErrors currentDelay].
  destruct (5 <=? consecutiveErrors l + 1); reflexivity.
Qed.

Lemma stop_request_eq (ev : pass_event) (st : state) (l : scroll_locals) :
  lift (when (ev_stop ev) (modify stop)) (st, l) =
  ((if ev_stop ev then stop st else st, l), Returns tt).
Proof. unfold lift. destruct (ev_stop ev); reflexivity. Qed.

(** One turn of the loop, whatever the environment does. *)
Lemma scrollPass_spec (cfg : config) (delay : Q) (ev : pass_event)
    (st : state) (l : scroll_locals) :
  exists st' l' t,
    scrollPass cfg delay ev (st, l) = ((st', l'), Returns t) /\
    ((logged t = None /\ again t = false /\
      stabilityCounter st' = stabilityCounter st /\ isScrolling st' = false /\
      ev_scrollBy ev <> Returns tt) \/
     (exists y,
        logged t = Some y /\ 0 <= y /\
        stabilityCounter st' = nextStability (stabilityCounter st) y /\
        again t = negb (stabilityThreshold cfg <=? stabilityCounter st') /\
        (again t = false -> isScrolling st' = false) /\
        (plain ev -> isScrolling st' = isScrolling st && again t) /\
        (plain ev -> scrollCount st' = scrollCount st + 1) /\
        (0 < y -> lastMediaDiscoveryScroll st' = scrollCount st'))).
Proof.
  assert (Hrun : forall st1 l1,
            videoCache st1 = videoCache st -> imageCache st1 = imageCache st ->
            stabilityCounter st1 = stabilityCounter st ->
            exists st' y,
              bind (S := state * scroll_locals) (lift (when (ev_stop ev) (modify stop)))
                (fun _ => lift (afterDelay cfg ev (JsMap.size (videoCache st))
                                  (JsMap.size (imageCache st)))) (st1, l1) =
              ((st', l1),
               Returns {| again := negb (stabilityThreshold cfg <=? stabilityCounter st');
                          logged := Some y |}) /\
              0 <= y /\
              stabilityCounter st' = nextStability (stabilityCounter st) y /\
              isScrolling st' =
                isScrolling (if ev_stop ev then stop st1 else st1) &&
                negb (stabilityThreshold cfg <=? stabilityCounter st') /\
              scrollCount st' = scrollCount (if ev_stop ev then stop st1 else st1) /\
              (0 < y -> lastMediaDiscoveryScroll st' = scrollCount st')).
  { intros st1 l1 Hv Hi Hc. unfold bind. rewrite stop_request_eq.
    set (stb := if ev_stop ev then stop st1 else st1).
    destruct (afterDelay_spec cfg ev (JsMap.size (videoCache st))
                (JsMap.size (imageCache st)) stb)
      as (st' & y & Heq & Hy & Hc' & Hs & Hn & Hl).
    { subst stb. rewrite <- Hv. destruct (ev_stop ev); reflexivity. }
    { subst stb. rewrite <- Hi. destruct (ev_stop ev); reflexivity. }
    exists st', y. unfold lift. cbn [fst snd]. rewrite Heq.
    repeat split; auto.
    rewrite Hc'. f_equal. rewrite <- Hc. subst stb.
    destruct (ev_stop ev); reflexivity. }
  unfold scrollPass, try_catch. unfold bind at 1. unfold get at 1.
  cbn beta iota. cbn [fst snd]. unfold bind at 1. rewrite performScroll_eq.
  destruct (ev_scrollBy ev) as [[]|message] eqn:Escroll.
  - destruct (Hrun (set_scrollCount (scrollCount st + 1) st)
                {| currentDelay := delay; consecutiveErrors := 0 |})
      as (st' & y & Heq & Hy & Hc & Hs & Hn & Hl); try reflexivity.
    rewrite Heq. do 3 eexists. split; [reflexivity|]. right.
    exists y. cbn [logged again]. repeat split; auto.
    + intros Ha. rewrite Hs, Ha. apply andb_false_r.
    + intros [_ Hstop]. rewrite Hs, Hstop. reflexivity.
    + intros [_ Hstop]. rewrite Hn, Hstop. reflexivity.
  - cbv zeta.
    set (st1 := consoleError _ st).
    destruct (5 <=? consecutiveErrors l + 1).
    + unfold lift, logError, modify, bind, ret. cbn [fst snd].
      do 3 eexists. split; [reflexivity|].
      left. do 2 (split; [reflexivity|]).
      cbn [stabilityCounter isScrolling set_isScrolling]. subst st1.
      autorewrite with logged.
      do 2 (split; [reflexivity|]). intros H; discriminate H.
    + destruct (Hrun st1
                  {| currentDelay := Qmin (currentDelay l * (3 # 2)) 10000;
                     consecutiveErrors := consecutiveErrors l + 1 |})
        as (st' & y & Heq & Hy & Hc & Hs & Hn & Hl);
        try (subst st1; autorewrite with logged; reflexivity).
      rewrite Heq. do 3 eexists. split; [reflexivity|]. right.
      exists y. cbn [logged again]. repeat split; auto.
      * intros Ha. rewrite Hs, Ha. apply andb_false_r.
      * intros [Hp _]. congruence.
      * intros [Hp _]. congruence.
Qed.

Lemma nextStability_bounds (c y : Z) :
  0 <= c -> 0 <= nextStability c y <= c + 1.
Proof. unfold nextStability. destruct (0 <? y); lia. Qed.

Lemma fold_nextStability_nonneg (ys : list Z) (c : Z) :
  0 <= c -> 0 <= fold_left nextStability ys c.
Proof.
  revert c. induction ys as [|y ys IH]; simpl; intros c Hc; [assumption|].
  apply IH. now apply nextStability_bounds.
Qed.

(** After a run of turns that found nothing the counter has grown by
    their number. *)
Lemma fold_nextStability_quiet (q : list Z) (c : Z) :
  Forall (fun y => y = 0) q ->
  fold_left nextStability q c = c + Z.of_nat (List.length q).
Proof.
  revert c. induction q as [|y q IH]; intros c Hq; simpl fold_left.
  - simpl. lia.
  - inversion Hq as [|? ? Hy Hq']; subst. rewrite IH by assumption.
    unfold nextStability. change (0 <? 0) with false. cbn iota.
    cbn [List.length]. rewrite Nat2Z.inj_succ. lia.
Qed.

(** A counter that stands at [n] has seen [n] turns in a row that found
    nothing, or it started above zero and every turn found nothing. *)
Lemma fold_nextStability_inv (ys : list Z) (c : Z) :
  0 <= c -> Forall (fun y => 0 <= y) ys ->
  let n := fold_left nextStability ys c in
  (exists pre q, ys = pre ++ q /\ Z.of_nat (List.length q) = n /\
                 Forall (fun y => y = 0) q) \/
  (Forall (fun y => y = 0) ys /\ n = c + Z.of_nat (List.length ys) /\ 0 < c).
Proof.
  intros Hc Hys. induction ys as [|y ys IH] using rev_ind; intros n.
  - subst n. simpl. destruct (Z.eq_dec c 0) as [->|Hne].
    + left. exists [], []. repeat split; constructor.
    + right. repeat split; [constructor|lia|lia].
  - apply Forall_app in Hys. destruct Hys as [Hys Hy].
    inversion Hy as [|? ? Hy0 _]; subst.
    subst n. rewrite fold_left_app. simpl fold_left.
    specialize (IH Hys). cbv zeta in IH.
    set (m := fold_left nextStability ys c) in *.
    unfold nextStability. destruct (0 <? y) eqn:E.
    + left. exists (ys ++ [y]), []. rewrite app_nil_r.
      repeat split; constructor.
    + apply Z.ltb_ge in E. assert (y = 0) by lia. subst y.
      destruct IH as [(pre & q & -> & Hlen & Hq)|(Hall & Hm & Hpos)].
      * left. exists pre, (q ++ [0]). rewrite <- app_assoc.
        repeat split.
        -- rewrite length_app. simpl. lia.
        -- apply Forall_app. split; [assumption|]. now constructor.
      * right. repeat split.
        -- apply Forall_app. split; [assumption|]. now constructor.
        -- rewrite length_app. simpl. lia.
        -- assumption.
Qed.

Lemma scrollStep_eq (cfg : config) (delay : Q) (events : list pass_event)
    (sl : state * scroll_locals) (found : list Z) :
  scrollStep cfg delay events sl found =
  match scrollGuard cfg (fst sl) with
  | Some st' => {| run_state := st'; run_status := Resolved; run_found := found |}
  | None =>
      match events with
      | [] => {| run_state := fst sl; run_status := Waiting; run_found := found |}
      | ev :: events' =>
          let r := scrollPass cfg delay ev sl in
          if calls_again (snd r)
          then scrollStep cfg delay events' (fst r) (found ++ found_of (snd r))
          else {| run_state := fst (fst r); run_status := Resolved;
                  run_found := found ++ found_of (snd r) |}
      end
  end.
Proof. destruct events; reflexivity. Qed.

(** Closes the cases in which the loop ends without a further logged
    turn. *)
Ltac empty_run :=
  exists []; rewrite app_nil_r;
  cbn [run_state run_status run_found fold_left List.length stabilityCounter
       set_isScrolling isScrolling scrollCount];
  repeat split; try constructor; try lia; try congruence; try discriminate;
  try (let k := fresh "k" in let Hk := fresh "Hk" in
       intros k Hk; now inversion Hk);
  try match goal with
      | Em : (_ <=? _) = true |- _ =>
          let Hlt := fresh "Hlt" in
          intros _ _ _ Hlt; apply Z.leb_le in Em; lia
      end.

(** The invariant of the scroll loop. *)
Lemma scrollStep_inv (cfg : config) (delay : Q) (events : list pass_event) :
  forall (st : state) (l : scroll_locals) (found : list Z),
    0 <= stabilityCounter st < stabilityThreshold cfg ->
    let r := scrollStep cfg delay events (st, l) found in
    exists ys,
      run_found r = found ++ ys /\
      Forall (fun y => 0 <= y) ys /\
      stabilityCounter (run_state r) =
        fold_left nextStability ys (stabilityCounter st) /\
      (forall k, (k < List.length ys)%nat ->
         fold_left nextStability (firstn k ys) (stabilityCounter st)
         < stabilityThreshold cfg) /\
      (run_status r = Waiting ->
         stabilityCounter (run_state r) < stabilityThreshold cfg) /\
      (run_status r = Resolved -> isScrolling (run_state r) = false) /\
      stabilityCounter (run_state r) <= stabilityThreshold cfg /\
      (Forall plain events -> isScrolling st = true ->
       run_status r = Resolved ->
       scrollCount (run_state r) < maxScrollAttempts cfg ->
       stabilityCounter (run_state r) = stabilityThreshold cfg).
Proof.
  induction events as [|ev events IH]; intros st l found Hc r; subst r;
    rewrite scrollStep_eq; cbn [fst]; unfold scrollGuard.
  - (* no turn left *)
    destruct (isScrolling st) eqn:Es; cbn [negb];
      [destruct (maxScrollAttempts cfg <=? scrollCount st) eqn:Em|];
      empty_run.
  - destruct (isScrolling st) eqn:Es; cbn [negb];
      [destruct (maxScrollAttempts cfg <=? scrollCount st) eqn:Em|];
      [empty_run| |empty_run].
    (* a turn *)
    destruct (scrollPass_spec cfg delay ev st l) as (st' & l' & t & Heq & Hcase).
    cbv zeta. rewrite Heq. cbn [fst snd calls_again].
    destruct Hcase as [(Hlog & Hag & Hsc & Hs' & Hfail)
                      |(y & Hlog & Hy & Hsc & Hag & Hstop & Hplain & Hcount & _)].
    + (* the scroll failed for the fifth time *)
      rewrite Hag.
      destruct t as [ag lg]. cbn [logged again] in *. subst ag lg.
      cbn [found_of]. empty_run.
      intros Hp. inversion Hp as [|? ? [Hp1 _] _]; subst. contradiction.
    + destruct t as [ag lg]. cbn [logged again] in *. subst lg.
      assert (Hb := nextStability_bounds (stabilityCounter st) y (proj1 Hc)).
      destruct ag.
      * (* the loop goes on *)
        symmetry in Hag. rewrite negb_true_iff, Z.leb_gt in Hag.
        destruct (IH st' l' (found ++ [y])) as (ys & Hf & Hnn & Hfold & Hpre
                                                 & Hw & Hr & Hle & Hpl).
        { lia. }
        cbn [found_of]. exists (y :: ys).
        rewrite Hf, <- app_assoc. cbn [app fold_left]. rewrite <- Hsc.
        repeat split; auto.
        -- intros [|k] Hk; cbn [firstn fold_left]; [lia|].
           rewrite <- Hsc. apply Hpre. simpl in Hk. lia.
        -- intros Hp Hscr. inversion Hp as [|? ? Hp1 Hp2]; subst.
           apply Hpl; [assumption|]. rewrite (Hplain Hp1), Es. reflexivity.
      * (* the counter has reached the threshold *)
        symmetry in Hag. rewrite negb_false_iff, Z.leb_le in Hag.
        cbn [found_of run_state run_status run_found]. exists [y].
        cbn [fold_left List.length]. rewrite <- Hsc.
        repeat split; auto; try lia; try discriminate.
        intros [|k] Hk; cbn [firstn fold_left]; [lia|]. simpl in Hk. lia.
Qed.

(** C2. In a run of the scroll loop, as soon as [stabilityThreshold]
    turns in a row have found nothing the loop is resolved, with
    [isScrolling] off and the counter equal to the threshold; no turn runs
    after such a streak, and a loop whose page scrolls, which is not
    stopped and has not reached its ceiling of attempts ends only on such a
    streak, so never earlier.  A turn that finds something leaves the
    counter at 0. *)
Theorem C2_stability_termination (cfg : config) (delay : Q)
    (events : list pass_event) (st : state) :
  1 <= stabilityThreshold cfg ->
  let r := infiniteScroll cfg delay events st in
  (forall pre q,
      run_found r = pre ++ q ->
      Z.of_nat (List.length q) = stabilityThreshold cfg ->
      Forall (fun y => y = 0) q ->
      run_status r = Resolved /\
      isScrolling (run_state r) = false /\
      stabilityCounter (run_state r) = stabilityThreshold cfg) /\
  (forall pre q rest,
      run_found r = pre ++ q ++ rest ->
      Z.of_nat (List.length q) = stabilityThreshold cfg ->
      Forall (fun y => y = 0) q ->
      rest = []) /\
  (Forall plain events ->
   run_status r = Resolved ->
   scrollCount (run_state r) < maxScrollAttempts cfg ->
   exists pre q,
     run_found r = pre ++ q /\
     Z.of_nat (List.length q) = stabilityThreshold cfg /\
     Forall (fun y => y = 0) q) /\
  (forall pre y,
      run_found r = pre ++ [y] -> 0 < y -> stabilityCounter (run_state r) = 0) /\
  (forall ev sl sl' t y,
      scrollPass cfg delay ev sl = (sl', Returns t) ->
      logged t = Some y -> 0 < y ->
      stabilityCounter (fst sl') = 0 /\
      lastMediaDiscoveryScroll (fst sl') = scrollCount (fst sl')).
Proof.
  intros HT r. subst r. unfold infiniteScroll.
  set (st0 := set_stabilityCounter 0 (set_scrollCount 0 (set_isScrolling true st))).
  set (l0 := {| currentDelay := delay; consecutiveErrors := 0 |}).
  destruct (scrollStep_inv cfg delay events st0 l0 [])
    as (ys & Hf & Hnn & Hfold & Hpre & Hw & Hr & Hle & Hpl).
  { subst st0. simpl. lia. }
  set (r := scrollStep cfg delay events (st0, l0) []) in *.
  change (stabilityCounter st0) with 0 in *. cbn [app] in Hf.
  split; [|split; [|split; [|split]]].
  - intros pre q Hrun Hlen Hq. rewrite Hf in Hrun. rewrite Hrun in Hfold.
    rewrite fold_left_app, fold_nextStability_quiet in Hfold by assumption.
    pose proof (fold_nextStability_nonneg pre 0 (Z.le_refl 0)).
    assert (Hc : stabilityCounter (run_state r) = stabilityThreshold cfg) by lia.
    destruct (run_status r) eqn:Est.
    + specialize (Hw eq_refl). lia.
    + auto.
  - intros pre q rest Hrun Hlen Hq. rewrite Hf in Hrun. rewrite Hrun in Hpre.
    destruct rest as [|y rest]; [reflexivity|exfalso].
    specialize (Hpre (List.length (pre ++ q))).
    rewrite app_assoc, firstn_app, firstn_all, Nat.sub_diag in Hpre.
    cbn [firstn] in Hpre. rewrite app_nil_r in Hpre.
    rewrite fold_left_app, fold_nextStability_quiet in Hpre by assumption.
    pose proof (fold_nextStability_nonneg pre 0 (Z.le_refl 0)).
    assert ((List.length (pre ++ q) < List.length ((pre ++ q) ++ y :: rest))%nat).
    { rewrite (length_app (pre ++ q)). simpl. lia. }
    specialize (Hpre H0). lia.
  - intros Hplain Hres Hceil.
    specialize (Hpl Hplain eq_refl Hres Hceil).
    destruct (fold_nextStability_inv ys 0 (Z.le_refl 0) Hnn)
      as [(pre & q & Hys & Hlen & Hq)|(_ & _ & Hpos)]; [|lia].
    exists pre, q. rewrite Hf. repeat split; auto. lia.
  - intros pre y Hrun Hy. rewrite Hf in Hrun. rewrite Hrun in Hfold.
    rewrite Hfold, fold_left_app. simpl. unfold nextStability.
    apply Z.ltb_lt in Hy. now rewrite Hy.
  - intros ev [s l] sl' t y Heq Hlog Hy.
    destruct (scrollPass_spec cfg delay ev s l) as (st' & l' & t' & Heq' & Hcase).
    rewrite Heq in Heq'. inversion Heq'; subst. cbn [fst].
    destruct Hcase as [(Hnone & _)|(y' & Hlog' & _ & Hsc & _ & _ & _ & _ & Hlast)].
    + congruence.
    + assert (y' = y) by congruence. subst y'. split; [|auto].
      rewrite Hsc. unfold nextStability. apply Z.ltb_lt in Hy. now rewrite Hy.
Qed.

Lemma C2_witness :
  let r := infiniteScroll short_config (11 # 2) sample_events initial_state in
  run_found r = [2; 0; 0] /\
  run_status r = Resolved /\
  isScrolling (run_state r) = false /\
  stabilityCounter (run_state r) = stabilityThreshold short_config.
Proof.
  cbv zeta. split; [vm_compute; reflexivity|].
  apply (proj1 (C2_stability_termination short_config (11 # 2) sample_events
                  initial_state ltac:(vm_compute; discriminate)) [2] [0; 0]).
  - vm_compute. reflexivity.
  - reflexivity.
  - repeat constructor.
Defined.

(** ** Import and export *)

Lemma importJsonData_malformed (p : import_data) (replace : bool)
    (clock : nat -> Z) (st : state) :
  videos p = None \/ images p = None ->
  importJsonData (Returns p) replace clock st =
  (st, Raises "Invalid JSON format. Missing videos or images data.").
Proof.
  intros H.
  assert (Hlog : consoleError
                   "Error importing JSON: Invalid JSON format. Missing videos or images data."
                   st = st).
  { apply consoleError_quiet. apply andb_false_r. }
  unfold importJsonData, try_catch, bind, lookup, logError, modify, throw.
  destruct (videos p) as [vs|], (images p) as [is_|];
    try (cbn [fst snd append]; now rewrite Hlog). destruct H; discriminate.
Qed.

(** C4. A payload whose [videos] or [images] sequence is missing makes
    [importJsonData] fail as a whole, in Merge and in Replace mode alike:
    the call is rejected with the message naming the missing data and the
    state, so both caches and every counter, is the one before the call.
    Input that cannot be read or parsed is rejected with the message of
    the failure; the log of that failure goes through [console.error], so
    the state is the one before the call unless the wrapper is installed
    and the message holds an ignored pattern, which is then counted. *)
Theorem C4_malformed_import_atomic (replace : bool) (clock : nat -> Z) (st : state) :
  (forall p : import_data,
      videos p = None \/ images p = None ->
      importJsonData (Returns p) replace clock st =
      (st, Raises "Invalid JSON format. Missing videos or images data.")) /\
  (forall message : string,
      importJsonData (Raises message) replace clock st =
      (consoleError ("Error importing JSON: " ++ message) st, Raises message) /\
      (pwaIntercepted st && shouldIgnoreError ("Error importing JSON: " ++ message)
         = false ->
       importJsonData (Raises message) replace clock st = (st, Raises message))).
Proof.
  split.
  - intros p H. now apply importJsonData_malformed.
  - intros message. split; [reflexivity|]. intros Hq.
    rewrite <- (consoleError_quiet _ st Hq) at 2. reflexivity.
Qed.

Lemma C4_witness :
  importJsonData (Returns broken_payload) false sample_clock initial_state =
  (initial_state, Raises "Invalid JSON format. Missing videos or images data.").
Proof.
  apply (proj1 (C4_malformed_import_atomic false sample_clock initial_state)
           broken_payload).
  right. reflexivity.
Defined.

(** C3 fails on the import path: a Merge import of two records that share
    their URL and differ in their id stores both of them. *)
Theorem C3_merge_import_keeps_both :
  let st' := fst (importJsonData (Returns twin_payload) false sample_clock
                    initial_state) in
  url twin_a = url twin_b /\ id twin_a <> id twin_b /\
  JsMap.values (videoCache st') = [twin_a; twin_b].
Proof.
  cbv zeta. split; [reflexivity|]. split; [discriminate|].
  vm_compute. reflexivity.
Qed.

Lemma in_keys_set (k k' : jsstr) (v : media) (c : cache) :
  In k' (JsMap.keys (JsMap.set k v c)) <-> In k' (JsMap.keys c) \/ k' = k.
Proof.
  rewrite keys_set. destruct (JsMap.has k c) eqn:E.
  - apply has_true_iff in E. split; [auto|]. intros [H| ->]; assumption.
  - rewrite in_app_iff. simpl. split; intros [H|H]; auto.
    + destruct H as [H|[]]; auto.
Qed.

Lemma keyed_set (k : jsstr) (v : media) (c : cache) :
  keyed c -> id v = k -> keyed (JsMap.set k v c).
Proof.
  unfold keyed. intros Hc Hv. induction c as [|[k' v'] c IH]; simpl.
  - constructor; [assumption|constructor].
  - inversion Hc as [|? ? Hhead Htail]; subst.
    destruct (strict_eq k' (id v)) eqn:E.
    + apply strict_eq_true in E. constructor; [simpl; congruence|assumption].
    + constructor; [assumption|]. now apply IH.
Qed.

Lemma keyed_values (c : cache) : keyed c -> map id (JsMap.values c) = JsMap.keys c.
Proof.
  unfold keyed, JsMap.values, JsMap.keys. induction 1 as [|[k v] c Hk _ IH]; simpl.
  - reflexivity.
  - simpl in Hk. now rewrite Hk, IH.
Qed.

Lemma importItem_keyed (replace : bool) (now : Z) (item : media) (l : import_loop) :
  keyed (l_cache l) -> keyed (l_cache (importItem replace now item l)).
Proof.
  intros H. unfold importItem.
  destruct (negb replace && JsMap.has (id (ensureId now item)) (l_cache l));
    simpl; [assumption|]. now apply keyed_set.
Qed.

Lemma importItems_keyed (replace : bool) (clock : nat -> Z) (items : list media) :
  forall (i : nat) (l : import_loop),
    keyed (l_cache l) -> keyed (l_cache (importItems replace clock i items l)).
Proof.
  induction items as [|item items IH]; intros i l H; simpl; [assumption|].
  apply IH. now apply importItem_keyed.
Qed.

Lemma importItems_items (replace : bool) (clock : nat -> Z) (items : list media) :
  forall (i : nat) (l : import_loop),
    l_items (importItems replace clock i items l) =
    l_items l ++ assignIds clock i items.
Proof.
  induction items as [|item items IH]; intros i l; simpl.
  - now rewrite app_nil_r.
  - rewrite IH. unfold importItem.
    destruct (negb replace && JsMap.has (id (ensureId (clock i) item)) (l_cache l));
      simpl; now rewrite <- app_assoc.
Qed.

(** In Replace mode the keys after a loop are the keys before it and the
    ids of the items. *)
Lemma importItems_replace_keys (clock : nat -> Z) (items : list media) :
  forall (i : nat) (l : import_loop) (k : jsstr),
    In k (JsMap.keys (l_cache (importItems true clock i items l))) <->
    In k (JsMap.keys (l_cache l)) \/ In k (map id (assignIds clock i items)).
Proof.
  induction items as [|item items IH]; intros i l k; simpl.
  - tauto.
  - rewrite IH. unfold importItem. simpl. rewrite in_keys_set.
    split; intros H; intuition auto.
Qed.

Lemma importJsonData_replace_eq (p : import_data) (vs is_ : list media)
    (clock : nat -> Z) (st : state) :
  videos p = Some vs -> images p = Some is_ ->
  exists st' res,
    importJsonData (Returns p) true clock st =
      (st', Returns (res, {| videos := Some (assignIds clock 0 vs);
                             images := Some (assignIds clock (List.length vs) is_);
                             stats := stats p |})) /\
    videoCache st' = l_cache (importItems true clock 0 vs (loop_from JsMap.empty)) /\
    imageCache st' =
      l_cache (importItems true clock (List.length vs) is_ (loop_from JsMap.empty)).
Proof.
  intros Hv Hi. unfold importJsonData, try_catch, bind, lookup. rewrite Hv, Hi.
  cbn [when negb]. unfold modify, get, ret. cbn beta iota.
  cbn [videoCache imageCache set_imageCache set_videoCache].
  rewrite !importItems_items. cbn [l_items app].
  destruct (stats p) as [s|]; cbn beta iota; do 2 eexists;
    (split; [reflexivity|split; reflexivity]).
Qed.

Lemma truthy_generated (a b : jsstr) (now : Z) :
  truthy (JStr (generateUniqueId a b now)) = true.
Proof. reflexivity. Qed.

Lemma ensureId_identified (now : Z) (item : media) :
  identified now item (ensureId now item).
Proof.
  unfold identified, ensureId. destruct (truthy (id item)) eqn:E; cbn [negb].
  - split; [exact E|]. split; [reflexivity|discriminate].
  - split; [reflexivity|]. split; [discriminate|reflexivity].
Qed.

Lemma assignIds_identified (clock : nat -> Z) (items : list media) :
  forall i : nat, all_identified clock i items (assignIds clock i items).
Proof.
  induction items as [|item items IH]; intros i; split.
  - reflexivity.
  - intros [|n] x H; discriminate H.
  - simpl. f_equal. apply IH.
  - intros [|n] x H; simpl in H.
    + injection H as <-. exists (ensureId (clock i) item). split; [reflexivity|].
      rewrite Nat.add_0_r. apply ensureId_identified.
    + destruct (proj2 (IH (S i)) n x H) as (x' & Hx' & Hid).
      exists x'. split; [exact Hx'|].
      now replace (i + S n)%nat with (S i + n)%nat by lia.
Qed.

Lemma assignIds_truthy (clock : nat -> Z) (items : list media) :
  forall (i : nat) (k : jsstr),
    In k (map id (assignIds clock i items)) -> truthy k = true.
Proof.
  induction items as [|item items IH]; intros i k; simpl; [tauto|].
  intros [<-|H]; [|now apply (IH (S i))].
  apply ensureId_identified.
Qed.

(** C6. A Replace import followed by an export gives back the payload up
    to ids: the ids of the exported videos are those of the payload's
    videos, and likewise for images, an item that came without id counting
    with the id the import gave it.  Every item that came without id has
    received one, made from its URLs at the clock reading of its turn, an
    item that came with an id has kept it, and every exported record has
    an id.  The caches before the import leave no trace in the export. *)
Theorem C6_replace_import_then_export (p : import_data) (vs is_ : list media)
    (clock : nat -> Z) (st : state) :
  videos p = Some vs -> images p = Some is_ ->
  exists st' res vs' is',
    importJsonData (Returns p) true clock st =
      (st', Returns (res, {| videos := Some vs'; images := Some is';
                             stats := stats p |})) /\
    all_identified clock 0 vs vs' /\
    all_identified clock (List.length vs) is_ is' /\
    (forall k, In k (map id (x_videos (exportDataAsJson st'))) <->
               In k (map id vs')) /\
    (forall k, In k (map id (x_images (exportDataAsJson st'))) <->
               In k (map id is')) /\
    Forall (fun r => truthy (id r) = true) (x_videos (exportDataAsJson st')) /\
    Forall (fun r => truthy (id r) = true) (x_images (exportDataAsJson st')) /\
    (forall st2,
        x_videos (exportDataAsJson
                    (fst (importJsonData (Returns p) true clock st2))) =
        x_videos (exportDataAsJson st') /\
        x_images (exportDataAsJson
                    (fst (importJsonData (Returns p) true clock st2))) =
        x_images (exportDataAsJson st')).
Proof.
  intros Hv Hi.
  destruct (importJsonData_replace_eq p vs is_ clock st Hv Hi)
    as (st' & res & Heq & Hvc & Hic).
  exists st', res, (assignIds clock 0 vs), (assignIds clock (List.length vs) is_).
  split; [exact Heq|].
  split; [apply assignIds_identified|]. split; [apply assignIds_identified|].
  assert (Hk : keyed (@JsMap.empty media)) by constructor.
  assert (Hvk : forall k, In k (map id (x_videos (exportDataAsJson st'))) <->
                          In k (map id (assignIds clock 0 vs))).
  { intros k. cbn [exportDataAsJson x_videos]. rewrite Hvc.
    rewrite keyed_values by (apply importItems_keyed; exact Hk).
    rewrite importItems_replace_keys. simpl. tauto. }
  assert (Hik : forall k, In k (map id (x_images (exportDataAsJson st'))) <->
                          In k (map id (assignIds clock (List.length vs) is_))).
  { intros k. cbn [exportDataAsJson x_images]. rewrite Hic.
    rewrite keyed_values by (apply importItems_keyed; exact Hk).
    rewrite importItems_replace_keys. simpl. tauto. }
  split; [exact Hvk|]. split; [exact Hik|].
  split; [|split].
  - apply Forall_forall. intros r Hr.
    apply (assignIds_truthy clock vs 0). apply Hvk. now apply in_map.
  - apply Forall_forall. intros r Hr.
    apply (assignIds_truthy clock is_ (List.length vs)). apply Hik. now apply in_map.
  - intros st2.
    destruct (importJsonData_replace_eq p vs is_ clock st2 Hv Hi)
      as (st2' & res2 & Heq2 & Hvc2 & Hic2).
    rewrite Heq2. cbn [fst exportDataAsJson x_videos x_images].
    now rewrite Hvc, Hic, Hvc2, Hic2.
Qed.

Lemma C6_witness :
  exists st' res vs' is',
    importJsonData (Returns nameless_payload) true sample_clock
      (fst (extractVideoData (Returns (Some sample_video)) initial_state)) =
      (st', Returns (res, {| videos := Some vs'; images := Some is';
                             stats := None |})) /\
    all_identified sample_clock 0 [nameless_a; nameless_b] vs' /\
    (forall k, In k (map id (x_videos (exportDataAsJson st'))) <-> In k (map id vs')) /\
    Forall (fun r => truthy (id r) = true) (x_videos (exportDataAsJson st')) /\
    List.length (x_videos (exportDataAsJson st')) = 2%nat.
Proof.
  destruct (C6_replace_import_then_export nameless_payload
              [nameless_a; nameless_b] [] sample_clock
              (fst (extractVideoData (Returns (Some sample_video)) initial_state))
              eq_refl eq_refl)
    as (st' & res & vs' & is' & Heq & Hvs & _ & Hvideos & _ & Hids & _ & _).
  exists st', res, vs', is'. split; [exact Heq|]. split; [exact Hvs|].
  split; [exact Hvideos|]. split; [exact Hids|].
  apply (f_equal fst) in Heq. cbn [fst] in Heq. rewrite <- Heq.
  vm_compute. reflexivity.
Defined.
(** ** Eviction *)

Lemma positive_iff (q : Q) : positive (JNum q) = true <-> (0 < q)%Q.
Proof.
  unfold positive. rewrite negb_true_iff. split.
  - intros H. apply Qnot_le_lt. intros Hle. apply Qle_bool_iff in Hle. congruence.
  - intros H. destruct (Qle_bool q 0) eqn:E; [|reflexivity].
    apply Qle_bool_iff in E. exfalso. apply (Qlt_not_le _ _ H E).
Qed.

Section Permuting.
Context {A : Type} (compare : A -> A -> jsnum).

Lemma sort_insert_perm (x : A) (l : list A) :
  Permutation (sort_insert compare x l) (x :: l).
Proof.
  induction l as [|y l IH]; simpl; [reflexivity|].
  destruct (positive (compare x y)); [|reflexivity].
  rewrite IH. apply perm_swap.
Qed.

Lemma array_sort_perm (l : list A) : Permutation (array_sort compare l) l.
Proof.
  induction l as [|x l IH]; simpl; [reflexivity|].
  rewrite sort_insert_perm. now constructor.
Qed.

End Permuting.

(** The sort reads its comparator on the elements of the array only. *)
Lemma sort_insert_ext {A} (compare compare' : A -> A -> jsnum) (x : A) (l : list A) :
  (forall y, In y l -> compare x y = compare' x y) ->
  sort_insert compare x l = sort_insert compare' x l.
Proof.
  induction l as [|y l IH]; intros H; simpl; [reflexivity|].
  rewrite (H y) by now left.
  destruct (positive (compare' x y)); [|reflexivity].
  f_equal. apply IH. intros z Hz. apply H. now right.
Qed.

Lemma array_sort_ext {A} (compare compare' : A -> A -> jsnum) (l : list A) :
  (forall x y, In x l -> In y l -> compare x y = compare' x y) ->
  array_sort compare l = array_sort compare' l.
Proof.
  induction l as [|x l IH]; intros H; simpl; [reflexivity|].
  rewrite IH by (intros a b Ha Hb; apply H; now right).
  apply sort_insert_ext. intros y Hy. apply H; [now left|]. right.
  now apply (Permutation_in _ (array_sort_perm compare' l)).
Qed.

Section Sorting.
Context {A : Type} (key : A -> Q) (compare : A -> A -> jsnum).
Hypothesis compare_key :
  forall x y, positive (compare x y) = true <-> (key x < key y)%Q.

Lemma sort_insert_descending (x : A) (l : list A) :
  descending key l -> descending key (sort_insert compare x l).
Proof.
  induction 1 as [|y l Hl IH Hy]; simpl.
  - constructor; constructor.
  - destruct (positive (compare x y)) eqn:E.
    + apply compare_key in E. constructor; [assumption|].
      rewrite Forall_forall. intros b Hb.
      apply (Permutation_in _ (sort_insert_perm compare x l)) in Hb.
      destruct Hb as [<-|Hb]; [now apply Qlt_le_weak|].
      rewrite Forall_forall in Hy. now apply Hy.
    + assert (Hle : (key y <= key x)%Q).
      { apply Qnot_lt_le. intros Hlt. apply compare_key in Hlt. congruence. }
      constructor; [now constructor|].
      constructor; [assumption|].
      rewrite Forall_forall in Hy |- *. intros b Hb.
      apply Qle_trans with (key y); auto.
Qed.

Lemma array_sort_descending (l : list A) : descending key (array_sort compare l).
Proof.
  induction l as [|x l IH]; simpl; [constructor|].
  now apply sort_insert_descending.
Qed.

Lemma descending_split (n : nat) (l : list A) :
  descending key l ->
  forall k e, In k (firstn n l) -> In e (skipn n l) -> (key e <= key k)%Q.
Proof.
  intros Hl. revert n. induction Hl as [|x l Hl IH Hx]; intros n k e Hk He.
  - destruct n; simpl in Hk; contradiction.
  - destruct n as [|n]; simpl in Hk, He; [contradiction|].
    destruct Hk as [<-|Hk].
    + rewrite Forall_forall in Hx. apply Hx.
      rewrite <- (firstn_skipn n l). apply in_or_app. now right.
    + now apply (IH n).
Qed.

End Sorting.

Lemma byRank_key (field : media -> numfield) (x y : jsstr * media) :
  positive (byRank field x y) = true <->
  (rank_by field (snd x) < rank_by field (snd y))%Q.
Proof.
  unfold byRank. rewrite positive_iff. symmetry. apply Qlt_minus_iff.
Qed.

(** On records whose durations are finite numbers the comparator of the
    video cache is the difference of the two durations, and likewise for
    the image cache and the discovery passes. *)
Lemma byDuration_timed (x y : jsstr * media) :
  timed (snd x) -> timed (snd y) -> byDuration x y = byRank durationSeconds x y.
Proof.
  unfold timed, numbered, byDuration, byRank, rank_by. intros [qx Hx] [qy Hy].
  now rewrite Hx, Hy.
Qed.

Lemma byDiscovery_staged (x y : jsstr * media) :
  staged (snd x) -> staged (snd y) -> byDiscovery x y = byRank discoveredAtScroll x y.
Proof.
  unfold staged, numbered, byDiscovery, byRank, rank_by. intros [qx Hx] [qy Hy].
  now rewrite Hx, Hy.
Qed.

Lemma NoDup_firstn {A} (n : nat) (l : list A) : NoDup l -> NoDup (firstn n l).
Proof.
  intros H. rewrite <- (firstn_skipn n l) in H. now apply NoDup_app_remove_r in H.
Qed.

Lemma slice0_firstn {A} (n : Z) (l : list A) :
  0 <= n <= Z.of_nat (List.length l) -> slice0 n l = firstn (Z.to_nat n) l.
Proof.
  intros H. unfold slice0. destruct (n <? 0) eqn:E; [apply Z.ltb_lt in E; lia|].
  now rewrite Z.min_l by lia.
Qed.

(** The size of a rebuilt cache, whatever the comparator. *)
Lemma trimCache_size (compare : jsstr * media -> jsstr * media -> jsnum)
    (maxSize : Z) (c : cache) :
  JsMap.wf c -> 0 <= maxSize ->
  JsMap.size (trimCache compare maxSize c) = Z.min (JsMap.size c) maxSize /\
  (JsMap.size c <= maxSize -> trimCache compare maxSize c = c).
Proof.
  intros Hwf Hmax. unfold trimCache.
  destruct (maxSize <? JsMap.size c) eqn:E.
  - apply Z.ltb_lt in E. unfold JsMap.entries.
    set (sorted := array_sort compare c).
    assert (Hperm : Permutation sorted c) by apply array_sort_perm.
    assert (Hlen : List.length sorted = List.length c)
      by now apply Permutation_length.
    assert (Hslice : slice0 maxSize sorted = firstn (Z.to_nat maxSize) sorted).
    { apply slice0_firstn. rewrite Hlen. unfold JsMap.size in E. lia. }
    assert (Hnd : NoDup (map fst (firstn (Z.to_nat maxSize) sorted))).
    { rewrite <- firstn_map. apply NoDup_firstn.
      apply (Permutation_NoDup (l := map fst c)); [|exact Hwf].
      apply Permutation_map. now symmetry. }
    rewrite Hslice, of_entries_nodup by assumption.
    assert (Hsize : JsMap.size (firstn (Z.to_nat maxSize) sorted) = maxSize).
    { unfold JsMap.size in *. rewrite length_firstn, Hlen. lia. }
    split; lia.
  - apply Z.ltb_ge in E. split; [lia|reflexivity].
Qed.

(** What the rebuild of one cache does when its comparator is the
    difference of two ranks. *)
Lemma trimCache_spec (rank : media -> Q)
    (compare : jsstr * media -> jsstr * media -> jsnum) (maxSize : Z) (c : cache) :
  (forall x y, positive (compare x y) = true <-> (rank (snd x) < rank (snd y))%Q) ->
  JsMap.wf c -> 0 <= maxSize ->
  JsMap.size (trimCache compare maxSize c) = Z.min (JsMap.size c) maxSize /\
  (JsMap.size c <= maxSize -> trimCache compare maxSize c = c) /\
  (maxSize < JsMap.size c -> top_ranked rank maxSize c (trimCache compare maxSize c)).
Proof.
  intros Hcmp Hwf Hmax.
  destruct (trimCache_size compare maxSize c Hwf Hmax) as [Hsz Hsame].
  split; [exact Hsz|]. split; [exact Hsame|].
  intros E. split; [lia|]. unfold trimCache in *.
  apply Z.ltb_lt in E. rewrite E. apply Z.ltb_lt in E. unfold JsMap.entries.
  set (sorted := array_sort compare c).
  assert (Hperm : Permutation sorted c) by apply array_sort_perm.
  assert (Hlen : List.length sorted = List.length c)
    by now apply Permutation_length.
  assert (Hslice : slice0 maxSize sorted = firstn (Z.to_nat maxSize) sorted).
  { apply slice0_firstn. rewrite Hlen. unfold JsMap.size in E. lia. }
  assert (Hnd : NoDup (map fst (firstn (Z.to_nat maxSize) sorted))).
  { rewrite <- firstn_map. apply NoDup_firstn.
    apply (Permutation_NoDup (l := map fst c)); [|exact Hwf].
    apply Permutation_map. now symmetry. }
  rewrite Hslice, of_entries_nodup by assumption.
  exists (skipn (Z.to_nat maxSize) sorted). split.
  - rewrite firstn_skipn. now symmetry.
  - intros k e Hk He.
    apply (descending_split (fun x => rank (snd x)) (Z.to_nat maxSize) sorted);
      [|assumption|assumption].
    now apply (array_sort_descending (fun x => rank (snd x)) compare).
Qed.

(** On a cache whose ranks are finite numbers the rebuild goes by the
    difference of the ranks. *)
Lemma trimCache_ranked (field : media -> numfield)
    (compare : jsstr * media -> jsstr * media -> jsnum) (maxSize : Z) (c : cache) :
  (forall x y, numbered field (snd x) -> numbered field (snd y) ->
               compare x y = byRank field x y) ->
  Forall (numbered field) (JsMap.values c) ->
  trimCache compare maxSize c = trimCache (byRank field) maxSize c.
Proof.
  intros Hc Ht. unfold trimCache. destruct (maxSize <? JsMap.size c); [|reflexivity].
  unfold JsMap.entries. rewrite (array_sort_ext compare (byRank field)); [reflexivity|].
  intros x y Hx Hy. rewrite Forall_forall in Ht.
  apply Hc; apply Ht; unfold JsMap.values; now apply in_map.
Qed.

(** C5 fails on the video cache when a duration is NaN, which
    [extractVideoData] stores when the time label it falls back on has a
    colon and a part without digits.  Two tweets, the first with such a
    label and the second with a video of 30 seconds, and room for one: the
    record of unknown duration is kept and the one of 30 seconds is
    evicted.  Four tweets, of 10 seconds, unknown, 30 and 20 seconds, and
    room for two: the records of 10 seconds and of unknown duration are
    kept, those of 30 and 20 seconds are evicted. *)
Theorem C5_unknown_duration_evicts_longer :
  let two := presentVideos [video_unknown; video_30s] initial_state in
  let four :=
    presentVideos [video_10s; video_unknown; video_30s; video_20s] initial_state in
  convertDurationToSeconds (JStr "--:--") = JNaN /\
  map durationSeconds (JsMap.values (videoCache two)) =
    [Present JNaN; Present (JNum 30)] /\
  map durationSeconds (JsMap.values (videoCache (checkCacheSize one_config two))) =
    [Present JNaN] /\
  map durationSeconds (JsMap.values (videoCache four)) =
    [Present (JNum 10); Present JNaN; Present (JNum 30); Present (JNum 20)] /\
  map durationSeconds (JsMap.values (videoCache (checkCacheSize two_config four))) =
    [Present (JNum 10); Present JNaN].
Proof.
  cbv zeta. repeat split; vm_compute; reflexivity.
Qed.

(** With caches of distinct keys and a capacity of at least zero the
    eviction step leaves each cache with [min(size, maxCacheSize)] entries,
    and a cache within capacity is not touched.  A cache over capacity
    whose ranks are finite numbers keeps [maxCacheSize] entries that no
    evicted entry outranks, the rank being [durationSeconds] for videos and
    [discoveredAtScroll] for images. *)
Theorem eviction_keeps_top (cfg : config) (st : state) :
  JsMap.wf (videoCache st) -> JsMap.wf (imageCache st) -> 0 <= maxCacheSize cfg ->
  let st' := checkCacheSize cfg st in
  (JsMap.size (videoCache st') = Z.min (JsMap.size (videoCache st)) (maxCacheSize cfg) /\
   JsMap.size (imageCache st') = Z.min (JsMap.size (imageCache st)) (maxCacheSize cfg)) /\
  (Forall timed (JsMap.values (videoCache st)) ->
   maxCacheSize cfg < JsMap.size (videoCache st) ->
   top_ranked seconds (maxCacheSize cfg) (videoCache st) (videoCache st')) /\
  (Forall staged (JsMap.values (imageCache st)) ->
   maxCacheSize cfg < JsMap.size (imageCache st) ->
   top_ranked discoveryRank (maxCacheSize cfg) (imageCache st) (imageCache st')) /\
  (JsMap.size (videoCache st) <= maxCacheSize cfg -> videoCache st' = videoCache st) /\
  (JsMap.size (imageCache st) <= maxCacheSize cfg -> imageCache st' = imageCache st).
Proof.
  intros Hv Hi Hmax st'. subst st'. unfold checkCacheSize.
  cbn [videoCache imageCache set_videoCache set_imageCache].
  destruct (trimCache_size byDuration (maxCacheSize cfg) (videoCache st) Hv Hmax)
    as (V1 & V2).
  destruct (trimCache_size byDiscovery (maxCacheSize cfg) (imageCache st) Hi Hmax)
    as (I1 & I2).
  split; [split; assumption|]. split; [|split; [|split; assumption]].
  - intros Ht Hover.
    rewrite (trimCache_ranked durationSeconds) by (exact byDuration_timed || exact Ht).
    now apply (trimCache_spec seconds (byRank durationSeconds) (maxCacheSize cfg)
                 (videoCache st) (byRank_key durationSeconds) Hv Hmax).
  - intros Ht Hover.
    rewrite (trimCache_ranked discoveredAtScroll)
      by (exact byDiscovery_staged || exact Ht).
    now apply (trimCache_spec discoveryRank (byRank discoveredAtScroll)
                 (maxCacheSize cfg) (imageCache st) (byRank_key discoveredAtScroll)
                 Hi Hmax).
Qed.

Lemma eviction_keeps_top_witness :
  JsMap.keys (videoCache (checkCacheSize two_config full_state)) = [JStr "b"; JStr "c"] /\
  JsMap.keys (imageCache (checkCacheSize two_config full_state)) = [JStr "c"; JStr "b"] /\
  top_ranked seconds 2 three_clips
    (videoCache (checkCacheSize two_config full_state)) /\
  top_ranked discoveryRank 2 three_clips
    (imageCache (checkCacheSize two_config full_state)).
Proof.
  split; [vm_compute; reflexivity|]. split; [vm_compute; reflexivity|].
  assert (Hwf : JsMap.wf three_clips).
  { unfold JsMap.wf. vm_compute.
    repeat constructor; simpl; intuition discriminate. }
  pose proof (eviction_keeps_top two_config full_state Hwf Hwf
                ltac:(vm_compute; discriminate)) as (_ & Hv & Hi & _).
  split.
  - apply Hv.
    + repeat constructor; eexists; reflexivity.
    + vm_compute. reflexivity.
  - apply Hi.
    + repeat constructor; eexists; reflexivity.
    + vm_compute. reflexivity.
Defined.

(** ** Stop and start *)

(** C7 as stated fails: the run that follows a stop begins with both
    counters at 0, whatever they were when the session was paused. *)
Lemma C7_counters_reset :
  let resumed := start default_config (session []) paused_state in
  isAnalyzing paused_state = false /\
  scrollCount paused_state = 3 /\
  stabilityCounter paused_state = 3 /\
  snd resumed = Waiting /\
  isScrolling (fst resumed) = true /\
  ~ (scrollCount (fst resumed) = scrollCount paused_state /\
     stabilityCounter (fst resumed) = stabilityCounter paused_state /\
     videoCache (fst resumed) = videoCache paused_state /\
     imageCache (fst resumed) = imageCache paused_state).
Proof.
  cbv zeta. do 5 (split; [vm_compute; reflexivity|]).
  intros [H _]. vm_compute in H. discriminate H.
Qed.

(** C7, as the code has it.  After a stop, a start on Twitter re-enters
    the scroll loop with the caches kept: every entry of both caches is
    still there, in place, the initial detection of the new run adding to
    them at most; the start time of the session is kept as well.  The pass
    counter and the stability counter are set back to 0. *)
Theorem C7_resume_keeps_caches (cfg : config) (env : analysis_env) (paused : state) :
  isProcessing paused = false ->
  env_onTwitter env = true ->
  env_events env = [] ->
  0 < maxScrollAttempts cfg ->
  let resumed := fst (start cfg env paused) in
  snd (start cfg env paused) = Waiting /\
  isAnalyzing resumed = true /\
  isProcessing resumed = true /\
  isScrolling resumed = true /\
  scrollCount resumed = 0 /\
  stabilityCounter resumed = 0 /\
  (exists added, videoCache resumed = videoCache paused ++ added) /\
  (exists added, imageCache resumed = imageCache paused ++ added) /\
  (noStartTime paused = false -> startTime resumed = startTime paused).
Proof.
  intros Hproc Htw Hev Hmax resumed. subst resumed.
  unfold start, startAnalysis.
  cbn [isProcessing set_isAnalyzing]. rewrite Hproc, Htw. cbn [negb].
  set (st1 := set_isScrolling true (set_isProcessing true (set_isAnalyzing true paused))).
  set (st2 := if noStartTime st1 then set_startTime (Some (env_now env)) st1 else st1).
  assert (H2 : isAnalyzing st2 = true /\ isProcessing st2 = true /\
               videoCache st2 = videoCache paused /\
               imageCache st2 = imageCache paused /\
               (noStartTime paused = false -> startTime st2 = startTime paused)).
  { assert (Hn : noStartTime st1 = noStartTime paused) by reflexivity.
    subst st2. rewrite Hn. destruct (noStartTime paused).
    - repeat split. discriminate.
    - repeat split. }
  clearbody st2. clear st1.
  destruct H2 as (H2a & H2p & H2v & H2i & H2t).
  pose proof (detectMedia_grows cfg (env_initial env) st2) as G.
  set (st3 := fst (detectMedia cfg (env_initial env) st2)) in *.
  clearbody st3.
  destruct G as [Ga Gp _ _ _ Gt _ _ _ [av Hav] [ai Hai]].
  unfold infiniteScroll. rewrite Hev, scrollStep_eq. cbn [fst]. unfold scrollGuard.
  change (isScrolling (set_stabilityCounter 0
            (set_scrollCount 0 (set_isScrolling true st3)))) with true.
  change (scrollCount (set_stabilityCounter 0
            (set_scrollCount 0 (set_isScrolling true st3)))) with 0.
  assert (Em : (maxScrollAttempts cfg <=? 0) = false) by (apply Z.leb_gt; lia).
  cbn [negb]. rewrite Em. cbn [run_status run_state fst snd].
  split; [reflexivity|].
  change (isAnalyzing st3 = true /\ isProcessing st3 = true /\ true = true /\
          0 = 0 /\ 0 = 0 /\
          (exists added, videoCache st3 = videoCache paused ++ added) /\
          (exists added, imageCache st3 = imageCache paused ++ added) /\
          (noStartTime paused = false -> startTime st3 = startTime paused)).
  rewrite Ga, Gp, Gt, Hav, Hai, H2v, H2i.
  repeat split; try assumption.
  - now exists av.
  - now exists ai.
Qed.

Lemma C7_witness :
  let resumed := fst (start default_config (session []) paused_state) in
  scrollCount resumed = 0 /\
  stabilityCounter resumed = 0 /\
  (exists added, videoCache resumed = videoCache paused_state ++ added) /\
  startTime resumed = startTime paused_state.
Proof.
  pose proof (C7_resume_keeps_caches default_config (session []) paused_state
                ltac:(vm_compute; reflexivity) eq_refl eq_refl
                ltac:(vm_compute; reflexivity)) as H.
  cbv zeta in H |- *.
  destruct H as (_ & _ & _ & _ & Hn & Hc & Hv & _ & Ht).
  split; [exact Hn|]. split; [exact Hc|]. split; [exact Hv|].
  apply Ht. vm_compute. reflexivity.
Defined.

(** ** parseEngagementCount *)

Lemma prefix_empty (s : string) : String.prefix "" s = true.
Proof. destruct s; reflexivity. Qed.

Lemma includes_char (c : ascii) (s : string) :
  includes s (String c "") = true <-> occurs c s.
Proof.
  induction s as [|a s IH]; cbn [includes occurs].
  - split; [discriminate|contradiction].
  - rewrite orb_true_iff, IH. cbn [String.prefix].
    destruct (ascii_dec c a) as [->|Hne].
    + rewrite prefix_empty. split; auto.
    + split; intros [H|H]; auto; try discriminate; congruence.
Qed.

Lemma includes_char_false (c : ascii) (s : string) :
  includes s (String c "") = false <-> ~ occurs c s.
Proof.
  rewrite <- includes_char. destruct (includes s (String c "")); split;
    intros H; try reflexivity; try discriminate.
  - now contradiction H.
Qed.

Lemma parseEngagementCount_eq (text : string) :
  parseEngagementCount text =
  let number := parseFloat (numberText text) in
  if b64_isNaN number then JNum 0
  else if includes (cleanText text) "K" then mathRound (b64_mul number (b64_of_Z 1000))
  else if includes (cleanText text) "M" then mathRound (b64_mul number (b64_of_Z 1000000))
  else if includes (cleanText text) "B"
       then mathRound (b64_mul number (b64_of_Z 1000000000))
  else mathRound number.
Proof.
  unfold parseEngagementCount, numberText, cleanText.
  destruct text as [|c text]; [reflexivity|].
  cbn [String.eqb].
  destruct (toUpperCase (filterChars keptChar (String c text))) as [|a s];
    reflexivity.
Qed.

Lemma filterChars_idem (keep : ascii -> bool) (s : string) :
  filterChars keep (filterChars keep s) = filterChars keep s.
Proof.
  induction s as [|c s IH]; simpl; [reflexivity|].
  destruct (keep c) eqn:E; simpl; [|assumption]. now rewrite E, IH.
Qed.

Lemma round_nearest (x : Q) :
  (inject_Z (round x) - (1 # 2) <= x)%Q /\ (x < inject_Z (round x) + (1 # 2))%Q.
Proof.
  unfold round. pose proof (Qfloor_le (x + (1 # 2))) as Hle.
  pose proof (Qlt_floor (x + (1 # 2))) as Hlt.
  set (n := Qfloor (x + (1 # 2))) in *.
  rewrite inject_Z_plus in Hlt. change (inject_Z 1) with 1%Q in Hlt.
  split; lra.
Qed.

Lemma filterChars_app (keep : ascii -> bool) (a b : string) :
  filterChars keep (a ++ b) = (filterChars keep a ++ filterChars keep b)%string.
Proof.
  induction a as [|c a IH]; simpl; [reflexivity|].
  destruct (keep c); simpl; now rewrite IH.
Qed.

Lemma toUpperCase_app (a b : string) :
  toUpperCase (a ++ b) = (toUpperCase a ++ toUpperCase b)%string.
Proof. induction a as [|c a IH]; simpl; [reflexivity|]. now rewrite IH. Qed.

Lemma occurs_app (c : ascii) (a b : string) :
  occurs c (a ++ b) <-> occurs c a \/ occurs c b.
Proof. induction a as [|x a IH]; simpl; [tauto|]. rewrite IH. tauto. Qed.

(** The facts about single characters are checked on all 256 of them. *)
Ltac all_chars c :=
  destruct c as [[] [] [] [] [] [] [] []]; vm_compute; reflexivity.

Lemma numeric_char_kept (c : ascii) :
  isDigit c || Ascii.eqb c "." = true ->
  keptChar c = true /\ upperChar c = c /\ isSuffixLetter c = false.
Proof.
  assert (H : (isDigit c || Ascii.eqb c ".") =
              (isDigit c || Ascii.eqb c ".") && keptChar c &&
              Ascii.eqb (upperChar c) c && negb (isSuffixLetter c))
    by all_chars c.
  intros Hc. rewrite Hc in H. symmetry in H.
  rewrite !andb_true_iff, negb_true_iff in H.
  destruct H as [[[_ H1] H2] H3]. apply Ascii.eqb_eq in H2. auto.
Qed.

Lemma numeric_clean (d : string) :
  numeric d = true ->
  filterChars keptChar d = d /\ toUpperCase d = d /\
  filterChars (fun c => negb (isSuffixLetter c)) d = d /\
  (forall c, isSuffixLetter c = true -> ~ occurs c d).
Proof.
  induction d as [|c d IH]; simpl; intros H.
  - repeat split; auto.
  - apply andb_true_iff in H. destruct H as [Hc Hd].
    destruct (numeric_char_kept c Hc) as (H1 & H2 & H3).
    destruct (IH Hd) as (I1 & I2 & I3 & I4).
    rewrite H1, H2, H3. simpl. rewrite I1, I2, I3. repeat split; auto.
    intros x Hx [<-|Hocc]; [congruence|]. now apply (I4 x).
Qed.

Lemma append_nil_r (s : string) : (s ++ "")%string = s.
Proof. induction s as [|c s IH]; simpl; [reflexivity|]. now rewrite IH. Qed.

(** A number followed by one suffix letter. *)
Lemma parse_suffixed (d : string) (letter : ascii) :
  numeric d = true -> b64_isNaN (parseFloat d) = false ->
  keptChar letter = true -> isSuffixLetter (upperChar letter) = true ->
  parseEngagementCount (d ++ String letter "") =
  if Ascii.eqb (upperChar letter) "K"
  then mathRound (b64_mul (parseFloat d) (b64_of_Z 1000))
  else if Ascii.eqb (upperChar letter) "M"
  then mathRound (b64_mul (parseFloat d) (b64_of_Z 1000000))
  else mathRound (b64_mul (parseFloat d) (b64_of_Z 1000000000)).
Proof.
  intros Hd Hq Hkept Hup.
  destruct (numeric_clean d Hd) as (H1 & H2 & H3 & H4).
  assert (Hclean : cleanText (d ++ String letter "") =
                   (d ++ String (upperChar letter) "")%string).
  { unfold cleanText. rewrite filterChars_app, H1. simpl. rewrite Hkept.
    rewrite toUpperCase_app, H2. reflexivity. }
  rewrite parseEngagementCount_eq. unfold numberText. rewrite Hclean.
  rewrite filterChars_app, H3. simpl. rewrite Hup. simpl.
  rewrite append_nil_r. cbv zeta. rewrite Hq.
  assert (Hinc : forall x, isSuffixLetter x = true ->
            includes (d ++ String (upperChar letter) "") (String x "") =
            Ascii.eqb (upperChar letter) x).
  { intros x Hx. destruct (Ascii.eqb_spec (upperChar letter) x) as [->|Hne].
    - apply includes_char, occurs_app. right. now left.
    - apply includes_char_false. rewrite occurs_app. intros [Ho|[Ho|[]]].
      + now apply (H4 x).
      + contradiction. }
  rewrite !Hinc by reflexivity.
  destruct (Ascii.eqb (upperChar letter) "K") eqn:Ek; [reflexivity|].
  destruct (Ascii.eqb (upperChar letter) "M") eqn:Em; [reflexivity|].
  unfold isSuffixLetter in Hup. rewrite Ek, Em in Hup. simpl in Hup.
  now rewrite Hup.
Qed.

Lemma parse_unsuffixed (d : string) :
  numeric d = true -> b64_isNaN (parseFloat d) = false ->
  parseEngagementCount d = mathRound (parseFloat d).
Proof.
  intros Hd Hq. destruct (numeric_clean d Hd) as (H1 & H2 & H3 & H4).
  rewrite parseEngagementCount_eq. unfold numberText, cleanText.
  rewrite H1, H2, H3. cbv zeta. rewrite Hq.
  assert (Hinc : forall x, isSuffixLetter x = true -> includes d (String x "") = false).
  { intros x Hx. apply includes_char_false. now apply H4. }
  now rewrite !Hinc by reflexivity.
Qed.

(** The cleaned text holds digits, dots and the three capital letters
    only. *)
Lemma cleanText_chars (text : string) (c : ascii) :
  occurs c (cleanText text) ->
  isDigit c = true \/ c = "."%char \/ c = "K"%char \/ c = "M"%char \/ c = "B"%char.
Proof.
  unfold cleanText. induction text as [|a text IH]; simpl; [contradiction|].
  destruct (keptChar a) eqn:E; [|assumption].
  simpl. intros [<-|H]; [|now apply IH]. clear IH.
  assert (Hc : keptChar a =
               keptChar a &&
               (isDigit (upperChar a) || Ascii.eqb (upperChar a) "." ||
                Ascii.eqb (upperChar a) "K" || Ascii.eqb (upperChar a) "M" ||
                Ascii.eqb (upperChar a) "B")) by all_chars a.
  rewrite E in Hc. symmetry in Hc. simpl in Hc.
  rewrite !orb_true_iff, !Ascii.eqb_eq in Hc. tauto.
Qed.

(** A capital suffix letter is in the cleaned text exactly when it or its
    small form is in the text. *)
Lemma cleanText_occurs (text : string) (upper lower : ascii) :
  (forall a, keptChar a && Ascii.eqb (upperChar a) upper =
             Ascii.eqb a upper || Ascii.eqb a lower) ->
  occurs upper (cleanText text) <-> occurs upper text \/ occurs lower text.
Proof.
  intros Hch. unfold cleanText. induction text as [|a text IH]; simpl; [tauto|].
  specialize (Hch a).
  destruct (keptChar a); simpl in *.
  - rewrite IH. destruct (Ascii.eqb_spec (upperChar a) upper) as [Hu|Hu];
      symmetry in Hch.
    + apply orb_true_iff in Hch. rewrite !Ascii.eqb_eq in Hch. tauto.
    + apply orb_false_iff in Hch. rewrite !Ascii.eqb_neq in Hch. tauto.
  - rewrite IH. symmetry in Hch. apply orb_false_iff in Hch.
    rewrite !Ascii.eqb_neq in Hch. tauto.
Qed.

(** C9. The four examples of the specification; and in general: the
    result depends on the text only through its digits, dots and letters
    K, M, B of either case; it is 0 when what is left holds no number; a
    number followed by K, M or B, capital or small, is multiplied by a
    thousand, a million or a billion and rounded, and a bare number is
    rounded; rounding goes to the nearest integer.  The number is the
    double nearest to the decimal, the product is the double nearest to
    the product of the two doubles, and it is that double which is
    rounded to an integer: [0.5005K] gives 500. *)
Theorem C9_parseEngagementCount :
  (parseEngagementCount "1.5K" = JNum 1500 /\
   parseEngagementCount "2M" = JNum 2000000 /\
   parseEngagementCount "" = JNum 0 /\
   parseEngagementCount "42" = JNum 42) /\
  (forall text,
      parseEngagementCount text = parseEngagementCount (filterChars keptChar text)) /\
  (forall text c,
      occurs c (cleanText text) ->
      isDigit c = true \/ c = "."%char \/ c = "K"%char \/ c = "M"%char \/ c = "B"%char) /\
  (forall text,
      b64_isNaN (parseFloat (numberText text)) = true ->
      parseEngagementCount text = JNum 0) /\
  (forall d,
      numeric d = true -> b64_isNaN (parseFloat d) = false ->
      let number := parseFloat d in
      parseEngagementCount (d ++ "K") = mathRound (b64_mul number (b64_of_Z 1000)) /\
      parseEngagementCount (d ++ "k") = mathRound (b64_mul number (b64_of_Z 1000)) /\
      parseEngagementCount (d ++ "M") = mathRound (b64_mul number (b64_of_Z 1000000)) /\
      parseEngagementCount (d ++ "m") = mathRound (b64_mul number (b64_of_Z 1000000)) /\
      parseEngagementCount (d ++ "B") =
        mathRound (b64_mul number (b64_of_Z 1000000000)) /\
      parseEngagementCount (d ++ "b") =
        mathRound (b64_mul number (b64_of_Z 1000000000)) /\
      parseEngagementCount d = mathRound number) /\
  (b64_value (b64_of_Z 1000) == 1000 /\
   b64_value (b64_of_Z 1000000) == 1000000 /\
   b64_value (b64_of_Z 1000000000) == 1000000000)%Q /\
  (forall x : spec_float,
      b64_finite x = true ->
      exists n : Z,
        mathRound x = JNum (inject_Z n) /\
        (inject_Z n - (1 # 2) <= b64_value x)%Q /\
        (b64_value x < inject_Z n + (1 # 2))%Q) /\
  parseEngagementCount "0.5005K" = JNum 500.
Proof.
  split; [repeat split; vm_compute; reflexivity|].
  split; [|split; [|split; [|split; [|split; [|split]]]]].
  - intros text. rewrite !parseEngagementCount_eq.
    unfold numberText, cleanText. now rewrite filterChars_idem.
  - apply cleanText_chars.
  - intros text H. rewrite parseEngagementCount_eq. cbv zeta. now rewrite H.
  - intros d Hd Hq number. subst number.
    repeat split;
      try (rewrite (parse_suffixed d _ Hd Hq) by reflexivity; reflexivity).
    now apply parse_unsuffixed.
  - repeat split; vm_compute; reflexivity.
  - intros x Hx. exists (round (b64_value x)). split.
    + destruct x; try discriminate Hx; reflexivity.
    + apply round_nearest.
  - vm_compute. reflexivity.
Qed.

Lemma C9_witness :
  parseEngagementCount ("1.5" ++ "K") =
    mathRound (b64_mul (parseFloat "1.5") (b64_of_Z 1000)) /\
  parseEngagementCount ("1.5" ++ "m") =
    mathRound (b64_mul (parseFloat "1.5") (b64_of_Z 1000000)) /\
  parseEngagementCount "1.5" = mathRound (parseFloat "1.5") /\
  exists n : Z,
    mathRound (parseFloat "1.5") = JNum (inject_Z n) /\
    (inject_Z n - (1 # 2) <= b64_value (parseFloat "1.5"))%Q /\
    (b64_value (parseFloat "1.5") < inject_Z n + (1 # 2))%Q.
Proof.
  destruct (proj1 (proj2 (proj2 (proj2 (proj2 C9_parseEngagementCount))))
              "1.5" eq_refl eq_refl)
    as (HK & _ & _ & Hm & _ & _ & Hbare).
  split; [exact HK|]. split; [exact Hm|]. split; [exact Hbare|].
  apply (proj1 (proj2 (proj2 (proj2 (proj2 (proj2 (proj2 C9_parseEngagementCount))))))
           (parseFloat "1.5")).
  vm_compute. reflexivity.
Defined.

(** C10. The multiplier is chosen by the letters that occur anywhere in
    the cleaned text, whatever their place: K if there is a K, else M if
    there is an M, else B if there is a B; and a letter is in the cleaned
    text when it is in the text in either case.  So ["K1.5"] gives 1500 as
    ["1.5K"] does. *)
Theorem C10_multiplier_anywhere :
  (forall text,
      b64_isNaN (parseFloat (numberText text)) = false ->
      let number := parseFloat (numberText text) in
      (occurs "K" (cleanText text) ->
       parseEngagementCount text = mathRound (b64_mul number (b64_of_Z 1000))) /\
      (~ occurs "K" (cleanText text) -> occurs "M" (cleanText text) ->
       parseEngagementCount text = mathRound (b64_mul number (b64_of_Z 1000000))) /\
      (~ occurs "K" (cleanText text) -> ~ occurs "M" (cleanText text) ->
       occurs "B" (cleanText text) ->
       parseEngagementCount text =
         mathRound (b64_mul number (b64_of_Z 1000000000)))) /\
  (forall text,
      (occurs "K" (cleanText text) <-> occurs "K" text \/ occurs "k" text) /\
      (occurs "M" (cleanText text) <-> occurs "M" text \/ occurs "m" text) /\
      (occurs "B" (cleanText text) <-> occurs "B" text \/ occurs "b" text)) /\
  parseEngagementCount "K1.5" = JNum 1500 /\
  parseEngagementCount "1.5K" = JNum 1500 /\
  parseEngagementCount "1K5" = JNum 15000 /\
  parseEngagementCount "2MK" = JNum 2000 /\
  parseEngagementCount "2BM" = JNum 2000000.
Proof.
  split; [|split].
  - intros text Hq number. subst number. rewrite parseEngagementCount_eq.
    cbv zeta. rewrite Hq.
    split; [|split].
    + intros HK. apply includes_char in HK. now rewrite HK.
    + intros HK HM. apply includes_char_false in HK. apply includes_char in HM.
      now rewrite HK, HM.
    + intros HK HM HB. apply includes_char_false in HK, HM.
      apply includes_char in HB. now rewrite HK, HM, HB.
  - intros text. split; [|split]; apply cleanText_occurs; intros a; all_chars a.
  - repeat split; vm_compute; reflexivity.
Qed.

Lemma C10_witness :
  parseEngagementCount "K1.5" =
  mathRound (b64_mul (parseFloat (numberText "K1.5")) (b64_of_Z 1000)).
Proof.
  apply (proj1 (proj1 C10_multiplier_anywhere "K1.5" eq_refl)).
  simpl. auto.
Defined.

(** * Further properties *)

(** ** Import: what Merge and Replace do to the caches *)

Lemma generateUniqueId_truthy (u s : jsstr) (now : Z) :
  truthy (JStr (generateUniqueId u s now)) = true.
Proof. reflexivity. Qed.

Lemma ensureId_truthy (now : Z) (item : media) : truthy (id (ensureId now item)) = true.
Proof.
  unfold ensureId. destruct (truthy (id item)) eqn:E; simpl; [assumption|reflexivity].
Qed.

Lemma ensureId_has_id (now : Z) (item : media) :
  truthy (id item) = true -> ensureId now item = item.
Proof. intros H. unfold ensureId. now rewrite H. Qed.

Lemma cache_ok_empty : cache_ok JsMap.empty.
Proof. repeat split; constructor. Qed.

Lemma truthy_set (k : jsstr) (v : media) (c : cache) :
  Forall (fun e => truthy (fst e) = true) c -> truthy k = true ->
  Forall (fun e => truthy (fst e) = true) (JsMap.set k v c).
Proof.
  intros Hc Hk. induction c as [|[k' v'] c IH]; simpl.
  - now repeat constructor.
  - inversion Hc as [|? ? Hhead Htail]; subst.
    destruct (strict_eq k' k); constructor; auto.
Qed.

Lemma cache_ok_set (k : jsstr) (v : media) (c : cache) :
  cache_ok c -> id v = k -> truthy k = true -> cache_ok (JsMap.set k v c).
Proof.
  intros (Hwf & Hk & Ht) Hid Htr. repeat split.
  - now apply wf_set.
  - now apply keyed_set.
  - now apply truthy_set.
Qed.

Lemma importItem_ok (replace : bool) (now : Z) (item : media) (l : import_loop) :
  cache_ok (l_cache l) -> cache_ok (l_cache (importItem replace now item l)).
Proof.
  intros H. unfold importItem.
  destruct (negb replace && JsMap.has (id (ensureId now item)) (l_cache l));
    simpl; [assumption|].
  apply cache_ok_set; auto using ensureId_truthy.
Qed.

Lemma importItems_ok (replace : bool) (clock : nat -> Z) (items : list media) :
  forall (i : nat) (l : import_loop),
    cache_ok (l_cache l) -> cache_ok (l_cache (importItems replace clock i items l)).
Proof.
  induction items as [|item items IH]; intros i l H; simpl; [assumption|].
  apply IH. now apply importItem_ok.
Qed.

(** A Merge loop appends: the cache it starts from stays as it is, in
    place, and the counters tell what was appended and what was passed
    over. *)
Lemma importItems_merge (clock : nat -> Z) (items : list media) :
  forall (i : nat) (l : import_loop),
    exists added,
      l_cache (importItems false clock i items l) = l_cache l ++ added /\
      l_added (importItems false clock i items l) =
        l_added l + Z.of_nat (List.length added) /\
      l_added (importItems false clock i items l) +
      l_skipped (importItems false clock i items l) =
        l_added l + l_skipped l + Z.of_nat (List.length items).
Proof.
  induction items as [|item items IH]; intros i l; cbn [importItems].
  - exists []. rewrite app_nil_r. simpl. repeat split; lia.
  - destruct (IH (S i) (importItem false (clock i) item l)) as (added & Hc & Ha & Hs).
    unfold importItem in *. cbn [negb andb] in *.
    destruct (JsMap.has (id (ensureId (clock i) item)) (l_cache l)) eqn:E;
      cbn [l_cache l_added l_skipped] in *.
    + exists added. cbn [List.length]. rewrite Nat2Z.inj_succ.
      split; [exact Hc|]. split; lia.
    + rewrite (set_fresh _ _ _ E) in *.
      exists ((id (ensureId (clock i) item), ensureId (clock i) item) :: added).
      cbn [List.length]. rewrite !Nat2Z.inj_succ.
      split; [rewrite Hc, <- app_assoc; reflexivity|]. split; lia.
Qed.

Lemma importJsonData_merge_eq (p : import_data) (vs is_ : list media)
    (clock : nat -> Z) (st : state) :
  videos p = Some vs -> images p = Some is_ ->
  let lv := importItems false clock 0 vs (loop_from (videoCache st)) in
  let li := importItems false clock (List.length vs) is_ (loop_from (imageCache st)) in
  exists st',
    importJsonData (Returns p) false clock st =
      (st', Returns ({| videosAdded := l_added lv; imagesAdded := l_added li;
                        videosSkipped := l_skipped lv; imagesSkipped := l_skipped li;
                        totalProcessed :=
                          Z.of_nat (List.length vs) + Z.of_nat (List.length is_) |},
                     {| videos := Some (l_items lv); images := Some (l_items li);
                        stats := stats p |})) /\
    videoCache st' = l_cache lv /\ imageCache st' = l_cache li /\
    scrollCount st' = scrollCount st /\
    stabilityCounter st' = stabilityCounter st /\
    newlyDiscoveredVideos st' =
      newlyDiscoveredVideos st +
      match stats p with Some s => or_zero (i_newlyDiscoveredVideos s) | None => 0 end /\
    newlyDiscoveredImages st' =
      newlyDiscoveredImages st +
      match stats p with Some s => or_zero (i_newlyDiscoveredImages s) | None => 0 end.
Proof.
  intros Hv Hi lv li. subst lv li.
  unfold importJsonData, try_catch, bind, lookup. rewrite Hv, Hi.
  cbn [when negb]. unfold modify, get, ret. cbn beta iota.
  unfold loop_from.
  destruct (stats p) as [s|]; cbn beta iota; eexists;
    (split; [reflexivity|]); simpl; repeat split; lia.
Qed.

(** X1. Merge import only appends: with both sequences present the import
    succeeds, each cache is the old cache followed by the records that were
    added, the added and skipped counts of each kind sum to the length of
    its sequence, and the scroll count is left alone. *)
Theorem merge_import_appends (p : import_data) (vs is_ : list media)
    (clock : nat -> Z) (st : state) :
  videos p = Some vs -> images p = Some is_ ->
  exists st' res p',
    importJsonData (Returns p) false clock st = (st', Returns (res, p')) /\
    (exists added, videoCache st' = videoCache st ++ added /\
                   videosAdded res = Z.of_nat (List.length added)) /\
    (exists added, imageCache st' = imageCache st ++ added /\
                   imagesAdded res = Z.of_nat (List.length added)) /\
    videosAdded res + videosSkipped res = Z.of_nat (List.length vs) /\
    imagesAdded res + imagesSkipped res = Z.of_nat (List.length is_) /\
    JsMap.size (videoCache st) <= JsMap.size (videoCache st') /\
    JsMap.size (imageCache st) <= JsMap.size (imageCache st') /\
    scrollCount st' = scrollCount st.
Proof.
  intros Hv Hi.
  destruct (importJsonData_merge_eq p vs is_ clock st Hv Hi)
    as (st' & Heq & Hvc & Hic & Hsc & _).
  destruct (importItems_merge clock vs 0 (loop_from (videoCache st)))
    as (av & Hav & Haa & Has).
  destruct (importItems_merge clock is_ (List.length vs) (loop_from (imageCache st)))
    as (ai & Hai & Hia & His).
  cbn [loop_from l_cache l_added l_skipped] in *.
  do 3 eexists. split; [exact Heq|]. cbn [videosAdded imagesAdded videosSkipped imagesSkipped].
  rewrite Hvc, Hic, Hav, Hai.
  split; [exists av; split; [reflexivity|lia]|].
  split; [exists ai; split; [reflexivity|lia]|].
  split; [lia|]. split; [lia|].
  split; [apply size_app_ge|]. split; [apply size_app_ge|]. exact Hsc.
Qed.

Lemma merge_import_appends_witness :
  exists st' res p',
    importJsonData (Returns twin_payload) false sample_clock initial_state =
      (st', Returns (res, p')) /\
    videosAdded res + videosSkipped res = 2.
Proof.
  destruct (merge_import_appends twin_payload [twin_a; twin_b] [] sample_clock
              initial_state eq_refl eq_refl)
    as (st' & res & p' & Heq & _ & _ & Hsum & _).
  exists st', res, p'. split; [exact Heq | exact Hsum].
Defined.

Lemma assignIds_has_ids (clock : nat -> Z) (items : list media) :
  Forall (fun v => truthy (id v) = true) items ->
  forall i, assignIds clock i items = items.
Proof.
  induction 1 as [|v items Hv _ IH]; intros i; simpl; [reflexivity|].
  now rewrite ensureId_has_id, IH.
Qed.

Lemma length_assignIds (clock : nat -> Z) (items : list media) :
  forall i, List.length (assignIds clock i items) = List.length items.
Proof. induction items as [|v items IH]; intros i; simpl; [reflexivity|]. now rewrite IH. Qed.

(** A Replace loop counts every item as added. *)
Lemma importItems_replace_counts (clock : nat -> Z) (items : list media) :
  forall (i : nat) (l : import_loop),
    l_added (importItems true clock i items l) =
      l_added l + Z.of_nat (List.length items) /\
    l_skipped (importItems true clock i items l) = l_skipped l /\
    JsMap.size (l_cache (importItems true clock i items l)) <=
      JsMap.size (l_cache l) + Z.of_nat (List.length items).
Proof.
  induction items as [|item items IH]; intros i l; cbn [importItems].
  - simpl. repeat split; lia.
  - destruct (IH (S i) (importItem true (clock i) item l)) as (Ha & Hs & Hz).
    rewrite Ha, Hs. unfold importItem in *. cbn [negb andb l_added l_skipped l_cache] in *.
    cbn [List.length]. rewrite Nat2Z.inj_succ. repeat split; try lia.
    assert (Hset : JsMap.size (JsMap.set (id (ensureId (clock i) item))
                                 (ensureId (clock i) item) (l_cache l))
                   <= JsMap.size (l_cache l) + 1).
    { unfold JsMap.size.
      pose proof (keys_set (id (ensureId (clock i) item)) (ensureId (clock i) item)
                    (l_cache l)) as Hk.
      apply (f_equal (@List.length _)) in Hk. unfold JsMap.keys in Hk.
      rewrite length_map in Hk. rewrite Hk.
      destruct (JsMap.has _ _); [rewrite length_map; lia|].
      rewrite length_app, length_map. simpl. lia. }
    lia.
Qed.

(** When the ids are new and distinct a Replace loop files the items in
    their order. *)
Lemma importItems_replace_fresh (clock : nat -> Z) (items : list media) :
  forall (i : nat) (l : import_loop),
    NoDup (JsMap.keys (l_cache l) ++ map id (assignIds clock i items)) ->
    l_cache (importItems true clock i items l) =
    l_cache l ++ map (fun v => (id v, v)) (assignIds clock i items).
Proof.
  induction items as [|item items IH]; intros i l Hnd; cbn [importItems assignIds map].
  - now rewrite app_nil_r.
  - cbn [assignIds map] in Hnd.
    assert (Hfresh : JsMap.has (id (ensureId (clock i) item)) (l_cache l) = false).
    { apply has_false_iff. intros Hin. apply NoDup_remove_2 in Hnd.
      apply Hnd. apply in_or_app. now left. }
    rewrite IH; unfold importItem; cbn [negb andb l_cache];
      rewrite (set_fresh _ _ _ Hfresh).
    + now rewrite <- app_assoc.
    + unfold JsMap.keys in *. rewrite map_app, <- app_assoc. exact Hnd.
Qed.

Lemma keyed_entries (c : cache) : keyed c -> map (fun v => (id v, v)) (JsMap.values c) = c.
Proof.
  unfold keyed, JsMap.values. induction 1 as [|[k v] c Hk _ IH]; simpl; [reflexivity|].
  simpl in Hk. now rewrite Hk, IH.
Qed.

Lemma cache_ok_ids (c : cache) :
  cache_ok c -> Forall (fun v => truthy (id v) = true) (JsMap.values c).
Proof.
  intros (_ & Hk & Ht). unfold keyed, JsMap.values in *.
  induction c as [|[k v] c IH]; simpl; constructor.
  - inversion Hk; inversion Ht; subst. simpl in *. congruence.
  - inversion Hk; inversion Ht; subst. now apply IH.
Qed.

(** Reading a cache back through a Replace loop rebuilds it. *)
Lemma importItems_replace_values (clock : nat -> Z) (c : cache) (i : nat) :
  cache_ok c ->
  l_cache (importItems true clock i (JsMap.values c) (loop_from JsMap.empty)) = c.
Proof.
  intros Hok. pose proof (cache_ok_ids c Hok) as Hids.
  destruct Hok as (Hwf & Hk & _).
  rewrite importItems_replace_fresh; rewrite assignIds_has_ids by assumption.
  - simpl. now apply keyed_entries.
  - simpl. now rewrite keyed_values.
Qed.

(** A Merge loop over items that are all in the cache passes over each of
    them. *)
Lemma importItems_merge_known (clock : nat -> Z) (items : list media) :
  forall (i : nat) (l : import_loop),
    Forall (fun v => truthy (id v) = true /\ In (id v) (JsMap.keys (l_cache l))) items ->
    l_cache (importItems false clock i items l) = l_cache l /\
    l_added (importItems false clock i items l) = l_added l /\
    l_skipped (importItems false clock i items l) =
      l_skipped l + Z.of_nat (List.length items).
Proof.
  induction items as [|item items IH]; intros i l H; cbn [importItems].
  - simpl. repeat split; lia.
  - inversion H as [|? ? [Ht Hin] Hrest]; subst.
    unfold importItem. rewrite (ensureId_has_id _ _ Ht). cbn [negb andb].
    apply has_true_iff in Hin. rewrite Hin.
    destruct (IH (S i) {| l_cache := l_cache l;
                          l_items := l_items l ++ [item];
                          l_added := l_added l;
                          l_skipped := l_skipped l + 1 |} Hrest) as (Hc & Ha & Hs).
    rewrite Hc, Ha, Hs. cbn [l_cache l_added l_skipped List.length].
    rewrite Nat2Z.inj_succ. repeat split; lia.
Qed.

Lemma importJsonData_replace_full (p : import_data) (vs is_ : list media)
    (clock : nat -> Z) (st : state) :
  videos p = Some vs -> images p = Some is_ ->
  let lv := importItems true clock 0 vs (loop_from JsMap.empty) in
  let li := importItems true clock (List.length vs) is_ (loop_from JsMap.empty) in
  exists st',
    importJsonData (Returns p) true clock st =
      (st', Returns ({| videosAdded := l_added lv; imagesAdded := l_added li;
                        videosSkipped := l_skipped lv; imagesSkipped := l_skipped li;
                        totalProcessed :=
                          Z.of_nat (List.length vs) + Z.of_nat (List.length is_) |},
                     {| videos := Some (l_items lv); images := Some (l_items li);
                        stats := stats p |})) /\
    videoCache st' = l_cache lv /\ imageCache st' = l_cache li /\
    stabilityCounter st' = stabilityCounter st /\
    scrollCount st' =
      match stats p with Some s => or_zero (i_scrollCount s) | None => scrollCount st end /\
    newlyDiscoveredVideos st' =
      match stats p with
      | Some s => or_zero (i_newlyDiscoveredVideos s)
      | None => newlyDiscoveredVideos st
      end /\
    newlyDiscoveredImages st' =
      match stats p with
      | Some s => or_zero (i_newlyDiscoveredImages s)
      | None => newlyDiscoveredImages st
      end.
Proof.
  intros Hv Hi lv li. subst lv li.
  unfold importJsonData, try_catch, bind, lookup. rewrite Hv, Hi.
  cbn [when negb]. unfold modify, get, ret. cbn beta iota.
  cbn [videoCache imageCache set_imageCache set_videoCache]. unfold loop_from.
  destruct (stats p) as [s|]; cbn beta iota; eexists;
    (split; [reflexivity|]); simpl; repeat split.
Qed.

(** X2. Replace import counts every item of the payload as added and none as
    skipped, even when two items carry one id and the later takes the
    place of the earlier, so that a cache may hold fewer records than were
    counted; when the ids are distinct the cache holds the items in the
    payload's order. *)
Theorem replace_import_counts (p : import_data) (vs is_ : list media)
    (clock : nat -> Z) (st : state) :
  videos p = Some vs -> images p = Some is_ ->
  exists st' res p',
    importJsonData (Returns p) true clock st = (st', Returns (res, p')) /\
    videosAdded res = Z.of_nat (List.length vs) /\ videosSkipped res = 0 /\
    imagesAdded res = Z.of_nat (List.length is_) /\ imagesSkipped res = 0 /\
    JsMap.size (videoCache st') <= videosAdded res /\
    JsMap.size (imageCache st') <= imagesAdded res /\
    (NoDup (map id (assignIds clock 0 vs)) ->
     JsMap.values (videoCache st') = assignIds clock 0 vs) /\
    (NoDup (map id (assignIds clock (List.length vs) is_)) ->
     JsMap.values (imageCache st') = assignIds clock (List.length vs) is_).
Proof.
  intros Hv Hi.
  destruct (importJsonData_replace_full p vs is_ clock st Hv Hi)
    as (st' & Heq & Hvc & Hic & _).
  destruct (importItems_replace_counts clock vs 0 (loop_from JsMap.empty))
    as (Va & Vs & Vz).
  destruct (importItems_replace_counts clock is_ (List.length vs) (loop_from JsMap.empty))
    as (Ia & Is & Iz).
  cbn [loop_from l_cache l_added l_skipped] in *.
  do 3 eexists. split; [exact Heq|].
  cbn [videosAdded imagesAdded videosSkipped imagesSkipped].
  rewrite Hvc, Hic, Va, Vs, Ia, Is. change (JsMap.size JsMap.empty) with 0 in *.
  repeat split; try lia.
  - intros Hnd. rewrite importItems_replace_fresh by exact Hnd.
    cbn [loop_from l_cache app JsMap.empty]. unfold JsMap.values.
    rewrite map_map. simpl. apply map_id.
  - intros Hnd. rewrite importItems_replace_fresh by exact Hnd.
    cbn [loop_from l_cache app JsMap.empty]. unfold JsMap.values.
    rewrite map_map. simpl. apply map_id.
Qed.

Lemma replace_import_counts_witness :
  exists st' res p',
    importJsonData (Returns twin_payload) true sample_clock initial_state =
      (st', Returns (res, p')) /\
    videosAdded res = 2 /\
    JsMap.values (videoCache st') = [twin_a; twin_b].
Proof.
  destruct (replace_import_counts twin_payload [twin_a; twin_b] [] sample_clock
              initial_state eq_refl eq_refl)
    as (st' & res & p' & Heq & Ha & _ & _ & _ & _ & _ & Hvals & _).
  exists st', res, p'. split; [exact Heq|]. split; [exact Ha|].
  apply Hvals. vm_compute. repeat constructor; simpl; intuition discriminate.
Defined.

Lemma json_cache_values (c : cache) :
  JsMap.values (json_cache c) = map json_media (JsMap.values c).
Proof. unfold JsMap.values, json_cache. rewrite !map_map. reflexivity. Qed.

Lemma json_cache_keys (c : cache) : JsMap.keys (json_cache c) = JsMap.keys c.
Proof. unfold JsMap.keys, json_cache. rewrite map_map. reflexivity. Qed.

Lemma json_cache_ok (c : cache) : cache_ok c -> cache_ok (json_cache c).
Proof.
  intros (Hwf & Hk & Ht). unfold cache_ok, JsMap.wf, keyed in *.
  fold (JsMap.keys (json_cache c)). fold (JsMap.keys c) in Hwf.
  rewrite json_cache_keys. split; [exact Hwf|].
  unfold json_cache. rewrite !Forall_map. split.
  - eapply Forall_impl; [|exact Hk]. intros [k v] H. exact H.
  - eapply Forall_impl; [|exact Ht]. intros [k v] H. exact H.
Qed.

Lemma json_cache_stable (c : cache) :
  Forall (fun r => json_media r = r) (JsMap.values c) -> json_cache c = c.
Proof.
  unfold JsMap.values, json_cache. induction c as [|[k v] c IH]; simpl; intros H.
  - reflexivity.
  - inversion H as [|? ? Hv Hc]; subst. rewrite Hv. f_equal. now apply IH.
Qed.

(** X3. An export read back in Replace mode restores the session, whatever
    the state the import starts from: both caches come back entry for
    entry, in order, each record as [JSON] writes and reads it, that is
    with a duration or a discovery pass that is NaN or infinite turned
    into [null]; and so do the scroll count and the two discovery totals.
    When each of these numbers is finite, [null] or absent the caches
    come back as they were, and exporting again gives the same export. *)
Theorem export_replace_roundtrip (clock : nat -> Z) (st st2 : state) :
  caches_ok st ->
  exists st' res p',
    importJsonData (Returns (reparse (exportDataAsJson st))) true clock st2 =
      (st', Returns (res, p')) /\
    videoCache st' = json_cache (videoCache st) /\
    imageCache st' = json_cache (imageCache st) /\
    scrollCount st' = scrollCount st /\
    newlyDiscoveredVideos st' = newlyDiscoveredVideos st /\
    newlyDiscoveredImages st' = newlyDiscoveredImages st /\
    (json_stable st ->
     videoCache st' = videoCache st /\ imageCache st' = imageCache st /\
     exportDataAsJson st' = exportDataAsJson st).
Proof.
  intros [Hv Hi].
  destruct (importJsonData_replace_full (reparse (exportDataAsJson st))
              (JsMap.values (json_cache (videoCache st)))
              (JsMap.values (json_cache (imageCache st)))
              clock st2)
    as (st' & Heq & Hvc & Hic & _ & Hsc & Hnv & Hni).
  { cbn [reparse videos exportDataAsJson x_videos]. now rewrite json_cache_values. }
  { cbn [reparse images exportDataAsJson x_images]. now rewrite json_cache_values. }
  rewrite importItems_replace_values in Hvc, Hic by now apply json_cache_ok.
  cbn [reparse stats exportDataAsJson x_stats x_scrollCount x_newlyDiscoveredVideos
       x_newlyDiscoveredImages i_scrollCount i_newlyDiscoveredVideos
       i_newlyDiscoveredImages or_zero] in Hsc, Hnv, Hni.
  do 3 eexists. split; [exact Heq|].
  do 5 (split; [assumption|]).
  intros Hs. unfold json_stable in Hs. apply Forall_app in Hs. destruct Hs as [Hsv Hsi].
  rewrite (json_cache_stable _ Hsv) in Hvc. rewrite (json_cache_stable _ Hsi) in Hic.
  split; [assumption|]. split; [assumption|].
  unfold exportDataAsJson. now rewrite Hvc, Hic, Hsc, Hnv, Hni.
Qed.

(** X4. An export read back in Merge mode into the session it came from adds
    nothing: every item is skipped and both caches stay as they are; the
    discovery totals of the export are added on top of the session's, which
    doubles them. *)
Theorem export_merge_own (clock : nat -> Z) (st : state) :
  caches_ok st ->
  exists st' res p',
    importJsonData (Returns (reparse (exportDataAsJson st))) false clock st =
      (st', Returns (res, p')) /\
    videoCache st' = videoCache st /\
    imageCache st' = imageCache st /\
    videosAdded res = 0 /\ imagesAdded res = 0 /\
    videosSkipped res = JsMap.size (videoCache st) /\
    imagesSkipped res = JsMap.size (imageCache st) /\
    scrollCount st' = scrollCount st /\
    newlyDiscoveredVideos st' = 2 * newlyDiscoveredVideos st /\
    newlyDiscoveredImages st' = 2 * newlyDiscoveredImages st.
Proof.
  intros [Hv Hi].
  destruct (importJsonData_merge_eq (reparse (exportDataAsJson st))
              (map json_media (JsMap.values (videoCache st)))
              (map json_media (JsMap.values (imageCache st)))
              clock st eq_refl eq_refl)
    as (st' & Heq & Hvc & Hic & Hsc & _ & Hnv & Hni).
  assert (Hknown : forall c, cache_ok c ->
            Forall (fun v => truthy (id v) = true /\
                             In (id v) (JsMap.keys (l_cache (loop_from c))))
              (map json_media (JsMap.values c))).
  { intros c Hc. pose proof (cache_ok_ids c Hc) as Hids.
    destruct Hc as (_ & Hk & _). rewrite Forall_map, Forall_forall in *.
    intros v Hin. cbn [json_media id]. split; [now apply Hids|].
    cbn [loop_from l_cache]. rewrite <- (keyed_values c Hk). now apply in_map. }
  destruct (importItems_merge_known clock (map json_media (JsMap.values (videoCache st)))
              0 (loop_from (videoCache st)) (Hknown _ Hv)) as (V1 & V2 & V3).
  destruct (importItems_merge_known clock (map json_media (JsMap.values (imageCache st)))
              (List.length (map json_media (JsMap.values (videoCache st))))
              (loop_from (imageCache st)) (Hknown _ Hi)) as (I1 & I2 & I3).
  cbn [reparse stats exportDataAsJson x_stats x_newlyDiscoveredVideos
       x_newlyDiscoveredImages i_newlyDiscoveredVideos
       i_newlyDiscoveredImages or_zero] in Hnv, Hni.
  do 3 eexists. split; [exact Heq|].
  cbn [videosAdded imagesAdded videosSkipped imagesSkipped].
  rewrite Hvc, Hic, V1, V2, V3, I1, I2, I3.
  cbn [loop_from l_cache l_added l_skipped]. unfold JsMap.size, JsMap.values.
  rewrite !length_map. repeat split; try lia; assumption.
Qed.

(** ** The shape of the caches is an invariant *)

Lemma keeps_refl (P : state -> Prop) (st : state) : keeps P st st.
Proof. intros H. exact H. Qed.

Lemma keeps_trans (P : state -> Prop) (s1 s2 s3 : state) :
  keeps P s1 s2 -> keeps P s2 s3 -> keeps P s1 s3.
Proof. unfold keeps. auto. Qed.

Lemma keeps_in_refl {L} (P : state -> Prop) (sl : state * L) : keeps_in P sl sl.
Proof. intros H. exact H. Qed.

Lemma keeps_in_trans {L} (P : state -> Prop) (s1 s2 s3 : state * L) :
  keeps_in P s1 s2 -> keeps_in P s2 s3 -> keeps_in P s1 s3.
Proof. unfold keeps_in. auto. Qed.

Lemma keeps_lift {L A} (P : state -> Prop) (c : M state A) :
  preserves (keeps P) c -> preserves (keeps_in P) (@lift L A c).
Proof.
  intros H [s l]. unfold lift, keeps_in. simpl. specialize (H s).
  destruct (c s) as [s' r]. exact H.
Qed.

Lemma keeps_assign {L} (P : state -> Prop) (f : L -> L) :
  preserves (keeps_in P) (assign f).
Proof. intros [s l] H. exact H. Qed.

Lemma keeps_with_locals {L A} (P : state -> Prop) (init : L) (body : M (state * L) A) :
  preserves (keeps_in P) body -> preserves (keeps P) (with_locals init body).
Proof.
  intros H s. unfold with_locals. specialize (H (s, init)). unfold keeps_in in H.
  destruct (body (s, init)) as [[s' l] [a|e]]; exact H.
Qed.

Create HintDb keep.
#[local] Hint Resolve keeps_refl keeps_trans : keep.
#[local] Hint Resolve (@keeps_in_refl) (@keeps_in_trans) : keep.

Ltac keep_step :=
  first
    [ apply preserves_ret
    | apply preserves_lookup
    | apply preserves_get
    | apply preserves_throw
    | apply keeps_assign
    | apply preserves_when
    | apply preserves_try_catch
    | apply preserves_bind
    | apply keeps_lift
    | apply keeps_with_locals
    | apply preserves_forEach ].

(** Walks down a computation; the leaves are closed from the [keep]
    hints. *)
Ltac keep :=
  repeat first
    [ progress intros
    | solve [eauto with keep]
    | solve [unfold keeps, keeps_in in *; auto]
    | match goal with
      | |- preserves _ (if ?b then _ else _) => destruct b
      | |- preserves _ (match ?x with _ => _ end) => destruct x
      end
    | keep_step ].

Lemma NoDup_snoc_list {A} (l : list A) (x : A) :
  NoDup l -> ~ In x l -> NoDup (l ++ [x]).
Proof.
  intros Hnd Hx. apply NoDup_rev in Hnd.
  rewrite <- (rev_involutive (l ++ [x])).
  apply NoDup_rev. rewrite rev_app_distr. simpl. constructor; [|assumption].
  now rewrite <- in_rev.
Qed.

(** Appending a record the duplicate test let through keeps a cache
    sound. *)
Lemma sound_snoc (c : cache) (k : jsstr) (r : media) :
  cache_ok c -> urls_distinct c ->
  isCached c k (url r) = false -> id r = k -> truthy k = true ->
  cache_ok (c ++ [(k, r)]) /\ urls_distinct (c ++ [(k, r)]).
Proof.
  intros (Hwf & Hk & Ht) Hu Hc Hid Htr.
  unfold isCached in Hc. apply orb_false_iff in Hc. destruct Hc as [Hhas Hurl].
  apply has_false_iff in Hhas.
  repeat split.
  - unfold JsMap.wf, JsMap.keys in *. rewrite map_app. simpl.
    now apply NoDup_snoc_list.
  - unfold keyed. apply Forall_app. split; [assumption|]. now repeat constructor.
  - apply Forall_app. split; [assumption|]. now repeat constructor.
  - unfold urls_distinct, JsMap.values in *. rewrite !map_app. simpl.
    apply NoDup_snoc_list; [assumption|].
    intros Hin. rewrite map_map in Hin. apply in_map_iff in Hin.
    destruct Hin as [[k' v] [Hv Hin]]. simpl in Hv.
    assert (Hex : existsb (fun v0 => strict_eq (url v0) (url r)) (map snd c) = true).
    { apply existsb_exists. exists v. split.
      - now apply (in_map snd) in Hin.
      - rewrite Hv. apply strict_eq_refl. }
    unfold JsMap.values in Hurl. congruence.
Qed.

Lemma consoleError_sound (text : string) (st : state) :
  keeps caches_sound st (consoleError text st).
Proof.
  unfold keeps, caches_sound, caches_ok. now autorewrite with logged.
Qed.

Lemma logError_sound (message : string) :
  preserves (keeps caches_sound) (logError message).
Proof. intros st. apply consoleError_sound. Qed.

Lemma modify_consoleError_sound (text : string) :
  preserves (keeps caches_sound) (modify (consoleError text)).
Proof. intros st. apply consoleError_sound. Qed.

#[local] Hint Resolve logError_sound modify_consoleError_sound consoleError_sound : keep.

Lemma extractVideoData_sound (element : outcome (option video_surface)) :
  preserves (keeps caches_sound) (extractVideoData element).
Proof.
  intros st. destruct element as [[v|]|e]; try apply keeps_refl;
    [|apply consoleError_sound].
  rewrite extractVideoData_eq.
  destruct (video_empty v || isCached (videoCache st) (video_id v) (video_url v))
    eqn:E; [apply keeps_refl|].
  apply orb_false_iff in E. destruct E as [_ E].
  intros ([Hv Hi] & Huv & Hui). cbn [fst].
  destruct (sound_snoc (videoCache st) (video_id v) (videoData v (scrollCount st))
              Hv Huv E eq_refl eq_refl) as [H1 H2].
  split; [split; [exact H1 | exact Hi] | split; [exact H2 | exact Hui]].
Qed.

Lemma extractImageContainer_sound (tweetUrl : jsstr)
    (container : outcome image_candidate) :
  preserves (keeps_in caches_sound) (extractImageContainer tweetUrl container).
Proof.
  intros [st n]. destruct container as [c|e]; [|apply keeps_in_refl].
  rewrite extractImageContainer_eq.
  destruct (skipImage (ic_src c) ||
            isCached (imageCache st) (image_id tweetUrl c) (image_url c))
    eqn:E; [apply keeps_in_refl|].
  apply orb_false_iff in E. destruct E as [_ E].
  intros ([Hv Hi] & Huv & Hui). cbn [fst].
  destruct (sound_snoc (imageCache st) (image_id tweetUrl c)
              (imageData tweetUrl c (scrollCount st)) Hi Hui E eq_refl eq_refl)
    as [H1 H2].
  split; [split; [exact Hv | exact H1] | split; [exact Huv | exact H2]].
Qed.

#[local] Hint Resolve extractVideoData_sound extractImageContainer_sound : keep.

Lemma extractImageData_sound (element : outcome (option image_surface)) :
  preserves (keeps caches_sound) (extractImageData element).
Proof. unfold extractImageData. keep. Qed.

#[local] Hint Resolve extractImageData_sound : keep.

Lemma processContainer_sound (cfg : config) (c : container) :
  preserves (keeps_in caches_sound) (processContainer cfg c).
Proof. unfold processContainer. keep. Qed.

#[local] Hint Resolve processContainer_sound : keep.

Lemma detectMedia_sound (cfg : config) (tweetContainers : outcome (list container)) :
  preserves (keeps caches_sound) (detectMedia cfg tweetContainers).
Proof.
  unfold detectMedia. keep; apply preserves_modify; intros s H; exact H.
Qed.

(** What [trimCache] keeps is part of what it was given. *)
Lemma trimCache_sub (compare : jsstr * media -> jsstr * media -> jsnum)
    (maxSize : Z) (c : cache) :
  JsMap.wf c ->
  exists evicted, Permutation c (trimCache compare maxSize c ++ evicted).
Proof.
  intros Hwf. unfold trimCache.
  destruct (maxSize <? JsMap.size c); [|exists []; now rewrite app_nil_r].
  unfold JsMap.entries, slice0.
  set (sorted := array_sort compare c).
  set (n := Z.to_nat _).
  assert (Hperm : Permutation sorted c) by apply array_sort_perm.
  assert (Hnd : NoDup (map fst (firstn n sorted))).
  { rewrite <- firstn_map. apply NoDup_firstn.
    apply (Permutation_NoDup (l := map fst c)); [|exact Hwf].
    apply Permutation_map. now symmetry. }
  rewrite of_entries_nodup by assumption.
  exists (skipn n sorted). rewrite firstn_skipn. now symmetry.
Qed.

Lemma sound_sub (c kept evicted : cache) :
  Permutation c (kept ++ evicted) ->
  cache_ok c -> urls_distinct c -> cache_ok kept /\ urls_distinct kept.
Proof.
  intros Hp (Hwf & Hk & Ht) Hu.
  assert (Hmap : forall (B : Type) (f : jsstr * media -> B),
            NoDup (map f c) -> NoDup (map f kept)).
  { intros B f Hnd.
    apply (Permutation_NoDup (Permutation_map f Hp)) in Hnd.
    rewrite map_app in Hnd. now apply NoDup_app_remove_r in Hnd. }
  assert (Hall : forall (Q : jsstr * media -> Prop), Forall Q c -> Forall Q kept).
  { intros Q HQ. apply (Permutation_Forall Hp) in HQ.
    apply Forall_app in HQ. tauto. }
  repeat split.
  - now apply Hmap.
  - now apply Hall.
  - now apply Hall.
  - unfold urls_distinct, JsMap.values in *. rewrite map_map in *. now apply Hmap.
Qed.

Lemma checkCacheSize_sound (cfg : config) (st : state) :
  keeps caches_sound st (checkCacheSize cfg st).
Proof.
  intros ([Hv Hi] & Huv & Hui). unfold checkCacheSize.
  destruct (trimCache_sub byDuration (maxCacheSize cfg) (videoCache st) (proj1 Hv))
    as [ev Hpv].
  destruct (trimCache_sub byDiscovery (maxCacheSize cfg) (imageCache st) (proj1 Hi))
    as [ei Hpi].
  destruct (sound_sub _ _ _ Hpv Hv Huv) as [V1 V2].
  destruct (sound_sub _ _ _ Hpi Hi Hui) as [I1 I2].
  split; [split; [exact V1 | exact I1] | split; [exact V2 | exact I2]].
Qed.

Lemma keeps_same_caches (P : state -> Prop) (f : state -> state) :
  (forall s, P s -> P (f s)) -> preserves (keeps P) (modify f).
Proof. intros H s Hs. now apply H. Qed.

Lemma afterDelay_sound (cfg : config) (ev : pass_event) (vb ib : Z) :
  preserves (keeps caches_sound) (afterDelay cfg ev vb ib).
Proof.
  pose proof detectMedia_sound. pose proof checkCacheSize_sound.
  unfold afterDelay. keep; apply keeps_same_caches; intros s Hs;
    first [exact Hs | now apply checkCacheSize_sound].
Qed.

Lemma scrollPass_sound (cfg : config) (delay : Q) (ev : pass_event) :
  preserves (keeps_in caches_sound) (scrollPass cfg delay ev).
Proof.
  pose proof afterDelay_sound.
  unfold scrollPass, performScroll.
  keep; try (apply keeps_same_caches; intros s Hs; exact Hs).
Qed.

Lemma scrollStep_sound (cfg : config) (delay : Q) (events : list pass_event) :
  forall (sl : state * scroll_locals) (found : list Z),
    keeps caches_sound (fst sl) (run_state (scrollStep cfg delay events sl found)).
Proof.
  induction events as [|ev events IH]; intros sl found; rewrite scrollStep_eq;
    unfold scrollGuard;
    destruct (negb (isScrolling (fst sl))); try apply keeps_refl;
    destruct (maxScrollAttempts cfg <=? scrollCount (fst sl));
    try apply keeps_refl; try (intros H; exact H).
  cbv zeta. pose proof (scrollPass_sound cfg delay ev sl) as Hp.
  destruct (calls_again (snd (scrollPass cfg delay ev sl))).
  - eapply keeps_trans; [exact Hp|]. apply IH.
  - exact Hp.
Qed.

(** X5. A whole session keeps the caches sound: discovery, the scroll loop with
    its eviction step, and stop commands never leave a cache with a
    repeated key, a record filed under another id than its own, an empty
    id, or two records with one URL. *)
Theorem session_keeps_caches_sound (cfg : config) (env : analysis_env) (st : state) :
  caches_sound st ->
  caches_sound (fst (start cfg env st)) /\
  caches_sound (fst (detectMedia cfg (env_initial env) st)) /\
  caches_sound (checkCacheSize cfg st) /\
  caches_sound (stop st).
Proof.
  intros H. split; [|split; [|split]].
  - unfold start, startAnalysis. cbn [isProcessing set_isAnalyzing].
    destruct (isProcessing st); [exact H|].
    set (st1 := set_isScrolling true (set_isProcessing true (set_isAnalyzing true st))).
    set (st2 := if noStartTime st1 then set_startTime (Some (env_now env)) st1 else st1).
    assert (H2 : caches_sound st2).
    { subst st2. destruct (noStartTime st1); exact H. }
    clearbody st2. clear st1.
    destruct (negb (env_onTwitter env)); [exact H2|].
    pose proof (detectMedia_sound cfg (env_initial env) st2 H2) as H3.
    set (st3 := fst (detectMedia cfg (env_initial env) st2)) in *. clearbody st3.
    unfold infiniteScroll.
    set (st0 := set_stabilityCounter 0 (set_scrollCount 0 (set_isScrolling true st3))).
    assert (H0 : caches_sound st0) by exact H3.
    pose proof (scrollStep_sound cfg (env_scrollDelay env) (env_events env)
                  (st0, {| currentDelay := env_scrollDelay env; consecutiveErrors := 0 |})
                  [] H0) as Hr.
    destruct (run_status _); exact Hr.
  - now apply detectMedia_sound.
  - now apply checkCacheSize_sound.
  - exact H.
Qed.

Lemma caches_sound_initial : caches_sound initial_state.
Proof. repeat split; constructor. Qed.

Lemma session_keeps_caches_sound_witness :
  caches_sound (fst (start default_config (session sample_events) initial_state)).
Proof.
  pose proof (session_keeps_caches_sound default_config (session sample_events)
                initial_state ltac:(repeat split; constructor)) as H.
  exact (proj1 H).
Defined.

(** X6. Import keeps the shape of the caches, in either mode and whether it
    succeeds or is rejected: keys stay distinct, every record stays filed
    under its own id, and no id is empty. *)
Theorem import_keeps_shape (jsonInput : outcome import_data) (replace : bool)
    (clock : nat -> Z) (st : state) :
  caches_ok st -> caches_ok (fst (importJsonData jsonInput replace clock st)).
Proof.
  intros [Hv Hi].
  destruct jsonInput as [p|e];
    [|unfold caches_ok, importJsonData, try_catch, bind, lookup, logError, modify, throw;
      cbn [fst snd]; autorewrite with logged; split; assumption].
  destruct (videos p) as [vs|] eqn:Ev, (images p) as [is_|] eqn:Ei;
    try (rewrite importJsonData_malformed by auto; split; assumption).
  destruct replace.
  - destruct (importJsonData_replace_full p vs is_ clock st Ev Ei)
      as (st' & Heq & Hvc & Hic & _).
    rewrite Heq. cbn [fst]. unfold caches_ok. rewrite Hvc, Hic.
    split; apply importItems_ok, cache_ok_empty.
  - destruct (importJsonData_merge_eq p vs is_ clock st Ev Ei)
      as (st' & Heq & Hvc & Hic & _).
    rewrite Heq. cbn [fst]. unfold caches_ok. rewrite Hvc, Hic.
    split; apply importItems_ok; assumption.
Qed.

Lemma import_keeps_shape_witness :
  caches_ok (fst (importJsonData (Returns twin_payload) false sample_clock initial_state)).
Proof.
  apply (import_keeps_shape (Returns twin_payload) false sample_clock initial_state).
  repeat split; constructor.
Defined.

Lemma trimCache_again (compare : jsstr * media -> jsstr * media -> jsnum)
    (maxSize : Z) (c : cache) :
  JsMap.wf c -> 0 <= maxSize ->
  trimCache compare maxSize (trimCache compare maxSize c) = trimCache compare maxSize c.
Proof.
  intros Hwf Hmax.
  destruct (trimCache_size compare maxSize c Hwf Hmax) as (Hsize & _).
  unfold trimCache at 1.
  destruct (maxSize <? JsMap.size (trimCache compare maxSize c)) eqn:E;
    [|reflexivity].
  apply Z.ltb_lt in E. lia.
Qed.

(** X7. The eviction step only drops entries: what a cache holds afterwards it
    held before, under the same key, and everything else in the state is
    left alone.  With a capacity of at least zero a second eviction right
    after the first changes nothing. *)
Theorem eviction_only_drops (cfg : config) (st : state) :
  JsMap.wf (videoCache st) -> JsMap.wf (imageCache st) ->
  let st' := checkCacheSize cfg st in
  (forall e, In e (videoCache st') -> In e (videoCache st)) /\
  (forall e, In e (imageCache st') -> In e (imageCache st)) /\
  JsMap.wf (videoCache st') /\ JsMap.wf (imageCache st') /\
  scrollCount st' = scrollCount st /\
  stabilityCounter st' = stabilityCounter st /\
  isScrolling st' = isScrolling st /\
  (0 <= maxCacheSize cfg -> checkCacheSize cfg st' = st').
Proof.
  intros Hv Hi st'. subst st'. unfold checkCacheSize.
  cbn [videoCache imageCache set_videoCache set_imageCache scrollCount
       stabilityCounter isScrolling].
  destruct (trimCache_sub byDuration (maxCacheSize cfg) (videoCache st) Hv) as [ev Hpv].
  destruct (trimCache_sub byDiscovery (maxCacheSize cfg) (imageCache st) Hi) as [ei Hpi].
  assert (Hin : forall (c kept evicted : cache), Permutation c (kept ++ evicted) ->
            forall e, In e kept -> In e c).
  { intros c kept evicted Hp e He. apply (Permutation_in e (Permutation_sym Hp)).
    apply in_or_app. now left. }
  assert (Hwf : forall (c kept evicted : cache), Permutation c (kept ++ evicted) ->
            JsMap.wf c -> JsMap.wf kept).
  { intros c kept evicted Hp Hc. unfold JsMap.wf, JsMap.keys in *.
    apply (Permutation_NoDup (Permutation_map fst Hp)) in Hc.
    rewrite map_app in Hc. now apply NoDup_app_remove_r in Hc. }
  split; [exact (Hin _ _ _ Hpv)|]. split; [exact (Hin _ _ _ Hpi)|].
  split; [exact (Hwf _ _ _ Hpv Hv)|]. split; [exact (Hwf _ _ _ Hpi Hi)|].
  do 3 (split; [reflexivity|]).
  intros Hmax.
  rewrite (trimCache_again byDuration _ _ Hv Hmax).
  rewrite (trimCache_again byDiscovery _ _ Hi Hmax).
  destruct st; reflexivity.
Qed.

Lemma eviction_only_drops_witness :
  checkCacheSize two_config (checkCacheSize two_config full_state) =
  checkCacheSize two_config full_state.
Proof.
  assert (Hwf : JsMap.wf three_clips).
  { unfold JsMap.wf. vm_compute.
    repeat constructor; simpl; intuition discriminate. }
  apply (eviction_only_drops two_config full_state Hwf Hwf).
  vm_compute. discriminate.
Defined.

Lemma export_replace_roundtrip_witness :
  exists st' res p',
    importJsonData (Returns (reparse (exportDataAsJson found_state))) true
      sample_clock initial_state = (st', Returns (res, p')) /\
    videoCache st' = videoCache found_state /\
    imageCache st' = imageCache found_state /\
    exportDataAsJson st' = exportDataAsJson found_state.
Proof.
  assert (H : caches_ok found_state).
  { unfold caches_ok, cache_ok, JsMap.wf, keyed. vm_compute.
    repeat split; repeat constructor; simpl; intuition discriminate. }
  assert (Hs : json_stable found_state).
  { unfold json_stable. vm_compute. repeat constructor. }
  destruct (export_replace_roundtrip sample_clock found_state initial_state H)
    as (st' & res & p' & Heq & _ & _ & _ & _ & _ & Hsame).
  destruct (Hsame Hs) as (Hv & Hi & Hx).
  exists st', res, p'. split; [exact Heq|]. split; [exact Hv|]. split; [exact Hi|exact Hx].
Defined.

Lemma export_merge_own_witness :
  exists st' res p',
    importJsonData (Returns (reparse (exportDataAsJson found_state))) false
      sample_clock found_state = (st', Returns (res, p')) /\
    videosAdded res = 0 /\
    newlyDiscoveredVideos st' = 2 * newlyDiscoveredVideos found_state.
Proof.
  assert (H : caches_ok found_state).
  { unfold caches_ok, cache_ok, JsMap.wf, keyed. vm_compute.
    repeat split; repeat constructor; simpl; intuition discriminate. }
  destruct (export_merge_own sample_clock found_state H)
    as (st' & res & p' & Heq & _ & _ & Ha & _ & _ & _ & _ & Hn & _).
  exists st', res, p'. split; [exact Heq|]. split; [exact Ha | exact Hn].
Defined.

(** ** The filters and the totals of a discovery pass *)

Lemma detectMedia_skip_noop (cfg : config) (c : container)
    (before after : list container) (st : state) :
  (forall sl, processContainer cfg c sl = (sl, Returns tt)) ->
  detectMedia cfg (Returns (before ++ c :: after)) st =
  detectMedia cfg (Returns (before ++ after)) st.
Proof.
  intros Hp. unfold detectMedia, try_catch, bind, lookup.
  destruct (before ++ c :: after) as [|c1 l1] eqn:E1.
  { destruct before; discriminate. }
  rewrite <- E1. unfold with_locals.
  rewrite (forEach_skip _ c before after Hp).
  destruct (before ++ after) as [|c2 l2] eqn:E2; [|reflexivity].
  simpl. unfold modify, ret. simpl. now rewrite set_newlyDiscovered_same.
Qed.

Lemma processContainer_filtered (cfg : config) (c : container) (sl : state * detected) :
  filtered_out cfg c = true -> processContainer cfg c sl = (sl, Returns tt).
Proof.
  unfold filtered_out, processContainer. intros F.
  destruct (negb (includeReplies cfg) && c_isReply c); [reflexivity|].
  simpl in F. rewrite F. reflexivity.
Qed.

(** X9. A reply met while replies are excluded, or a retweet met while
    retweets are excluded, is as good as absent from the page: the pass has
    the result and the final state of the pass without it, whatever its
    media are. *)
Theorem filtered_container_ignored (cfg : config) (c : container)
    (before after : list container) (st : state) :
  (includeReplies cfg = false /\ c_isReply c = true) \/
  (includeRetweets cfg = false /\ c_isRetweet c = true) ->
  detectMedia cfg (Returns (before ++ c :: after)) st =
  detectMedia cfg (Returns (before ++ after)) st.
Proof.
  intros H. apply detectMedia_skip_noop. intros sl.
  apply processContainer_filtered. unfold filtered_out.
  destruct H as [[-> ->]|[-> ->]]; simpl; [reflexivity|apply orb_true_r].
Qed.

Lemma filtered_container_ignored_witness :
  detectMedia originals_config (Returns [reply_container]) initial_state =
  (initial_state, Returns no_media).
Proof.
  apply (filtered_container_ignored originals_config reply_container [] []
           initial_state).
  left. split; reflexivity.
Defined.

Lemma extractImageData_keeps_videos (vc : cache) (e : outcome (option image_surface)) :
  preserves (keeps (fun s => videoCache s = vc)) (extractImageData e).
Proof.
  intros s H. destruct (extractImageData_count e s) as (s' & n & E & _ & _ & Hv).
  rewrite E. simpl. congruence.
Qed.

Lemma extractVideoData_keeps_images (ic : cache) (e : outcome (option video_surface)) :
  preserves (keeps (fun s => imageCache s = ic)) (extractVideoData e).
Proof.
  intros s H. destruct (extractVideoData_count e s) as (s' & n & E & _ & _ & Hv).
  rewrite E. simpl. congruence.
Qed.

Lemma processContainer_videos_off (cfg : config) (c : container) (vc : cache) :
  detectVideos cfg = false ->
  preserves (keeps_in (fun s => videoCache s = vc)) (processContainer cfg c).
Proof.
  intros H. pose proof (extractImageData_keeps_videos vc).
  unfold processContainer. rewrite H. cbn [when]. keep.
Qed.

Lemma processContainer_images_off (cfg : config) (c : container) (ic : cache) :
  detectImages cfg = false ->
  preserves (keeps_in (fun s => imageCache s = ic)) (processContainer cfg c).
Proof.
  intros H. pose proof (extractVideoData_keeps_images ic).
  unfold processContainer. rewrite H. cbn [when]. keep.
Qed.

(** X10. With [detectVideos] off a discovery pass leaves the video cache as
    it is and counts no video, and with [detectImages] off it leaves the
    image cache as it is and counts no image, whatever the page holds. *)
Theorem switched_off_kind_untouched (cfg : config)
    (tweetContainers : outcome (list container)) (st : state) :
  (detectVideos cfg = false ->
   videoCache (fst (detectMedia cfg tweetContainers st)) = videoCache st /\
   exists d, snd (detectMedia cfg tweetContainers st) = Returns d /\ newVideos d = 0) /\
  (detectImages cfg = false ->
   imageCache (fst (detectMedia cfg tweetContainers st)) = imageCache st /\
   exists d, snd (detectMedia cfg tweetContainers st) = Returns d /\ newImages d = 0).
Proof.
  destruct (detectMedia_count cfg tweetContainers st) as (st' & d & E & Hv & Hi).
  split; intros H.
  - assert (K : preserves (keeps (fun s => videoCache s = videoCache st))
                  (detectMedia cfg tweetContainers)).
    { pose proof (fun c => processContainer_videos_off cfg c (videoCache st) H).
      unfold detectMedia. keep; apply preserves_modify; intros s Hs;
        autorewrite with logged; exact Hs. }
    specialize (K st eq_refl). rewrite E in *. cbn [fst snd] in *.
    split; [exact K|]. exists d. split; [reflexivity|]. rewrite Hv, K. lia.
  - assert (K : preserves (keeps (fun s => imageCache s = imageCache st))
                  (detectMedia cfg tweetContainers)).
    { pose proof (fun c => processContainer_images_off cfg c (imageCache st) H).
      unfold detectMedia. keep; apply preserves_modify; intros s Hs;
        autorewrite with logged; exact Hs. }
    specialize (K st eq_refl). rewrite E in *. cbn [fst snd] in *.
    split; [exact K|]. exists d. split; [reflexivity|]. rewrite Hi, K. lia.
Qed.

Lemma switched_off_kind_untouched_witness :
  imageCache (fst (detectMedia videos_only_config (Returns [sample_container])
                     initial_state)) = imageCache initial_state.
Proof.
  apply (switched_off_kind_untouched videos_only_config (Returns [sample_container])
           initial_state).
  reflexivity.
Defined.

Section CacheBlind.

Variable P : state -> Prop.
Hypothesis P_videoCache : forall c s, P s -> P (set_videoCache c s).
Hypothesis P_imageCache : forall c s, P s -> P (set_imageCache c s).
Hypothesis P_errs : forall e s, P s -> P (set_errs e s).

Lemma consoleError_blind (text : string) (s : state) : P s -> P (consoleError text s).
Proof.
  intros H. unfold consoleError, countPwa.
  destruct (pwaIntercepted s && shouldIgnoreError text); [now apply P_errs|exact H].
Qed.

Lemma logError_blind (message : string) : preserves (keeps P) (logError message).
Proof. intros s H. now apply consoleError_blind. Qed.

Lemma modify_consoleError_blind (text : string) :
  preserves (keeps P) (modify (consoleError text)).
Proof. intros s H. now apply consoleError_blind. Qed.

Lemma extractVideoData_blind (e : outcome (option video_surface)) :
  preserves (keeps P) (extractVideoData e).
Proof.
  intros s H. destruct e as [[v|]|m]; try exact H;
    [|now apply consoleError_blind].
  rewrite extractVideoData_eq.
  destruct (video_empty v || isCached (videoCache s) (video_id v) (video_url v));
    [exact H|]. cbn [fst]. now apply P_videoCache.
Qed.

Lemma extractImageContainer_blind (tweetUrl : jsstr) (x : outcome image_candidate) :
  preserves (keeps_in P) (extractImageContainer tweetUrl x).
Proof.
  intros [s n] H. destruct x as [c|m]; [|exact H].
  rewrite extractImageContainer_eq.
  destruct (skipImage (ic_src c) ||
            isCached (imageCache s) (image_id tweetUrl c) (image_url c));
    [exact H|]. unfold keeps_in. cbn [fst]. now apply P_imageCache.
Qed.

Lemma extractImageData_blind (e : outcome (option image_surface)) :
  preserves (keeps P) (extractImageData e).
Proof.
  pose proof extractImageContainer_blind.
  pose proof logError_blind. pose proof modify_consoleError_blind.
  unfold extractImageData. keep.
Qed.

Lemma processContainer_blind (cfg : config) (c : container) :
  preserves (keeps_in P) (processContainer cfg c).
Proof.
  pose proof extractImageData_blind. pose proof extractVideoData_blind.
  unfold processContainer. keep.
Qed.

End CacheBlind.

(** X11. Over a discovery pass the two discovery totals of the state grow by
    exactly what the two caches grow, and neither shrinks. *)
Theorem discovery_totals_follow_caches (cfg : config)
    (tweetContainers : outcome (list container)) (st : state) :
  let st' := fst (detectMedia cfg tweetContainers st) in
  newlyDiscoveredVideos st' - newlyDiscoveredVideos st =
    JsMap.size (videoCache st') - JsMap.size (videoCache st) /\
  newlyDiscoveredImages st' - newlyDiscoveredImages st =
    JsMap.size (imageCache st') - JsMap.size (imageCache st) /\
  newlyDiscoveredVideos st <= newlyDiscoveredVideos st' /\
  newlyDiscoveredImages st <= newlyDiscoveredImages st'.
Proof.
  cbv zeta.
  destruct (detectMedia_count cfg tweetContainers st) as (st' & d & E & Hv & Hi).
  pose proof (detectMedia_grows cfg tweetContainers st) as G.
  assert (T : newlyDiscoveredVideos st' = newlyDiscoveredVideos st + newVideos d /\
              newlyDiscoveredImages st' = newlyDiscoveredImages st + newImages d).
  { revert E. unfold detectMedia, try_catch, bind, lookup.
    destruct tweetContainers as [[|c cs]|e].
    - intros [= <- <-]. simpl. lia.
    - set (P := fun s => newlyDiscoveredVideos s = newlyDiscoveredVideos st /\
                         newlyDiscoveredImages s = newlyDiscoveredImages st).
      assert (K : preserves (keeps_in P) (forEach (processContainer cfg) (c :: cs))).
      { apply preserves_forEach; [apply keeps_in_refl | apply keeps_in_trans|].
        intros x. apply processContainer_blind; intros c0 s H; exact H. }
      specialize (K (st, no_media) (conj eq_refl eq_refl)).
      destruct (total_forEach (processContainer cfg) (c :: cs)
                  (processContainer_total cfg) (st, no_media)) as [[] Hr].
      unfold with_locals.
      destruct (forEach (processContainer cfg) (c :: cs) (st, no_media))
        as [[s1 d1] r]. simpl in Hr. subst r. destruct K as [K1 K2].
      cbn [fst] in K1, K2. unfold modify, ret. cbn [snd].
      intros [= <- <-]. simpl. lia.
    - intros [= <- <-]. unfold logError, modify. cbn [fst snd].
      autorewrite with logged. simpl. lia. }
  rewrite E in *. cbn [fst] in *. destruct T as [T1 T2].
  destruct (g_videoCache _ _ G) as [a Ha]. destruct (g_imageCache _ _ G) as [b Hb].
  assert (0 <= newVideos d).
  { rewrite Hv, Ha. unfold JsMap.size. rewrite length_app. lia. }
  assert (0 <= newImages d).
  { rewrite Hi, Hb. unfold JsMap.size. rewrite length_app. lia. }
  lia.
Qed.

(** ** The scroll loop: its bounds and its end *)

Lemma afterDelay_total (cfg : config) (ev : pass_event) (vb ib : Z) :
  total (afterDelay cfg ev vb ib).
Proof.
  intros st. rewrite afterDelay_eq. cbv zeta.
  destruct (stabilityThreshold cfg <=? _); eexists; reflexivity.
Qed.

(** One turn of the loop, by the outcome of [window.scrollBy]. *)
Lemma scrollPass_eq (cfg : config) (delay : Q) (ev : pass_event)
    (st : state) (l : scroll_locals) :
  let vb := JsMap.size (videoCache st) in
  let ib := JsMap.size (imageCache st) in
  let l' := {| currentDelay := Qmin (currentDelay l * (3 # 2)) 10000;
               consecutiveErrors := consecutiveErrors l + 1 |} in
  scrollPass cfg delay ev (st, l) =
  match ev_scrollBy ev with
  | Returns _ =>
      let st1 := set_scrollCount (scrollCount st + 1) st in
      let r := afterDelay cfg ev vb ib (if ev_stop ev then stop st1 else st1) in
      ((fst r, {| currentDelay := delay; consecutiveErrors := 0 |}), snd r)
  | Raises message =>
      let st1 :=
        consoleError
          ("Scroll error (attempt " ++ decimal_of (consecutiveErrors l + 1) ++ "): "
             ++ message) st in
      if 5 <=? consecutiveErrors l + 1
      then ((set_isScrolling false
               (consoleError
                  ("Critical error during scrolling: " ++
                   "Multiple scroll errors: " ++ message) st1), l'),
            Returns {| again := false; logged := None |})
      else
        let r := afterDelay cfg ev vb ib (if ev_stop ev then stop st1 else st1) in
        ((fst r, l'), snd r)
  end.
Proof.
  cbv zeta. unfold scrollPass, try_catch, bind, get. cbn [fst].
  rewrite performScroll_eq.
  destruct (ev_scrollBy ev) as [[]|m].
  - rewrite stop_request_eq. unfold lift. cbn [fst snd].
    match goal with
    | |- context [afterDelay ?c ?e ?v ?i ?s] =>
        destruct (afterDelay_total c e v i s) as [t Ht];
        destruct (afterDelay c e v i s) as [s' r]
    end.
    simpl in Ht. subst r. reflexivity.
  - cbv zeta. destruct (5 <=? consecutiveErrors l + 1); [reflexivity|].
    rewrite stop_request_eq. unfold lift. cbn [fst snd].
    match goal with
    | |- context [afterDelay ?c ?e ?v ?i ?s] =>
        destruct (afterDelay_total c e v i s) as [t Ht];
        destruct (afterDelay c e v i s) as [s' r]
    end.
    simpl in Ht. subst r. reflexivity.
Qed.

Lemma afterDelay_isAnalyzing (cfg : config) (ev : pass_event) (vb ib : Z) (b : bool) :
  preserves (keeps (fun s => isAnalyzing s = b)) (afterDelay cfg ev vb ib).
Proof.
  assert (H : forall c, preserves (keeps (fun s => isAnalyzing s = b)) (detectMedia cfg c)).
  { intros c s Hs. rewrite (g_isAnalyzing _ _ (detectMedia_grows cfg c s)). exact Hs. }
  unfold afterDelay. keep; apply keeps_same_caches; intros s Hs;
    autorewrite with logged; exact Hs.
Qed.

(** What one turn does to the pass counter, to the failure counter and to
    the flags. *)
Lemma scrollPass_counts (cfg : config) (delay : Q) (ev : pass_event)
    (st : state) (l : scroll_locals) :
  exists st' l' t,
    scrollPass cfg delay ev (st, l) = ((st', l'), Returns t) /\
    match ev_scrollBy ev with
    | Returns _ => scrollCount st' = scrollCount st + 1 /\ consecutiveErrors l' = 0
    | Raises _ =>
        scrollCount st' = scrollCount st /\
        consecutiveErrors l' = consecutiveErrors l + 1 /\
        (again t = true -> consecutiveErrors l' < 5) /\
        (5 <= consecutiveErrors l' -> again t = false /\ logged t = None)
    end /\
    (again t = false -> isScrolling st' = false) /\
    (logged t = None -> again t = false) /\
    (ev_stop ev = true -> logged t <> None ->
     isScrolling st' = false /\ isAnalyzing st' = false) /\
    (ev_stop ev = false \/ logged t = None -> isAnalyzing st' = isAnalyzing st).
Proof.
  assert (Hafter : forall st1,
            videoCache st1 = videoCache st -> imageCache st1 = imageCache st ->
            exists st' t,
              afterDelay cfg ev (JsMap.size (videoCache st))
                (JsMap.size (imageCache st)) (if ev_stop ev then stop st1 else st1) =
                (st', Returns t) /\
              scrollCount st' = scrollCount st1 /\
              (again t = false -> isScrolling st' = false) /\
              (logged t = None -> again t = false) /\
              (ev_stop ev = true -> logged t <> None ->
               isScrolling st' = false /\ isAnalyzing st' = false) /\
              (ev_stop ev = false \/ logged t = None ->
               isAnalyzing st' = isAnalyzing st1)).
  { intros st1 Hv Hi.
    set (stb := if ev_stop ev then stop st1 else st1).
    destruct (afterDelay_spec cfg ev (JsMap.size (videoCache st))
                (JsMap.size (imageCache st)) stb)
      as (st' & y & Heq & _ & _ & Hs & Hn & _).
    { subst stb. rewrite <- Hv. destruct (ev_stop ev); reflexivity. }
    { subst stb. rewrite <- Hi. destruct (ev_stop ev); reflexivity. }
    pose proof (afterDelay_isAnalyzing cfg ev (JsMap.size (videoCache st))
                  (JsMap.size (imageCache st)) (isAnalyzing stb) stb eq_refl) as Ha.
    rewrite Heq in Ha. cbn [fst] in Ha.
    eexists st', _. split; [exact Heq|]. cbn [again logged].
    split; [|split; [|split; [|split]]].
    - rewrite Hn. subst stb. destruct (ev_stop ev); reflexivity.
    - intros Hag. rewrite Hs, Hag. apply andb_false_r.
    - discriminate.
    - intros Hstop _. subst stb. rewrite Hstop in *. split.
      + rewrite Hs. reflexivity.
      + rewrite Ha. reflexivity.
    - intros [Hstop|Hnone]; [|discriminate].
      subst stb. rewrite Hstop in *. exact Ha. }
  rewrite scrollPass_eq. cbv zeta.
  destruct (ev_scrollBy ev) as [[]|m].
  - destruct (Hafter (set_scrollCount (scrollCount st + 1) st) eq_refl eq_refl)
      as (st' & t & Heq & Hn & Hag & Hlg & Hst & Hns).
    rewrite Heq. eexists st', _, t. cbn [fst snd consecutiveErrors].
    split; [reflexivity|]. split; [split; [exact Hn | reflexivity]|].
    split; [exact Hag|]. split; [exact Hlg|]. split; [exact Hst | exact Hns].
  - set (st1 := consoleError _ st).
    assert (H1v : videoCache st1 = videoCache st)
      by (subst st1; now autorewrite with logged).
    assert (H1i : imageCache st1 = imageCache st)
      by (subst st1; now autorewrite with logged).
    assert (H1n : scrollCount st1 = scrollCount st)
      by (subst st1; now autorewrite with logged).
    assert (H1a : isAnalyzing st1 = isAnalyzing st)
      by (subst st1; now autorewrite with logged).
    destruct (5 <=? consecutiveErrors l + 1) eqn:E5.
    + eexists _, _, _. split; [reflexivity|].
      cbn [consecutiveErrors again logged scrollCount set_isScrolling isScrolling
           isAnalyzing].
      autorewrite with logged.
      split; [|split; [reflexivity|split; [reflexivity|]]].
      * split; [exact H1n|]. split; [reflexivity|].
        split; [discriminate|]. intros _. split; reflexivity.
      * split; [intros _ H; now elim H|intros _; exact H1a].
    + apply Z.leb_gt in E5.
      destruct (Hafter st1 H1v H1i)
        as (st' & t & Heq & Hn & Hag & Hlg & Hst & Hns).
      rewrite Heq. eexists st', _, t. cbn [fst snd consecutiveErrors].
      split; [reflexivity|].
      split; [|split; [exact Hag|split; [exact Hlg|split; [exact Hst|]]]].
      * cbn [consecutiveErrors].
        split; [congruence|]. split; [reflexivity|]. split; [intros _; exact E5|].
        intros H5. lia.
      * intros H. rewrite (Hns H). exact H1a.
Qed.

(** Splits on the two tests at the top of [scrollStep]. *)
Ltac guard_cases st :=
  unfold scrollGuard; cbn [fst];
  destruct (isScrolling st) eqn:Es; cbn [negb];
  [destruct (maxScrollAttempts _ <=? scrollCount st) eqn:Em|].

Lemma scrollStep_resolved_off (cfg : config) (delay : Q) (events : list pass_event) :
  forall (sl : state * scroll_locals) (found : list Z),
    run_status (scrollStep cfg delay events sl found) = Resolved ->
    isScrolling (run_state (scrollStep cfg delay events sl found)) = false.
Proof.
  induction events as [|ev events IH]; intros [st l] found; rewrite scrollStep_eq;
    guard_cases st; cbn [run_state run_status]; try reflexivity; try discriminate;
    try (intros _; exact Es).
  destruct (scrollPass_counts cfg delay ev st l)
    as (st' & l' & t & Heq & _ & Hag & _).
  cbv zeta. rewrite Heq. cbn [fst snd calls_again].
  destruct (again t) eqn:Ea; [apply IH|].
  intros _. cbn [run_state]. now apply Hag.
Qed.

(** X12. Whenever the scroll loop resolves its promise, [isScrolling] is off:
    the test after the [await] in [startAnalysis] therefore always takes
    the return that reports a paused analysis, and the branch that sets the
    end time, reports completion and displays the results is never
    reached. *)
Theorem finished_run_reports_paused (cfg : config) (delay : Q)
    (events : list pass_event) (st : state) :
  run_status (infiniteScroll cfg delay events st) = Resolved ->
  finalStatus (run_state (infiniteScroll cfg delay events st)) = AnalysisPaused.
Proof.
  intros H. unfold finalStatus, infiniteScroll in *.
  now rewrite (scrollStep_resolved_off _ _ _ _ _ H).
Qed.

Lemma finished_run_reports_paused_witness :
  finalStatus
    (run_state (infiniteScroll short_config (11 # 2) sample_events initial_state)) =
  AnalysisPaused.
Proof.
  apply (finished_run_reports_paused short_config (11 # 2) sample_events initial_state).
  vm_compute. reflexivity.
Defined.

Lemma scrollStep_ceiling (cfg : config) (delay : Q) (events : list pass_event) (B : Z) :
  maxScrollAttempts cfg <= B ->
  forall (sl : state * scroll_locals) (found : list Z),
    scrollCount (fst sl) <= B ->
    scrollCount (fst sl) <= scrollCount (run_state (scrollStep cfg delay events sl found))
    <= B.
Proof.
  intros HB.
  induction events as [|ev events IH]; intros [st l] found Hc; rewrite scrollStep_eq;
    cbn [fst] in Hc; guard_cases st;
    cbn [run_state scrollCount set_isScrolling fst]; try lia.
  apply Z.leb_gt in Em.
  destruct (scrollPass_counts cfg delay ev st l)
    as (st' & l' & t & Heq & Hn & _).
  cbv zeta. rewrite Heq. cbn [fst snd calls_again].
  assert (Hst : scrollCount st <= scrollCount st' <= B).
  { revert Hn. destruct (ev_scrollBy ev); lia. }
  destruct (again t); cbn [run_state]; [|exact Hst].
  specialize (IH (st', l') (found ++ found_of (Returns t))). cbn [fst] in IH. lia.
Qed.

Lemma scrollStep_ends (cfg : config) (delay : Q) (events : list pass_event) :
  forall (st : state) (l : scroll_locals) (found : list Z),
    0 <= consecutiveErrors l < 5 ->
    5 * (maxScrollAttempts cfg - scrollCount st) - consecutiveErrors l
      <= Z.of_nat (List.length events) ->
    run_status (scrollStep cfg delay events (st, l) found) = Resolved.
Proof.
  induction events as [|ev events IH]; intros st l found He Hlen; rewrite scrollStep_eq;
    guard_cases st; cbn [run_status]; try reflexivity.
  - apply Z.leb_gt in Em. cbn [List.length Z.of_nat] in Hlen. lia.
  - apply Z.leb_gt in Em.
    destruct (scrollPass_counts cfg delay ev st l)
      as (st' & l' & t & Heq & Hn & _).
    cbv zeta. rewrite Heq. cbn [fst snd calls_again].
    destruct (again t) eqn:Ea; [|reflexivity].
    apply IH.
    + revert Hn. destruct (ev_scrollBy ev); [lia|]. intros (_ & Hl & Hlt & _).
      specialize (Hlt eq_refl). lia.
    + change (List.length (ev :: events)) with (S (List.length events)) in Hlen.
      rewrite Nat2Z.inj_succ in Hlen.
      revert Hn. destruct (ev_scrollBy ev); [lia|]. intros (Hc & Hl & _). lia.
Qed.

Lemma length_found_of (t : outcome turn) : (List.length (found_of t) <= 1)%nat.
Proof. destruct t as [[ag [y|]]|e]; simpl; lia. Qed.

Lemma scrollStep_found (cfg : config) (delay : Q) (events : list pass_event) :
  forall (sl : state * scroll_locals) (found : list Z),
    (List.length (run_found (scrollStep cfg delay events sl found))
     <= List.length found + List.length events)%nat.
Proof.
  induction events as [|ev events IH]; intros [st l] found; rewrite scrollStep_eq;
    guard_cases st; cbn [run_found List.length]; try lia.
  cbv zeta.
  pose proof (length_found_of (snd (scrollPass cfg delay ev (st, l)))) as H1.
  destruct (calls_again _).
  - etransitivity; [apply IH|]. rewrite length_app. lia.
  - cbn [run_found]. rewrite length_app. lia.
Qed.

(** X13. The scroll loop is bounded.  The pass counter never exceeds
    [maxScrollAttempts], no more turns are logged than the environment
    supplied, and whatever the page does in each turn the promise is
    resolved within [5 * maxScrollAttempts] turns: a turn either scrolls,
    which can happen [maxScrollAttempts] times, or fails to, which ends the
    loop at the fifth failure in a row. *)
Theorem scroll_loop_bounded (cfg : config) (delay : Q)
    (events : list pass_event) (st : state) :
  let r := infiniteScroll cfg delay events st in
  0 <= scrollCount (run_state r) <= Z.max 0 (maxScrollAttempts cfg) /\
  (List.length (run_found r) <= List.length events)%nat /\
  (5 * maxScrollAttempts cfg <= Z.of_nat (List.length events) ->
   run_status r = Resolved).
Proof.
  cbv zeta. unfold infiniteScroll. split; [|split].
  - apply (scrollStep_ceiling cfg delay events (Z.max 0 (maxScrollAttempts cfg))
             (Z.le_max_r _ _)
             (set_stabilityCounter 0 (set_scrollCount 0 (set_isScrolling true st)),
              {| currentDelay := delay; consecutiveErrors := 0 |}) []).
    cbn [fst scrollCount set_stabilityCounter set_scrollCount]. lia.
  - apply (scrollStep_found cfg delay events _ []).
  - intros H. apply scrollStep_ends; cbn [consecutiveErrors]; [lia|].
    cbn [scrollCount set_stabilityCounter set_scrollCount]. lia.
Qed.

Lemma scroll_loop_bounded_witness :
  run_status (infiniteScroll one_pass_config (11 # 2) five_failures initial_state) =
  Resolved.
Proof.
  apply (scroll_loop_bounded one_pass_config (11 # 2) five_failures initial_state).
  simpl. lia.
Defined.

Lemma scrollStep_failures (cfg : config) (delay : Q) (rest : list pass_event) :
  forall (fails : list pass_event) (st : state) (l : scroll_locals) (found : list Z),
    Forall (fun ev => exists message, ev_scrollBy ev = Raises message) fails ->
    0 <= consecutiveErrors l < 5 ->
    Z.of_nat (List.length fails) = 5 - consecutiveErrors l ->
    let r := scrollStep cfg delay (fails ++ rest) (st, l) found in
    run_status r = Resolved /\ scrollCount (run_state r) = scrollCount st /\
    (List.length (run_found r) < List.length found + List.length fails)%nat.
Proof.
  induction fails as [|ev fails IH]; intros st l found Hf He Hlen;
    [cbn [List.length Z.of_nat] in Hlen; lia|].
  cbv zeta. cbn [app]. rewrite scrollStep_eq.
  change (List.length (ev :: fails)) with (S (List.length fails)) in *.
  guard_cases st; cbn [run_state run_status run_found scrollCount set_isScrolling];
    try (repeat split; lia).
  inversion Hf as [|? ? [m Hm] Hf']; subst.
  destruct (scrollPass_counts cfg delay ev st l)
    as (st' & l' & t & Heq & Hn & _ & Hlg & _).
  rewrite Hm in Hn. destruct Hn as (Hc & Hl & Hlt & H5).
  cbv zeta. rewrite Heq. cbn [fst snd calls_again].
  rewrite Nat2Z.inj_succ in Hlen.
  destruct (again t) eqn:Ea.
  - specialize (Hlt eq_refl).
    destruct (IH st' l' (found ++ found_of (Returns t)) Hf') as (H1 & H2 & H3);
      [lia | lia |].
    split; [exact H1|]. split; [congruence|].
    pose proof (length_found_of (Returns t)). rewrite length_app in H3. lia.
  - cbn [run_state run_status run_found]. split; [reflexivity|]. split; [exact Hc|].
    rewrite length_app. pose proof (length_found_of (Returns t)) as H1.
    destruct (Z.le_gt_cases 5 (consecutiveErrors l')) as [Hge|Hlt5].
    + (* the fifth failure in a row: nothing is logged *)
      destruct (H5 Hge) as [_ Hnone]. destruct t as [ag lg]. simpl in Hnone.
      subst lg. simpl. lia.
    + (* the turn went on to detection, which ended the loop *)
      lia.
Qed.

(** X14. Five turns in a row in which [window.scrollBy] throws end the loop,
    whatever the settings and the page: the promise is resolved with
    [isScrolling] off, the pass counter is still 0, no later turn runs, and
    the fifth turn logs nothing because it never reaches detection. *)
Theorem five_scroll_failures_end_loop (cfg : config) (delay : Q)
    (fails rest : list pass_event) (st : state) :
  Forall (fun ev => exists message, ev_scrollBy ev = Raises message) fails ->
  List.length fails = 5%nat ->
  let r := infiniteScroll cfg delay (fails ++ rest) st in
  run_status r = Resolved /\
  isScrolling (run_state r) = false /\
  scrollCount (run_state r) = 0 /\
  (List.length (run_found r) <= 4)%nat /\
  r = infiniteScroll cfg delay fails st.
Proof.
  intros Hf Hlen. cbv zeta. unfold infiniteScroll.
  set (sl := (set_stabilityCounter 0 (set_scrollCount 0 (set_isScrolling true st)),
              {| currentDelay := delay; consecutiveErrors := 0 |})).
  destruct (scrollStep_failures cfg delay rest fails (fst sl) (snd sl) [] Hf)
    as (H1 & H2 & H3).
  { cbn [snd sl consecutiveErrors]. lia. }
  { cbn [snd sl consecutiveErrors]. rewrite Hlen. reflexivity. }
  change (fst sl, snd sl) with sl in *.
  split; [exact H1|]. split; [now apply scrollStep_resolved_off|].
  split; [exact H2|]. split; [cbn [List.length] in H3; lia|].
  destruct (scrollStep_failures cfg delay [] fails (fst sl) (snd sl) [] Hf)
    as (H1' & _).
  { cbn [snd sl consecutiveErrors]. lia. }
  { cbn [snd sl consecutiveErrors]. rewrite Hlen. reflexivity. }
  change (fst sl, snd sl) with sl in *. rewrite app_nil_r in H1'.
  clear H2 H3. revert H1 H1'. clearbody sl. generalize (@nil Z).
  clear Hf Hlen. revert sl.
  induction fails as [|ev fails IH]; intros [s l] found.
  - cbn [app]. rewrite (scrollStep_eq cfg delay []).
    destruct rest as [|ev rest]; [reflexivity|]. rewrite scrollStep_eq.
    destruct (scrollGuard cfg (fst (s, l))); [reflexivity|]. discriminate.
  - cbn [app]. rewrite !(scrollStep_eq cfg delay (ev :: _)).
    destruct (scrollGuard cfg (fst (s, l))); [reflexivity|]. cbv zeta.
    destruct (calls_again _); [apply IH|reflexivity].
Qed.

Lemma five_scroll_failures_end_loop_witness :
  run_status (infiniteScroll default_config (11 # 2)
                (five_failures ++ sample_events) initial_state) = Resolved.
Proof.
  apply (five_scroll_failures_end_loop default_config (11 # 2) five_failures
           sample_events initial_state).
  - repeat constructor; exists "scrollBy failed"; reflexivity.
  - reflexivity.
Defined.

(** X15. A stop command that arrives while a turn waits for its timer does
    not cancel the turn: detection still runs and its findings are logged,
    then the loop resolves at the next test of [isScrolling], without
    another scroll and whatever turns the environment would still
    supply. *)
Theorem stop_ends_loop_after_pass (cfg : config) (delay : Q) (ev : pass_event)
    (rest : list pass_event) (st : state) (l : scroll_locals) (found : list Z) :
  ev_stop ev = true ->
  let r := scrollStep cfg delay (ev :: rest) (st, l) found in
  run_status r = Resolved /\
  isScrolling (run_state r) = false /\
  r = scrollStep cfg delay [ev] (st, l) found /\
  (scrollGuard cfg st = None -> ev_scrollBy ev = Returns tt ->
   isAnalyzing (run_state r) = false /\
   scrollCount (run_state r) = scrollCount st + 1 /\
   exists st2 d,
     detectMedia cfg (ev_containers ev)
       (stop (set_scrollCount (scrollCount st + 1) st)) = (st2, Returns d) /\
     run_found r = found ++ [newVideos d + newImages d]).
Proof.
  intros Hstop. cbv zeta.
  assert (Hsame : scrollStep cfg delay (ev :: rest) (st, l) found =
                  scrollStep cfg delay [ev] (st, l) found).
  { rewrite !(scrollStep_eq cfg delay (ev :: _)). cbn [fst].
    destruct (scrollGuard cfg st); [reflexivity|]. cbv zeta.
    destruct (scrollPass_counts cfg delay ev st l)
      as (st' & l' & t & Heq & _ & _ & Hlg & Hst & _).
    rewrite Heq. cbn [fst snd calls_again].
    destruct (again t) eqn:Ea; [|reflexivity].
    assert (Hoff : isScrolling st' = false).
    { apply Hst; [exact Hstop|]. intros Hn. apply Hlg in Hn. congruence. }
    rewrite !(scrollStep_eq cfg delay _ (st', l')). unfold scrollGuard. cbn [fst].
    rewrite Hoff. reflexivity. }
  assert (Hres : run_status (scrollStep cfg delay [ev] (st, l) found) = Resolved).
  { rewrite scrollStep_eq. cbn [fst].
    destruct (scrollGuard cfg st); [reflexivity|]. cbv zeta.
    destruct (scrollPass_counts cfg delay ev st l)
      as (st' & l' & t & Heq & _ & _ & Hlg & Hst & _).
    rewrite Heq. cbn [fst snd calls_again].
    destruct (again t) eqn:Ea; [|reflexivity].
    assert (Hoff : isScrolling st' = false).
    { apply Hst; [exact Hstop|]. intros Hn. apply Hlg in Hn. congruence. }
    rewrite scrollStep_eq. unfold scrollGuard. cbn [fst]. rewrite Hoff. reflexivity. }
  rewrite Hsame. split; [exact Hres|].
  split; [now apply scrollStep_resolved_off|]. split; [reflexivity|].
  intros Hg Hscroll. rewrite scrollStep_eq. cbn [fst]. rewrite Hg. cbv zeta.
  rewrite scrollPass_eq. cbv zeta. rewrite Hscroll, Hstop.
  set (st1 := stop (set_scrollCount (scrollCount st + 1) st)).
  rewrite afterDelay_eq. cbv zeta.
  destruct (detectMedia_count cfg (ev_containers ev) st1) as (st2 & d & Ed & Hv & Hi).
  pose proof (detectMedia_grows cfg (ev_containers ev) st1) as G.
  rewrite Ed in *. cbn [fst] in *.
  assert (Hy : JsMap.size (videoCache st2) - JsMap.size (videoCache st) +
               (JsMap.size (imageCache st2) - JsMap.size (imageCache st)) =
               newVideos d + newImages d).
  { rewrite Hv, Hi. reflexivity. }
  rewrite Hy.
  assert (Han : isAnalyzing st2 = false) by (rewrite (g_isAnalyzing _ _ G); reflexivity).
  assert (Hsc : isScrolling st2 = false) by (rewrite (g_isScrolling _ _ G); reflexivity).
  assert (Hcn : scrollCount st2 = scrollCount st + 1)
    by (rewrite (g_scrollCount _ _ G); reflexivity).
  match goal with
  | |- context [if ?b then (set_isScrolling false ?s, _) else _] =>
      assert (Ha3 : isAnalyzing s = false /\ isScrolling s = false /\
                    scrollCount s = scrollCount st + 1)
        by (destruct (0 <? newVideos d + newImages d);
            cbn [isAnalyzing isScrolling scrollCount set_stabilityCounter
                 set_lastMediaDiscoveryScroll]; auto);
      remember s as s3 eqn:E3; clear E3
  end.
  destruct (stabilityThreshold cfg <=? stabilityCounter s3);
    cbn [fst snd calls_again again found_of logged run_state run_found].
  - destruct Ha3 as (A1 & A2 & A3). split; [exact A1|]. split; [exact A3|].
    exists st2, d. split; reflexivity.
  - rewrite scrollStep_eq. unfold scrollGuard.
    cbn [fst isScrolling checkCacheSize set_imageCache set_videoCache].
    destruct Ha3 as (A1 & A2 & A3). rewrite A2.
    cbn [negb run_state run_found isAnalyzing scrollCount].
    split; [exact A1|]. split; [exact A3|].
    exists st2, d. split; reflexivity.
Qed.

Lemma stop_ends_loop_after_pass_witness :
  run_status
    (scrollStep default_config (11 # 2)
       (turn_stopped [sample_container] :: sample_events)
       (set_isScrolling true initial_state,
        {| currentDelay := 11 # 2; consecutiveErrors := 0 |}) []) = Resolved.
Proof.
  apply (stop_ends_loop_after_pass default_config (11 # 2)
           (turn_stopped [sample_container]) sample_events
           (set_isScrolling true initial_state)
           {| currentDelay := 11 # 2; consecutiveErrors := 0 |} []).
  reflexivity.
Defined.

Lemma scrollStep_isAnalyzing (cfg : config) (delay : Q) (events : list pass_event) :
  Forall (fun ev => ev_stop ev = false) events ->
  forall (sl : state * scroll_locals) (found : list Z),
    isAnalyzing (run_state (scrollStep cfg delay events sl found)) = isAnalyzing (fst sl).
Proof.
  induction 1 as [|ev events Hev _ IH]; intros [st l] found; rewrite scrollStep_eq;
    guard_cases st; cbn [run_state isAnalyzing set_isScrolling fst]; try reflexivity.
  destruct (scrollPass_counts cfg delay ev st l)
    as (st' & l' & t & Heq & _ & _ & _ & _ & Hns).
  cbv zeta. rewrite Heq. cbn [fst snd calls_again].
  specialize (Hns (or_introl Hev)).
  destruct (again t); cbn [run_state]; [|exact Hns].
  rewrite IH. exact Hns.
Qed.

(** X16. A run that no stop command interrupts leaves [isAnalyzing] on, also
    once it has ended by itself with [isProcessing] and [isScrolling] off.
    The next press of the start/stop key therefore calls [stop()] and
    starts nothing: both caches and all counters stay as they are. *)
Theorem finished_run_still_analyzing (cfg : config) (env : analysis_env) (st : state) :
  Forall (fun ev => ev_stop ev = false) (env_events env) ->
  let st' := fst (start cfg env st) in
  isAnalyzing st' = true /\
  (snd (start cfg env st) = Resolved ->
   isProcessing st' = false /\ isScrolling st' = false) /\
  forall env',
    startStopKey cfg env' st' = stop st' /\
    videoCache (startStopKey cfg env' st') = videoCache st' /\
    imageCache (startStopKey cfg env' st') = imageCache st' /\
    scrollCount (startStopKey cfg env' st') = scrollCount st'.
Proof.
  intros Hev. cbv zeta.
  assert (Ha : isAnalyzing (fst (start cfg env st)) = true).
  { unfold start, startAnalysis. cbn [isProcessing set_isAnalyzing].
    destruct (isProcessing st); [reflexivity|].
    set (st1 := set_isScrolling true (set_isProcessing true (set_isAnalyzing true st))).
    set (st2 := if noStartTime st1 then set_startTime (Some (env_now env)) st1 else st1).
    assert (H2 : isAnalyzing st2 = true) by (subst st2; destruct (noStartTime st1); reflexivity).
    clearbody st2. clear st1.
    destruct (negb (env_onTwitter env)); [exact H2|].
    pose proof (g_isAnalyzing _ _ (detectMedia_grows cfg (env_initial env) st2)) as H3.
    set (st3 := fst (detectMedia cfg (env_initial env) st2)) in *. clearbody st3.
    unfold infiniteScroll.
    set (sl := (set_stabilityCounter 0 (set_scrollCount 0 (set_isScrolling true st3)),
                {| currentDelay := env_scrollDelay env; consecutiveErrors := 0 |})).
    pose proof (scrollStep_isAnalyzing cfg (env_scrollDelay env) (env_events env)
                  Hev sl []) as Hr.
    assert (Hsl : isAnalyzing (fst sl) = true) by (subst sl; simpl; congruence).
    clearbody sl. rewrite Hsl in Hr.
    destruct (run_status _); exact Hr. }
  split; [exact Ha|]. split.
  - unfold start, startAnalysis. cbn [isProcessing set_isAnalyzing].
    destruct (isProcessing st); [intros _; split; reflexivity|].
    destruct (negb (env_onTwitter env)); [intros _; split; reflexivity|].
    cbv zeta. destruct (run_status _); [discriminate|]. intros _. split; reflexivity.
  - intros env'. unfold startStopKey. rewrite Ha. repeat split.
Qed.

Lemma finished_run_still_analyzing_witness :
  isAnalyzing (fst (start short_config (session sample_events) initial_state)) = true.
Proof.
  apply (finished_run_still_analyzing short_config (session sample_events)
           initial_state).
  repeat constructor.
Defined.

(** ** generateUniqueId *)

Lemma to_int32_range (z : Z) : - 2 ^ 31 <= to_int32 z < 2 ^ 31.
Proof.
  unfold to_int32. pose proof (Z.mod_pos_bound (z + 2 ^ 31) (2 ^ 32) eq_refl). lia.
Qed.

Lemma to_int32_congr (a b : Z) : a mod 2 ^ 32 = b mod 2 ^ 32 -> to_int32 a = to_int32 b.
Proof.
  intros H. unfold to_int32.
  rewrite <- (Zplus_mod_idemp_l a), <- (Zplus_mod_idemp_l b), H. reflexivity.
Qed.

Lemma to_int32_mod (z : Z) : to_int32 z mod 2 ^ 32 = z mod 2 ^ 32.
Proof.
  unfold to_int32. rewrite Zminus_mod_idemp_l. f_equal. lia.
Qed.

Lemma to_int32_fixed (z : Z) : - 2 ^ 31 <= z < 2 ^ 31 -> to_int32 z = z.
Proof.
  intros H. unfold to_int32. rewrite Z.mod_small; lia.
Qed.

(** One turn of the loop multiplies by 31 and adds the character code,
    modulo [2^32]. *)
Lemma hash_step_eq (hash : Z) (c : ascii) :
  hash_step hash c = to_int32 (31 * hash + charCode c).
Proof.
  unfold hash_step. cbv zeta. rewrite Z.land_diag. apply to_int32_congr.
  rewrite Z.shiftl_mul_pow2 by lia.
  rewrite <- (Zplus_mod_idemp_l (_ - hash)), <- (Zminus_mod_idemp_l _ hash).
  rewrite to_int32_mod, <- Zmult_mod_idemp_l, to_int32_mod, Zmult_mod_idemp_l.
  rewrite Zminus_mod_idemp_l, Zplus_mod_idemp_l. f_equal. lia.
Qed.

Lemma hashCode_congr (s : string) :
  forall a b, a mod 2 ^ 32 = b mod 2 ^ 32 ->
              hashCode s a mod 2 ^ 32 = hashCode s b mod 2 ^ 32.
Proof.
  induction s as [|c s IH]; intros a b H; cbn [hashCode]; [exact H|].
  apply IH.
  rewrite <- (Zplus_mod_idemp_l (31 * a)), <- (Zmult_mod_idemp_r a), H,
    Zmult_mod_idemp_r, Zplus_mod_idemp_l. reflexivity.
Qed.

Lemma hash_string_mod (s : string) :
  forall h, hash_string s h mod 2 ^ 32 = hashCode s h mod 2 ^ 32.
Proof.
  induction s as [|c s IH]; intros h; cbn [hash_string hashCode]; [reflexivity|].
  rewrite IH. apply hashCode_congr. rewrite hash_step_eq. apply to_int32_mod.
Qed.

Lemma hash_string_range (s : string) :
  forall h, - 2 ^ 31 <= h < 2 ^ 31 -> - 2 ^ 31 <= hash_string s h < 2 ^ 31.
Proof.
  induction s as [|c s IH]; intros h H; cbn [hash_string]; [exact H|].
  apply IH. rewrite hash_step_eq. apply to_int32_range.
Qed.

(** X17. The hash behind an id is the polynomial hash with multiplier 31 of
    the combined text, wrapped to a signed 32-bit integer, and the id is
    [tma_] followed by the hexadecimal digits of its absolute value.  An
    absent, [null] or empty argument hashes like the empty string. *)
Theorem generateUniqueId_hash (url secondaryId : jsstr) (now : Z) :
  let h := to_int32 (hashCode (combinedString url secondaryId now) 0) in
  - 2 ^ 31 <= h < 2 ^ 31 /\
  hash_string (combinedString url secondaryId now) 0 = h /\
  generateUniqueId url secondaryId now = ("tma_" ++ hex_of h)%string /\
  generateUniqueId JUndefined secondaryId now = generateUniqueId (JStr "") secondaryId now /\
  generateUniqueId JNull secondaryId now = generateUniqueId (JStr "") secondaryId now /\
  generateUniqueId url JUndefined now = generateUniqueId url (JStr "") now /\
  generateUniqueId url JNull now = generateUniqueId url (JStr "") now.
Proof.
  cbv zeta.
  assert (H : hash_string (combinedString url secondaryId now) 0 =
              to_int32 (hashCode (combinedString url secondaryId now) 0)).
  { rewrite <- (to_int32_fixed (hash_string _ 0)).
    - apply to_int32_congr, hash_string_mod.
    - apply hash_string_range. lia. }
  split; [apply to_int32_range|]. split; [exact H|].
  split; [|repeat split].
  unfold generateUniqueId. cbv zeta.
  change (hash_string _ 0) with (hash_string (combinedString url secondaryId now) 0).
  now rewrite H.
Qed.

(** ** URLs *)

Lemma append_assoc3 (a b c : string) : ((a ++ b) ++ c = a ++ b ++ c)%string.
Proof. induction a as [|x a IH]; simpl; [reflexivity|now rewrite IH]. Qed.

Lemma prefix_iff (p s : string) :
  String.prefix p s = true <-> exists q, s = (p ++ q)%string.
Proof.
  revert s. induction p as [|a p IH]; intros s.
  - rewrite prefix_empty. split; [intros _; now exists s|reflexivity].
  - destruct s as [|b s]; cbn [String.prefix].
    + split; [discriminate|intros [q Hq]; discriminate].
    + destruct (ascii_dec a b) as [->|Hne].
      * rewrite IH. split; intros [q Hq]; exists q; simpl in *; congruence.
      * split; [discriminate|]. intros [q Hq]. simpl in Hq. congruence.
Qed.

Lemma includes_iff (s sub : string) :
  includes s sub = true <-> exists p q, s = (p ++ sub ++ q)%string.
Proof.
  split.
  - induction s as [|a s IH]; cbn [includes]; rewrite orb_true_iff.
    + intros [H|H]; [|discriminate]. apply prefix_iff in H as [q Hq].
      exists "", q. exact Hq.
    + intros [H|H].
      * apply prefix_iff in H as [q Hq]. exists "", q. exact Hq.
      * destruct (IH H) as (p & q & Hs). exists (String a p), q. simpl. now rewrite Hs.
  - intros (p & q & Hs). subst s. induction p as [|a p IH].
    + assert (H : String.prefix sub (sub ++ q) = true) by (apply prefix_iff; now exists q).
      simpl. destruct (sub ++ q)%string; cbn [includes]; now rewrite H.
    + cbn [append includes]. rewrite IH. apply orb_true_r.
Qed.

Lemma includes_trans (s x m : string) :
  includes s x = true -> includes x m = true -> includes s m = true.
Proof.
  rewrite !includes_iff. intros (p & q & ->) (p' & q' & ->).
  exists (p ++ p')%string, (q' ++ q)%string.
  now rewrite !append_assoc3.
Qed.

Lemma includes_app_l (a b m : string) :
  includes a m = true -> includes (a ++ b) m = true.
Proof.
  rewrite !includes_iff. intros (p & q & ->). exists p, (q ++ b)%string.
  now rewrite !append_assoc3.
Qed.

Lemma split_head_idem (c : ascii) (s : string) :
  split_head c (split_head c s) = split_head c s.
Proof.
  induction s as [|a s IH]; cbn [split_head]; [reflexivity|].
  destruct (Ascii.eqb a c) eqn:E; cbn [split_head]; [reflexivity|].
  now rewrite E, IH.
Qed.

Lemma split_head_app (c : ascii) (a q : string) :
  split_head c (a ++ String c q) = split_head c a.
Proof.
  induction a as [|x a IH]; cbn [append split_head].
  - now rewrite Ascii.eqb_refl.
  - destruct (Ascii.eqb x c); [reflexivity|now rewrite IH].
Qed.

Lemma upgradeImage_idem (s : string) : upgradeImage (upgradeImage s) = upgradeImage s.
Proof.
  unfold upgradeImage at 2 3.
  destruct (includes s "pbs.twimg.com/media/") eqn:E.
  - unfold upgradeImage.
    destruct (includes (split_head "?" s ++ "?format=jpg&name=4096x4096")
                "pbs.twimg.com/media/"); [|reflexivity].
    change "?format=jpg&name=4096x4096"
      with (String "?"%char "format=jpg&name=4096x4096").
    now rewrite split_head_app, split_head_idem.
  - unfold upgradeImage. rewrite E. reflexivity.
Qed.

(** X18. The quality upgrade of a media URL forgets the query string: two
    sources of one photo that differ only after the question mark get the
    same [url], the upgrade of an upgraded URL changes nothing, and once
    one of the two sources has been added the other is rejected as a
    duplicate, under whatever tweet it shows up. *)
Theorem image_size_variants_cached_once (base q1 q2 : string) :
  includes base "pbs.twimg.com/media/" = true ->
  upgradeImage (base ++ "?" ++ q1) = upgradeImage (base ++ "?" ++ q2) /\
  upgradeImage (base ++ "?" ++ q1) = (split_head "?"%char base ++ bestQuality)%string /\
  upgradeImage (upgradeImage (base ++ "?" ++ q1)) = upgradeImage (base ++ "?" ++ q1) /\
  forall (c1 c2 : image_candidate) (t1 t2 : jsstr) (st : state) (n : Z),
    ic_src c1 = (base ++ "?" ++ q1)%string ->
    ic_src c2 = (base ++ "?" ++ q2)%string ->
    skipImage (ic_src c1) = false ->
    isCached (imageCache st) (image_id t1 c1) (image_url c1) = false ->
    let sl1 := fst (extractImageContainer t1 (Returns c1) (st, n)) in
    JsMap.size (imageCache (fst sl1)) = JsMap.size (imageCache st) + 1 /\
    extractImageContainer t2 (Returns c2) sl1 = (sl1, Returns tt).
Proof.
  intros Hb.
  assert (Hup : forall q, upgradeImage (base ++ "?" ++ q) =
                          (split_head "?"%char base ++ bestQuality)%string).
  { intros q. unfold upgradeImage. rewrite (includes_app_l _ _ _ Hb).
    change ("?" ++ q)%string with (String "?"%char q).
    now rewrite split_head_app. }
  split; [now rewrite !Hup|]. split; [apply Hup|]. split; [apply upgradeImage_idem|].
  intros c1 c2 t1 t2 st n H1 H2 Hskip Hfresh. cbv zeta.
  rewrite extractImageContainer_eq, Hskip, Hfresh. cbn [orb fst imageCache set_imageCache].
  split; [apply size_snoc|].
  rewrite extractImageContainer_eq. cbn [imageCache set_imageCache].
  rewrite isCached_last; [now rewrite orb_true_r|].
  cbn [url imageData]. unfold image_url. now rewrite H1, H2, !Hup.
Qed.

Lemma image_size_variants_cached_once_witness :
  upgradeImage ("https://pbs.twimg.com/media/abc" ++ "?" ++ "format=jpg&name=small") =
  upgradeImage ("https://pbs.twimg.com/media/abc" ++ "?" ++ "format=jpg&name=large").
Proof.
  assert (H : includes "https://pbs.twimg.com/media/abc" "pbs.twimg.com/media/" = true)
    by (vm_compute; reflexivity).
  exact (proj1 (image_size_variants_cached_once _ _ _ H)).
Defined.

(** X19. The tests of the image filter for [video_thumb] and
    [amplify_video_thumb] never decide: every source they reject contains
    [video] and is rejected by the earlier test. *)
Theorem video_thumb_tests_redundant (imageSrc : string) :
  skipImage imageSrc = skipImage_short imageSrc.
Proof.
  unfold skipImage, skipImage_short.
  destruct (includes imageSrc "video") eqn:Ev.
  - now rewrite !orb_true_r.
  - assert (H1 : includes imageSrc "video_thumb" = false).
    { destruct (includes imageSrc "video_thumb") eqn:E; [|reflexivity].
      rewrite <- Ev. symmetry. eapply includes_trans; [exact E|reflexivity]. }
    assert (H2 : includes imageSrc "amplify_video_thumb" = false).
    { destruct (includes imageSrc "amplify_video_thumb") eqn:E; [|reflexivity].
      rewrite <- Ev. symmetry. eapply includes_trans; [exact E|reflexivity]. }
    rewrite H1, H2, !orb_false_r. reflexivity.
Qed.

(** X20. [buildFullUrl] gives the empty string for an absent or empty link
    and an absolute URL for any other; applied to its own result it changes
    nothing, and a relative link gets the same URL with or without its
    leading slash. *)
Theorem buildFullUrl_absolute (statusLink : jsstr) :
  (truthy statusLink = false -> buildFullUrl statusLink = "") /\
  (truthy statusLink = true -> startsWith (buildFullUrl statusLink) "http" = true) /\
  buildFullUrl (JStr (buildFullUrl statusLink)) = buildFullUrl statusLink /\
  forall s, s <> "" -> startsWith s "http" = false -> startsWith s "/" = false ->
            buildFullUrl (JStr s) = buildFullUrl (JStr ("/" ++ s)) /\
            buildFullUrl (JStr s) = ("https://twitter.com/" ++ s)%string.
Proof.
  split; [|split; [|split]].
  - intros H. unfold buildFullUrl. now rewrite H.
  - intros H. unfold buildFullUrl. rewrite H. cbn [negb].
    destruct (startsWith (or_empty statusLink) "http") eqn:E1; [exact E1|].
    destruct (startsWith (or_empty statusLink) "//"); [reflexivity|].
    destruct (startsWith (or_empty statusLink) "/"); reflexivity.
  - unfold buildFullUrl at 2 3.
    destruct (truthy statusLink) eqn:Ht; cbn [negb]; [|reflexivity].
    destruct (startsWith (or_empty statusLink) "http") eqn:E1.
    + unfold buildFullUrl. destruct statusLink as [| |s]; try discriminate.
      cbn [or_empty] in *. now rewrite Ht, E1.
    + destruct (startsWith (or_empty statusLink) "//"); [reflexivity|].
      destruct (startsWith (or_empty statusLink) "/"); reflexivity.
  - intros s Hs H1 H2. unfold buildFullUrl. cbn [or_empty truthy].
    assert (Ht : String.eqb s "" = false) by (now apply String.eqb_neq).
    rewrite Ht. cbn [negb]. rewrite H1.
    assert (H3 : startsWith s "//" = false).
    { destruct (startsWith s "//") eqn:E; [|reflexivity].
      unfold startsWith in *. apply prefix_iff in E as [q ->]. discriminate. }
    rewrite H3, H2.
    assert (H4 : String.prefix "//" (String "/"%char s) = false).
    { unfold startsWith in H2. cbn [String.prefix].
      destruct (ascii_dec "/" "/"); [exact H2|reflexivity]. }
    assert (H5 : String.prefix "http" (String "/"%char s) = false).
    { cbn [String.prefix]. destruct (ascii_dec "h" "/"); [discriminate|reflexivity]. }
    assert (H6 : String.prefix "/" (String "/"%char s) = true).
    { cbn [String.prefix]. destruct (ascii_dec "/" "/"); [apply prefix_empty|congruence]. }
    unfold startsWith. cbn [append String.eqb negb].
    rewrite H4, H5, H6. split; reflexivity.
Qed.

Lemma buildFullUrl_absolute_witness :
  startsWith (buildFullUrl (JStr "/user/status/1")) "http" = true.
Proof.
  apply (buildFullUrl_absolute (JStr "/user/status/1")). reflexivity.
Defined.
(** ** Numbers read from text *)

(** *** The sign of a rounded double *)

Lemma shr_1_nonneg (mrs : shr_record) : 0 <= shr_m mrs -> 0 <= shr_m (shr_1 mrs).
Proof.
  destruct mrs as [m r s]. cbn [shr_m]. intros H.
  destruct m as [|[p|p|]|p]; cbn; lia.
Qed.

Lemma iter_pos_inv {A} (P : A -> Prop) (f : A -> A) :
  (forall x, P x -> P (f x)) -> forall n x, P x -> P (iter_pos f n x).
Proof.
  intros Hf. induction n as [n IH|n IH|]; intros x Hx; cbn [iter_pos]; auto.
Qed.

Lemma shr_fexp_nonneg (m e : Z) (l : location) :
  0 <= m -> 0 <= shr_m (fst (shr_fexp 53 1024 m e l)).
Proof.
  intros H. unfold shr_fexp, shr.
  assert (H0 : 0 <= shr_m (shr_record_of_loc m l)).
  { destruct l as [|[]]; exact H. }
  destruct (fexp 53 1024 (Zdigits2 m + e) - e) as [|p|p]; cbn [fst]; try exact H0.
  apply (iter_pos_inv (fun mrs => 0 <= shr_m mrs)); [apply shr_1_nonneg|exact H0].
Qed.

Lemma round_nearest_even_nonneg (m : Z) (l : location) :
  0 <= m -> 0 <= round_nearest_even m l.
Proof.
  intros H. unfold round_nearest_even. destruct l as [|[]]; try lia.
  destruct (Z.even m); lia.
Qed.

(** Rounding a mantissa that is not negative gives a double that is not
    negative. *)
Lemma binary_round_aux_nonneg (m e : Z) (l : location) :
  0 <= m -> b64_signed (binary_round_aux 53 1024 false m e l) = true.
Proof.
  intros H. unfold binary_round_aux.
  pose proof (shr_fexp_nonneg m e l H) as H1.
  destruct (shr_fexp 53 1024 m e l) as [mrs' e']. cbn [fst] in H1.
  pose proof (shr_fexp_nonneg _ e' loc_Exact
                (round_nearest_even_nonneg _ (loc_of_shr_record mrs') H1)) as H2.
  destruct (shr_fexp 53 1024 _ e' loc_Exact) as [mrs'' e'']. cbn [fst] in H2.
  destruct (shr_m mrs'') as [|p|p]; [reflexivity| |lia].
  destruct (e'' <=? 1024 - 53); reflexivity.
Qed.

Lemma b64_decimal_nonneg (n : Z) (m : nat) : b64_signed (b64_decimal n m) = true.
Proof.
  unfold b64_decimal. destruct n as [|p|p]; try reflexivity.
  unfold SFdiv.
  destruct (SFdiv_core_binary 53 1024 (Z.pos p) 0 (Z.pos (Z.to_pos (10 ^ Z.of_nat m))) 0)
    as [[mz ez] lz] eqn:E.
  apply binary_round_aux_nonneg.
  unfold SFdiv_core_binary in E.
  match type of E with
  | context [Z.div_eucl ?a ?b] =>
      pose proof (Z.div_eucl_eq a b ltac:(lia)) as Hd;
      assert (Ha : 0 <= a);
      [|pose proof (Z_div_mod a b ltac:(lia)) as Hm; destruct (Z.div_eucl a b) as [q r]]
  end.
  { destruct (_ - _ - _) as [|s|s]; try lia. apply Z.shiftl_nonneg. lia. }
  injection E as <- _ _. destruct Hm as [Hq Hr]. nia.
Qed.

(** What [parseFloat] gives is NaN or not negative. *)
Lemma parseFloat_sign (s : string) :
  b64_isNaN (parseFloat s) = true \/ b64_signed (parseFloat s) = true.
Proof.
  unfold parseFloat. destruct (readDecimal s) as [[n m]|]; [right|left; reflexivity].
  apply b64_decimal_nonneg.
Qed.

Lemma b64_mul_nonneg (x y : spec_float) :
  b64_signed x = true -> b64_signed y = true -> b64_finite y = true ->
  (forall s, y <> S754_zero s) ->
  b64_signed (b64_mul x y) = true.
Proof.
  intros Hx Hy Hf Hz.
  destruct y as [sy|sy| |sy my ey]; try discriminate; [now elim (Hz sy)|].
  destruct x as [sx|sx| |sx mx ex]; try discriminate;
    cbn [b64_signed negb] in *; destruct sx, sy; try discriminate; try reflexivity.
  unfold b64_mul, SFmul. cbn [xorb]. now apply binary_round_aux_nonneg.
Qed.

Lemma binary_normalize_nonneg (m e : Z) :
  0 <= m -> b64_signed (binary_normalize 53 1024 m e false) = true.
Proof.
  intros H. destruct m as [|p|p]; [reflexivity| |lia].
  unfold binary_normalize, binary_round.
  destruct (shl_align p e _) as [mz ez]. now apply binary_round_aux_nonneg.
Qed.

Lemma b64_add_nonneg (x y : spec_float) :
  b64_signed x = true -> b64_signed y = true -> b64_signed (b64_add x y) = true.
Proof.
  intros Hx Hy.
  destruct x as [sx|sx| |sx mx ex]; try discriminate;
    destruct y as [sy|sy| |sy my ey]; try discriminate;
    cbn [b64_signed negb] in *; destruct sx, sy; try discriminate; try reflexivity.
  unfold b64_add, SFadd. cbn [cond_Zopp].
  apply binary_normalize_nonneg. lia.
Qed.

Lemma round_nonneg (x : Q) : (0 <= x)%Q -> 0 <= round x.
Proof.
  intros H. unfold round. change 0 with (Qfloor 0). apply Qfloor_resp_le. lra.
Qed.

Lemma inject_Z_nonneg (z : Z) : 0 <= z -> (0 <= inject_Z z)%Q.
Proof. intros H. unfold Qle. simpl. lia. Qed.

Lemma b64_value_nonneg (x : spec_float) : b64_signed x = true -> (0 <= b64_value x)%Q.
Proof.
  destruct x as [s|s| |s m e]; cbn [b64_signed b64_value]; try discriminate;
    try (intros _; apply Qle_refl).
  destruct s; [discriminate|]. intros _.
  destruct (0 <=? e) eqn:E.
  - apply Z.leb_le in E. apply inject_Z_nonneg.
    assert (0 < 2 ^ e) by (apply Z.pow_pos_nonneg; lia). nia.
  - unfold Qle. simpl. lia.
Qed.

Lemma mathRound_nonneg (x : spec_float) : b64_signed x = true -> nonneg (mathRound x).
Proof.
  intros H. pose proof (b64_value_nonneg x H) as Hv.
  destruct x as [s|s| |s m e]; cbn [b64_signed] in H; try discriminate;
    unfold mathRound, nonneg;
    try (apply inject_Z_nonneg; now apply round_nonneg).
  now destruct s.
Qed.

Lemma round_integer (x : Q) (n : Z) : (x == inject_Z n)%Q -> round x = n.
Proof.
  intros H. destruct (round_nearest x) as [H1 H2].
  assert (A : (inject_Z (round x) < inject_Z n + 1)%Q) by lra.
  assert (B : (inject_Z n < inject_Z (round x) + 1)%Q) by lra.
  change 1%Q with (inject_Z 1) in A, B. rewrite <- inject_Z_plus in A, B.
  rewrite <- Zlt_Qlt in A, B. lia.
Qed.

(** X21. An engagement count is never negative, whatever the text: a minus
    sign does not survive the clean-up. *)
Theorem parseEngagementCount_nonneg (text : string) :
  nonneg (parseEngagementCount text).
Proof.
  rewrite parseEngagementCount_eq. cbv zeta.
  destruct (parseFloat_sign (numberText text)) as [Hn|Hs].
  - rewrite Hn. cbn [nonneg]. apply Qle_refl.
  - destruct (b64_isNaN _); [cbn [nonneg]; apply Qle_refl|].
    repeat match goal with
           | |- context [if ?b then _ else _] => destruct b
           end;
      apply mathRound_nonneg; try exact Hs;
      (apply b64_mul_nonneg; [exact Hs|reflexivity|reflexivity|discriminate]).
Qed.

(** *** Integers in binary64 *)

Lemma digits2_pos_log2 (p : BinNums.positive) :
  Z.pos (digits2_pos p) = Z.log2 (Z.pos p) + 1.
Proof.
  induction p as [p IH|p IH|]; cbn [digits2_pos]; [| |reflexivity];
    rewrite Pos2Z.inj_succ, IH.
  - change (Z.pos p~1) with (2 * Z.pos p + 1). rewrite Z.log2_succ_double by lia. lia.
  - change (Z.pos p~0) with (2 * Z.pos p). rewrite Z.log2_double by lia. lia.
Qed.

Lemma digits2_bounds (p : BinNums.positive) :
  2 ^ (Z.pos (digits2_pos p) - 1) <= Z.pos p < 2 ^ Z.pos (digits2_pos p).
Proof.
  rewrite digits2_pos_log2. replace (Z.log2 (Z.pos p) + 1 - 1) with (Z.log2 (Z.pos p)) by lia.
  replace (Z.log2 (Z.pos p) + 1) with (Z.succ (Z.log2 (Z.pos p))) by lia.
  apply Z.log2_spec. lia.
Qed.

Lemma digits2_unique (p : BinNums.positive) (d : Z) :
  2 ^ (d - 1) <= Z.pos p < 2 ^ d -> Z.pos (digits2_pos p) = d.
Proof.
  intros H. rewrite digits2_pos_log2.
  assert (0 < d).
  { destruct (Z.le_gt_cases d 0) as [Hd|Hd]; [|exact Hd].
    assert (2 ^ d <= 1).
    { destruct (Z.eq_dec d 0) as [->|]; [simpl; lia|].
      rewrite Z.pow_neg_r by lia. lia. }
    lia. }
  assert (Z.log2 (Z.pos p) = d - 1); [|lia].
  apply Z.log2_unique; [lia|]. replace (Z.succ (d - 1)) with d by lia. exact H.
Qed.

Lemma iter_pos_nat {A} (f : A -> A) (n : BinNums.positive) (x : A) :
  iter_pos f n x = Nat.iter (Pos.to_nat n) f x.
Proof.
  revert x. induction n as [n IH|n IH|]; intros x; cbn [iter_pos].
  - rewrite !IH, Pos2Nat.inj_xI.
    replace (S (2 * Pos.to_nat n)) with (Pos.to_nat n + (Pos.to_nat n + 1))%nat by lia.
    rewrite !Nat.iter_add. reflexivity.
  - rewrite !IH, Pos2Nat.inj_xO.
    replace (2 * Pos.to_nat n)%nat with (Pos.to_nat n + Pos.to_nat n)%nat by lia.
    rewrite Nat.iter_add. reflexivity.
  - reflexivity.
Qed.

Lemma shr_1_even (m : Z) :
  0 < m ->
  shr_1 {| shr_m := 2 * m; shr_r := false; shr_s := false |} =
  {| shr_m := m; shr_r := false; shr_s := false |}.
Proof. destruct m as [|p|p]; [lia|reflexivity|lia]. Qed.

Lemma shr_exact (n : nat) (m : Z) :
  0 < m ->
  Nat.iter n shr_1 {| shr_m := m * 2 ^ Z.of_nat n; shr_r := false; shr_s := false |} =
  {| shr_m := m; shr_r := false; shr_s := false |}.
Proof.
  intros Hm. induction n as [|n IH].
  - cbn [Nat.iter]. now rewrite Z.mul_1_r.
  - rewrite Nat.iter_succ_r.
    replace (m * 2 ^ Z.of_nat (S n)) with (2 * (m * 2 ^ Z.of_nat n))
      by (rewrite Nat2Z.inj_succ, Z.pow_succ_r by lia; lia).
    rewrite shr_1_even; [exact IH|].
    apply Z.mul_pos_pos; [exact Hm|]. apply Z.pow_pos_nonneg; lia.
Qed.

(** Rounding a mantissa that stands for such an integer. *)
Lemma binary_round_aux_exact (M : BinNums.positive) (E : Z) (n : Z) :
  Z.pos (digits2_pos M) = 53 -> -52 <= E <= 0 -> 0 <= n ->
  binary_round_aux 53 1024 false (Z.pos M * 2 ^ n) (E - n) loc_Exact =
  S754_finite false M E.
Proof.
  intros HM HE Hn. unfold binary_round_aux.
  assert (Hshr : shr_fexp 53 1024 (Z.pos M * 2 ^ n) (E - n) loc_Exact =
                 ({| shr_m := Z.pos M; shr_r := false; shr_s := false |}, E)).
  { unfold shr_fexp, shr_record_of_loc.
    assert (Hd : Zdigits2 (Z.pos M * 2 ^ n) = 53 + n).
    { assert (Hp : 0 < Z.pos M * 2 ^ n).
      { apply Z.mul_pos_pos; [lia|]. now apply Z.pow_pos_nonneg. }
      destruct (Z.pos M * 2 ^ n) as [|p|p] eqn:Ep; try lia.
      cbn [Zdigits2]. apply digits2_unique. rewrite <- Ep.
      pose proof (digits2_bounds M) as HB. rewrite HM in HB.
      replace (53 + n - 1) with (52 + n) by lia.
      rewrite !Z.pow_add_r by lia.
      assert (0 < 2 ^ n) by now apply Z.pow_pos_nonneg.
      change (53 - 1) with 52 in HB. nia. }
    rewrite Hd. unfold fexp, emin.
    replace (Z.max (53 + n + (E - n) - 53) (3 - 1024 - 53) - (E - n)) with n by lia.
    unfold shr. destruct n as [|p|p]; [|  |lia].
    - rewrite Z.mul_1_r. f_equal. lia.
    - rewrite iter_pos_nat.
      replace (Z.pos p) with (Z.of_nat (Pos.to_nat p)) at 1 by apply positive_nat_Z.
      rewrite shr_exact by lia. f_equal. lia. }
  rewrite Hshr. cbn [shr_m loc_of_shr_record round_nearest_even].
  assert (Hshr2 : shr_fexp 53 1024 (Z.pos M) E loc_Exact =
                  ({| shr_m := Z.pos M; shr_r := false; shr_s := false |}, E)).
  { unfold shr_fexp, shr_record_of_loc. cbn [Zdigits2]. rewrite HM.
    unfold fexp, emin. replace (Z.max (53 + E - 53) (3 - 1024 - 53) - E) with 0 by lia.
    reflexivity. }
  rewrite Hshr2. cbn [shr_m].
  destruct (E <=? 1024 - 53) eqn:Ele; [reflexivity|]. apply Z.leb_gt in Ele. lia.
Qed.

Lemma small_log2 (v : Z) : 0 < v < 2 ^ 53 -> 0 <= Z.log2 v <= 52.
Proof.
  intros H. split; [apply Z.log2_nonneg|].
  assert (Z.log2 v < 53); [|lia]. apply Z.log2_lt_pow2; lia.
Qed.

Lemma mantissaOf_spec (v : Z) :
  0 < v < 2 ^ 53 ->
  Z.pos (mantissaOf v) = v * 2 ^ (52 - Z.log2 v) /\
  Z.pos (digits2_pos (mantissaOf v)) = 53.
Proof.
  intros H. pose proof (small_log2 v H) as Hl.
  pose proof (Z.log2_spec v ltac:(lia)) as Hs.
  assert (Hp : 0 < 2 ^ (52 - Z.log2 v)) by (apply Z.pow_pos_nonneg; lia).
  assert (Hm : Z.pos (mantissaOf v) = v * 2 ^ (52 - Z.log2 v)).
  { unfold mantissaOf. rewrite Z2Pos.id; [reflexivity|]. nia. }
  split; [exact Hm|]. apply digits2_unique. rewrite Hm.
  change (53 - 1) with 52.
  replace (2 ^ 52) with (2 ^ Z.log2 v * 2 ^ (52 - Z.log2 v))
    by (rewrite <- Z.pow_add_r by lia; f_equal; lia).
  replace (2 ^ 53) with (2 ^ Z.succ (Z.log2 v) * 2 ^ (52 - Z.log2 v))
    by (rewrite <- Z.pow_add_r by lia; f_equal; lia).
  nia.
Qed.

(** A mantissa and an exponent that stand for the integer [v] round to
    the double of [v]. *)
Lemma round_to_integer (v m e : Z) :
  0 < v < 2 ^ 53 -> e <= exponentOf v -> m = v * 2 ^ (- e) ->
  binary_round_aux 53 1024 false m e loc_Exact = b64_int v.
Proof.
  intros Hv He Hm. pose proof (small_log2 v Hv) as Hl.
  destruct (mantissaOf_spec v Hv) as [HM HD]. unfold exponentOf in He.
  replace m with (Z.pos (mantissaOf v) * 2 ^ (exponentOf v - e)).
  - replace e with (exponentOf v - (exponentOf v - e)) at 2 by lia.
    rewrite binary_round_aux_exact; unfold exponentOf; try lia; try exact HD.
    destruct v; try lia. reflexivity.
  - rewrite HM, Hm, <- Z.mul_assoc, <- Z.pow_add_r by (unfold exponentOf; lia).
    f_equal. f_equal. unfold exponentOf. lia.
Qed.

Lemma pos_iter_xO (p d : BinNums.positive) :
  Z.pos (Pos.iter xO p d) = Z.pos p * 2 ^ Z.pos d.
Proof.
  rewrite <- Z.shiftl_mul_pow2 by lia. cbn [Z.shiftl].
  apply (Pos.iter_swap_gen _ _ Z.pos xO (Z.mul 2)). reflexivity.
Qed.

(** The Number value of an integer literal below [2^53]. *)
Lemma b64_of_Z_small (v : Z) : 0 <= v < 2 ^ 53 -> b64_of_Z v = b64_int v.
Proof.
  intros Hv. destruct v as [|p|p]; [reflexivity| |lia].
  assert (Hv' : 0 < Z.pos p < 2 ^ 53) by lia.
  pose proof (small_log2 _ Hv') as Hl.
  unfold b64_of_Z, binary_normalize, binary_round.
  rewrite digits2_pos_log2. unfold fexp, emin.
  replace (Z.max (Z.log2 (Z.pos p) + 1 + 0 - 53) (3 - 1024 - 53))
    with (exponentOf (Z.pos p)) by (unfold exponentOf; lia).
  unfold shl_align. rewrite Z.sub_0_r.
  destruct (exponentOf (Z.pos p)) as [|d|d] eqn:E.
  - apply round_to_integer; [exact Hv'|lia|]. simpl. lia.
  - unfold exponentOf in E. lia.
  - apply round_to_integer; [exact Hv'|lia|]. rewrite pos_iter_xO.
    reflexivity.
Qed.

Lemma b64_int_value (v : Z) :
  0 < v < 2 ^ 53 ->
  b64_int v = S754_finite false (mantissaOf v) (exponentOf v) /\
  Z.pos (mantissaOf v) = v * 2 ^ (- exponentOf v) /\
  -52 <= exponentOf v <= 0.
Proof.
  intros Hv. pose proof (small_log2 v Hv). destruct (mantissaOf_spec v Hv) as [HM _].
  split; [destruct v; try lia; reflexivity|]. split; [|unfold exponentOf; lia].
  rewrite HM. f_equal. f_equal. unfold exponentOf. lia.
Qed.

(** The product of two integers is exact when it is below [2^53]. *)
Lemma b64_mul_int (a b : Z) :
  0 <= a -> 0 <= b -> a * b < 2 ^ 53 ->
  b64_mul (b64_int a) (b64_int b) = b64_int (a * b).
Proof.
  intros Ha Hb Hab.
  destruct (Z.eq_dec a 0) as [->|Ha0].
  { destruct b; reflexivity. }
  destruct (Z.eq_dec b 0) as [->|Hb0].
  { rewrite Z.mul_0_r. destruct a; reflexivity. }
  assert (Ha' : 0 < a < 2 ^ 53) by nia.
  assert (Hb' : 0 < b < 2 ^ 53) by nia.
  destruct (b64_int_value a Ha') as (Ea & Ma & Ra).
  destruct (b64_int_value b Hb') as (Eb & Mb & Rb).
  rewrite Ea, Eb. unfold b64_mul, SFmul. cbn [xorb].
  apply round_to_integer; [nia| |].
  - unfold exponentOf. pose proof (Z.log2_mul_below a b ltac:(lia) ltac:(lia)). lia.
  - rewrite Pos2Z.inj_mul, Ma, Mb.
    replace (- (exponentOf a + exponentOf b)) with (- exponentOf a + - exponentOf b) by lia.
    rewrite Z.pow_add_r by lia. ring.
Qed.

Lemma shl_align_value (m : BinNums.positive) (e e' : Z) :
  e' <= e -> Z.pos (fst (shl_align m e e')) = Z.pos m * 2 ^ (e - e').
Proof.
  intros H. unfold shl_align. destruct (e' - e) as [|d|d] eqn:E; cbn [fst]; try lia.
  - replace (e - e') with 0 by lia. lia.
  - rewrite pos_iter_xO. f_equal. f_equal. lia.
Qed.

(** The sum of two integers is exact when it is below [2^53]. *)
Lemma b64_add_int (a b : Z) :
  0 <= a -> 0 <= b -> a + b < 2 ^ 53 ->
  b64_add (b64_int a) (b64_int b) = b64_int (a + b).
Proof.
  intros Ha Hb Hab.
  destruct (Z.eq_dec a 0) as [->|Ha0].
  { destruct b; reflexivity. }
  destruct (Z.eq_dec b 0) as [->|Hb0].
  { rewrite Z.add_0_r. destruct a; reflexivity. }
  assert (Ha' : 0 < a < 2 ^ 53) by lia.
  assert (Hb' : 0 < b < 2 ^ 53) by lia.
  assert (Hs' : 0 < a + b < 2 ^ 53) by lia.
  destruct (b64_int_value a Ha') as (Ea & Ma & Ra).
  destruct (b64_int_value b Hb') as (Eb & Mb & Rb).
  rewrite Ea, Eb. unfold b64_add, SFadd. cbn [cond_Zopp].
  set (ez := Z.min (exponentOf a) (exponentOf b)).
  rewrite !shl_align_value by lia. rewrite Ma, Mb.
  assert (Hsum : a * 2 ^ (- exponentOf a) * 2 ^ (exponentOf a - ez) +
                 b * 2 ^ (- exponentOf b) * 2 ^ (exponentOf b - ez) =
                 (a + b) * 2 ^ (- ez)).
  { rewrite <- !Z.mul_assoc, <- !Z.pow_add_r by lia.
    replace (- exponentOf a + (exponentOf a - ez)) with (- ez) by lia.
    replace (- exponentOf b + (exponentOf b - ez)) with (- ez) by lia. ring. }
  rewrite Hsum.
  assert (Hpos : 0 < (a + b) * 2 ^ (- ez)).
  { apply Z.mul_pos_pos; [lia|]. apply Z.pow_pos_nonneg; lia. }
  assert (Hez : ez <= exponentOf (a + b)).
  { unfold exponentOf in *. pose proof (Z.log2_le_mono a (a + b) ltac:(lia)). lia. }
  destruct ((a + b) * 2 ^ (- ez)) as [|s|s] eqn:Es; try lia.
  unfold binary_normalize, binary_round.
  assert (Hd : Z.pos (digits2_pos s) + ez = Z.log2 (a + b) + 1).
  { assert (Z.pos (digits2_pos s) = Z.log2 (a + b) + 1 - ez); [|lia].
    apply digits2_unique. rewrite <- Es.
    pose proof (Z.log2_spec (a + b) ltac:(lia)) as Hl.
    pose proof (small_log2 _ Hs').
    replace (Z.log2 (a + b) + 1 - ez - 1) with (Z.log2 (a + b) + - ez) by lia.
    replace (Z.log2 (a + b) + 1 - ez) with (Z.succ (Z.log2 (a + b)) + - ez) by lia.
    rewrite !Z.pow_add_r by lia.
    assert (0 < 2 ^ (- ez)) by (apply Z.pow_pos_nonneg; lia). nia. }
  rewrite Hd. unfold fexp, emin.
  pose proof (small_log2 _ Hs').
  replace (Z.max (Z.log2 (a + b) + 1 - 53) (3 - 1024 - 53)) with (exponentOf (a + b))
    by (unfold exponentOf; lia).
  unfold shl_align.
  destruct (exponentOf (a + b) - ez) as [|d|d] eqn:E; try lia;
    (apply round_to_integer; [exact Hs'|exact Hez|]; now rewrite Es).
Qed.

(** The Number value of a string of digits below [2^53]. *)
Lemma b64_decimal_int (v : Z) : 0 <= v < 2 ^ 53 -> b64_decimal v 0 = b64_int v.
Proof.
  intros Hv. destruct v as [|p|p]; [reflexivity| |lia].
  assert (Hv' : 0 < Z.pos p < 2 ^ 53) by lia.
  pose proof (small_log2 _ Hv') as Hl.
  unfold b64_decimal. change (Z.to_pos (10 ^ Z.of_nat 0)) with 1%positive.
  unfold SFdiv, SFdiv_core_binary. cbn [xorb Zdigits2 digits2_pos].
  rewrite digits2_pos_log2. unfold fexp, emin.
  replace (Z.min (Z.max (Z.log2 (Z.pos p) + 1 + 0 - (1 + 0) - 53) (3 - 1024 - 53)) (0 - 0))
    with (exponentOf (Z.pos p) - 1) by (unfold exponentOf; lia).
  replace (0 - 0 - (exponentOf (Z.pos p) - 1)) with (1 - exponentOf (Z.pos p)) by lia.
  destruct (1 - exponentOf (Z.pos p)) as [|s|s] eqn:Es;
    try (unfold exponentOf in Es; lia).
  rewrite Z.shiftl_mul_pow2 by lia.
  pose proof (Z.div_eucl_eq (Z.pos p * 2 ^ Z.pos s) 1 ltac:(lia)) as Hq.
  pose proof (Z_div_mod (Z.pos p * 2 ^ Z.pos s) 1 ltac:(lia)) as Hr.
  destruct (Z.div_eucl (Z.pos p * 2 ^ Z.pos s) 1) as [q r].
  assert (r = 0) by lia. subst r.
  change (new_location 1 0) with loc_Exact.
  apply round_to_integer; [exact Hv'|lia|].
  replace (- (exponentOf (Z.pos p) - 1)) with (Z.pos s) by lia. lia.
Qed.

(** [Math.round] of an integer. *)
Lemma mathRound_int (v : Z) : 0 <= v < 2 ^ 53 -> mathRound (b64_int v) = JNum (inject_Z v).
Proof.
  intros Hv. destruct (Z.eq_dec v 0) as [->|Hv0]; [reflexivity|].
  assert (Hv' : 0 < v < 2 ^ 53) by lia.
  destruct (b64_int_value v Hv') as (Ev & Mv & Rv).
  rewrite Ev. unfold mathRound. f_equal. f_equal. apply round_integer.
  unfold b64_value. destruct (0 <=? exponentOf v) eqn:E.
  - apply Z.leb_le in E. assert (E0 : exponentOf v = 0) by lia.
    rewrite E0 in *. rewrite Mv. simpl. rewrite !Z.mul_1_r. reflexivity.
  - apply Z.leb_gt in E. unfold Qeq. cbn [Qnum Qden inject_Z].
    rewrite Mv, Z.mul_1_r.
    rewrite Pos2Z.inj_pow. rewrite Z2Pos.id by lia. reflexivity.
Qed.

(** ** convertDurationToSeconds *)

Lemma isDigit_value (c : ascii) : isDigit c = true -> 0 <= digitValue c <= 9.
Proof.
  unfold isDigit, digitValue. cbv zeta. rewrite andb_true_iff.
  intros [H1 H2]. apply Nat.leb_le in H1, H2. lia.
Qed.

Lemma isDigit_durationChar (c : ascii) :
  isDigit c = true -> durationChar c = true /\ Ascii.eqb c ":" = false.
Proof.
  intros H. unfold durationChar. rewrite H. split; [reflexivity|].
  destruct (Ascii.eqb_spec c ":") as [->|]; [discriminate|reflexivity].
Qed.

Lemma allDigits_clean (s : string) :
  allDigits s = true ->
  filterChars durationChar s = s /\ count_char ":" s = 0%nat.
Proof.
  induction s as [|c s IH]; cbn [allDigits filterChars count_char]; [auto|].
  rewrite andb_true_iff. intros [Hc Hs].
  destruct (isDigit_durationChar c Hc) as [H1 H2]. destruct (IH Hs) as [I1 I2].
  now rewrite H1, H2, I1, I2.
Qed.

Lemma split_on_single (c : ascii) (s : string) :
  count_char c s = 0%nat -> split_on c s = [s].
Proof.
  induction s as [|a s IH]; cbn [count_char split_on]; [reflexivity|].
  destruct (Ascii.eqb a c); [discriminate|]. intros H. now rewrite IH.
Qed.

Lemma split_on_app (c : ascii) (a b : string) :
  count_char c a = 0%nat -> split_on c (a ++ String c b) = a :: split_on c b.
Proof.
  induction a as [|x a IH]; cbn [count_char append split_on].
  - now rewrite Ascii.eqb_refl.
  - destruct (Ascii.eqb x c); [discriminate|]. intros H. now rewrite IH.
Qed.

Lemma length_split_on (c : ascii) (s : string) :
  List.length (split_on c s) = S (count_char c s).
Proof.
  induction s as [|a s IH]; cbn [count_char split_on]; [reflexivity|].
  destruct (Ascii.eqb a c); cbn [List.length]; [now rewrite IH|].
  destruct (split_on c s); cbn [List.length] in *; [discriminate|]. exact IH.
Qed.

Lemma count_colons_kept (s : string) :
  count_char ":" (filterChars durationChar s) = count_char ":" s.
Proof.
  induction s as [|a s IH]; cbn [filterChars count_char]; [reflexivity|].
  destruct (durationChar a) eqn:E; cbn [count_char]; [now rewrite IH|].
  destruct (Ascii.eqb_spec a ":") as [->|]; [discriminate|]. exact IH.
Qed.

Lemma readDigits_dots (s : string) (acc : Z) (n : nat) :
  onlyDots s = true -> readDigits s acc n = (acc, n, s).
Proof.
  destruct s as [|c s]; cbn [onlyDots readDigits]; [reflexivity|].
  rewrite andb_true_iff. intros [Hc _]. apply Ascii.eqb_eq in Hc. subst c. reflexivity.
Qed.

Lemma parseFloat_dots (s : string) : onlyDots s = true -> parseFloat s = S754_nan.
Proof.
  intros H. unfold parseFloat, readDecimal.
  rewrite (readDigits_dots s 0 0 H). cbn [Nat.eqb].
  destruct s as [|c s]; [reflexivity|].
  cbn [onlyDots] in H. apply andb_true_iff in H as [Hc Hs]. rewrite Hc.
  now rewrite (readDigits_dots s 0 0 Hs).
Qed.

Lemma noDigit_clean (s : string) :
  noDigit s = true -> count_char ":" s = 0%nat ->
  onlyDots (filterChars durationChar s) = true.
Proof.
  induction s as [|c s IH]; cbn [noDigit count_char filterChars]; [reflexivity|].
  rewrite andb_true_iff, negb_true_iff. intros [Hc Hs].
  unfold durationChar. rewrite Hc. cbn [orb].
  destruct (Ascii.eqb c ":"); [discriminate|]. cbn [orb plus]. intros Hn.
  destruct (Ascii.eqb c ".") eqn:Ed; cbn [onlyDots]; [rewrite Ed|]; auto.
Qed.

Lemma truthy_nonempty (s : string) : s <> "" -> truthy (JStr s) = true.
Proof. intros H. cbn [truthy]. now apply negb_true_iff, String.eqb_neq. Qed.

Lemma truthy_app (a b : string) (c : ascii) : truthy (JStr (a ++ String c b)) = true.
Proof. apply truthy_nonempty. destruct a; discriminate. Qed.

Lemma readDigits_all (s : string) :
  allDigits s = true ->
  forall acc n,
    readDigits s acc n = (digitsValue s acc, (n + String.length s)%nat, EmptyString).
Proof.
  induction s as [|c s IH]; cbn [allDigits readDigits digitsValue String.length];
    intros H acc n.
  - now rewrite Nat.add_0_r.
  - apply andb_true_iff in H as [Hc Hs]. rewrite Hc, (IH Hs).
    f_equal. f_equal. lia.
Qed.

Lemma digitsValue_nonneg (s : string) :
  allDigits s = true -> forall acc, 0 <= acc -> 0 <= digitsValue s acc.
Proof.
  induction s as [|c s IH]; cbn [allDigits digitsValue]; intros H acc Ha; [exact Ha|].
  apply andb_true_iff in H as [Hc Hs]. apply (IH Hs).
  pose proof (isDigit_value c Hc). lia.
Qed.

Lemma numeral_nonempty (s : string) : numeral s = true -> s <> "".
Proof.
  unfold numeral. rewrite andb_true_iff, negb_true_iff. intros [H _].
  now apply String.eqb_neq.
Qed.

(** What [parseFloat] makes of a string of digits. *)
Lemma parseFloat_numeral (s : string) :
  numeral s = true ->
  0 <= numeralValue s /\ parseFloat s = b64_decimal (numeralValue s) 0.
Proof.
  intros H. pose proof (numeral_nonempty s H) as Hne.
  unfold numeral in H. apply andb_true_iff in H as [_ Hs].
  split; [now apply digitsValue_nonneg|].
  unfold parseFloat, readDecimal. rewrite (readDigits_all s Hs 0 0).
  destruct s as [|c s]; [now elim Hne|]. reflexivity.
Qed.

Lemma parseFloat_int (s : string) :
  numeral s = true -> numeralValue s < 2 ^ 53 ->
  parseFloat s = b64_int (numeralValue s).
Proof.
  intros H Hv. destruct (parseFloat_numeral s H) as [H0 ->].
  apply b64_decimal_int. lia.
Qed.

Lemma b64_int_number (v : Z) : b64_isNaN (b64_int v) = false.
Proof. now destruct v. Qed.

(** [convertDurationToSeconds] gives NaN or a number that is not
    negative. *)
Lemma convertDurationToSeconds_sign (text : jsstr) :
  convertDurationToSeconds text = JNaN \/ nonneg (convertDurationToSeconds text).
Proof.
  assert (Hzero : nonneg (JNum 0)) by apply Qle_refl.
  assert (Hround : forall x, b64_isNaN x = true \/ b64_signed x = true ->
            mathRound x = JNaN \/ nonneg (mathRound x)).
  { intros x [Hx|Hx].
    - left. destruct x; try discriminate. reflexivity.
    - right. now apply mathRound_nonneg. }
  assert (Hscale : forall p k, b64_signed (b64_of_Z k) = true ->
            b64_finite (b64_of_Z k) = true -> (forall s, b64_of_Z k <> S754_zero s) ->
            b64_isNaN (b64_mul (parseFloat p) (b64_of_Z k)) = true \/
            b64_signed (b64_mul (parseFloat p) (b64_of_Z k)) = true).
  { intros p k H1 H2 H3. destruct (parseFloat_sign p) as [Hp|Hp].
    - left. destruct (parseFloat p); try discriminate. reflexivity.
    - right. now apply b64_mul_nonneg. }
  assert (Hsum : forall x y,
            b64_isNaN x = true \/ b64_signed x = true ->
            b64_isNaN y = true \/ b64_signed y = true ->
            b64_isNaN (b64_add x y) = true \/ b64_signed (b64_add x y) = true).
  { intros x y [Hx|Hx] [Hy|Hy].
    - left. destruct x; try discriminate. reflexivity.
    - left. destruct x; try discriminate. reflexivity.
    - left. destruct y; try discriminate. now destruct x.
    - right. now apply b64_add_nonneg. }
  unfold convertDurationToSeconds.
  destruct (negb (truthy text)); [now right|]. cbv zeta.
  destruct (split_on ":" _) as [|p0 [|p1 [|p2 [|p3 l]]]]; cbn [map]; try now right.
  - destruct (b64_isNaN (parseFloat p0)) eqn:E; [now right|].
    right. apply mathRound_nonneg.
    destruct (parseFloat_sign p0) as [H|H]; [congruence|exact H].
  - apply Hround, Hsum; [|apply parseFloat_sign].
    apply Hscale; [reflexivity|reflexivity|discriminate].
  - apply Hround, Hsum; [|apply parseFloat_sign].
    apply Hsum; apply Hscale; first [reflexivity|discriminate].
Qed.

(** X22. Readings of a clock.  For numerals [h], [m] and [s] the texts
    [s], [m:s] and [h:m:s] convert to the seconds they denote, as long as
    that number is below [2^53]; beyond, the sum is rounded, as in the
    last line, where the seconds denoted are 9007199254741021.  And a
    conversion that yields a number never yields a negative one. *)
Theorem convertDurationToSeconds_clock :
  (forall text,
     convertDurationToSeconds text = JNaN \/ nonneg (convertDurationToSeconds text)) /\
  (forall m s, numeral m = true -> numeral s = true ->
     60 * numeralValue m + numeralValue s < 2 ^ 53 ->
     convertDurationToSeconds (JStr s) = JNum (inject_Z (numeralValue s)) /\
     convertDurationToSeconds (JStr (m ++ ":" ++ s)) =
       JNum (inject_Z (60 * numeralValue m + numeralValue s)) /\
     forall h, numeral h = true ->
       3600 * numeralValue h + 60 * numeralValue m + numeralValue s < 2 ^ 53 ->
       convertDurationToSeconds (JStr (h ++ ":" ++ m ++ ":" ++ s)) =
         JNum (inject_Z (3600 * numeralValue h + 60 * numeralValue m + numeralValue s))) /\
  convertDurationToSeconds (JStr "150119987579017:1") = JNum 9007199254741020.
Proof.
  split; [exact convertDurationToSeconds_sign|]. split; [|vm_compute; reflexivity].
  intros m s Hm Hs Hlt.
  assert (Hone : forall d, numeral d = true ->
            0 <= numeralValue d /\
            filterChars durationChar d = d /\ count_char ":" d = 0%nat).
  { intros d Hd. destruct (parseFloat_numeral d Hd) as [H0 _].
    unfold numeral in Hd. apply andb_true_iff in Hd as [_ Hd].
    destruct (allDigits_clean d Hd) as [Hf Hc]. auto. }
  destruct (Hone m Hm) as (Vm & Fm & Cm). destruct (Hone s Hs) as (Vs & Fs & Cs).
  assert (C60 : b64_of_Z 60 = b64_int 60) by (apply b64_of_Z_small; lia).
  assert (C3600 : b64_of_Z 3600 = b64_int 3600) by (apply b64_of_Z_small; lia).
  split; [|split].
  - unfold convertDurationToSeconds.
    rewrite (truthy_nonempty s (numeral_nonempty s Hs)).
    cbn [negb or_empty]. cbv zeta. rewrite Fs, (split_on_single _ _ Cs).
    cbn [map]. rewrite parseFloat_int by (assumption || lia).
    rewrite b64_int_number. apply mathRound_int. lia.
  - unfold convertDurationToSeconds. change (":" ++ s)%string with (String ":"%char s).
    rewrite truthy_app. cbn [negb or_empty]. cbv zeta.
    rewrite filterChars_app. cbn [filterChars]. change (durationChar ":") with true.
    cbv iota. rewrite Fm, Fs, (split_on_app _ _ _ Cm), (split_on_single _ _ Cs).
    cbn [map]. rewrite !parseFloat_int by (assumption || lia). rewrite C60.
    rewrite b64_mul_int by lia. rewrite b64_add_int by lia.
    rewrite mathRound_int by lia. do 2 f_equal. lia.
  - intros h Hh Hlt3. destruct (Hone h Hh) as (Vh & Fh & Ch).
    unfold convertDurationToSeconds.
    change (":" ++ m ++ ":" ++ s)%string with (String ":"%char (m ++ String ":"%char s)).
    rewrite truthy_app. cbn [negb or_empty]. cbv zeta.
    rewrite filterChars_app. cbn [filterChars]. change (durationChar ":") with true.
    cbv iota. rewrite filterChars_app. cbn [filterChars].
    change (durationChar ":") with true. cbv iota.
    rewrite Fh, Fm, Fs, (split_on_app _ _ _ Ch), (split_on_app _ _ _ Cm),
      (split_on_single _ _ Cs).
    cbn [map]. rewrite !parseFloat_int by (assumption || lia). rewrite C60, C3600.
    rewrite !b64_mul_int by lia. rewrite !b64_add_int by lia.
    rewrite mathRound_int by lia. do 2 f_equal. lia.
Qed.

Lemma convertDurationToSeconds_clock_witness :
  convertDurationToSeconds (JStr "30") = JNum 30 /\
  convertDurationToSeconds (JStr ("1" ++ ":" ++ "30")) = JNum 90 /\
  convertDurationToSeconds (JStr ("2" ++ ":" ++ "1" ++ ":" ++ "30")) = JNum 7290.
Proof.
  assert (H1 : numeral "1" = true) by (vm_compute; reflexivity).
  assert (H2 : numeral "30" = true) by (vm_compute; reflexivity).
  assert (H3 : numeral "2" = true) by (vm_compute; reflexivity).
  destruct (proj1 (proj2 convertDurationToSeconds_clock) "1" "30" H1 H2
              ltac:(vm_compute; reflexivity)) as (E1 & E2 & E3).
  split; [exact E1|]. split; [exact E2|].
  exact (E3 "2" H3 ltac:(vm_compute; reflexivity)).
Defined.

Lemma b64_add_nan_r (x : spec_float) : b64_add x S754_nan = S754_nan.
Proof. now destruct x. Qed.

(** X23. Where the fallback to 0 does not reach.  A text with one colon one
    side of which holds no digit converts to NaN, not to 0, although a
    text without colon and without digit converts to 0, and so does any
    text with three colons or more. *)
Theorem convertDurationToSeconds_nan :
  (forall a b,
     count_char ":" a = 0%nat -> count_char ":" b = 0%nat ->
     noDigit a = true \/ noDigit b = true ->
     convertDurationToSeconds (JStr (a ++ ":" ++ b)) = JNaN) /\
  (forall a,
     count_char ":" a = 0%nat -> noDigit a = true ->
     convertDurationToSeconds (JStr a) = JNum 0) /\
  (forall text,
     (3 <= count_char ":" (or_empty text))%nat ->
     convertDurationToSeconds text = JNum 0).
Proof.
  split; [|split].
  - intros a b Ca Cb Hnd. unfold convertDurationToSeconds.
    change (":" ++ b)%string with (String ":"%char b).
    rewrite truthy_app. cbn [negb or_empty]. cbv zeta.
    rewrite filterChars_app. cbn [filterChars]. change (durationChar ":") with true.
    cbv iota.
    rewrite split_on_app by (now rewrite count_colons_kept).
    rewrite split_on_single by (now rewrite count_colons_kept).
    cbn [map]. destruct Hnd as [Ha|Hb].
    + rewrite (parseFloat_dots _ (noDigit_clean a Ha Ca)). reflexivity.
    + rewrite (parseFloat_dots _ (noDigit_clean b Hb Cb)).
      now rewrite b64_add_nan_r.
  - intros a Ca Ha. unfold convertDurationToSeconds.
    destruct (negb (truthy (JStr a))); [reflexivity|]. cbn [or_empty]. cbv zeta.
    rewrite split_on_single by (now rewrite count_colons_kept).
    cbn [map]. now rewrite (parseFloat_dots _ (noDigit_clean a Ha Ca)).
  - intros text H. unfold convertDurationToSeconds.
    destruct (negb (truthy text)); [reflexivity|]. cbv zeta.
    pose proof (length_split_on ":" (filterChars durationChar (or_empty text))) as Hl.
    rewrite count_colons_kept in Hl.
    destruct (split_on ":" _) as [|p0 [|p1 [|p2 [|p3 l]]]]; cbn [List.length] in Hl;
      try lia.
    reflexivity.
Qed.

Lemma convertDurationToSeconds_nan_witness :
  convertDurationToSeconds (JStr ("" ++ ":" ++ "30")) = JNaN.
Proof.
  apply (proj1 convertDurationToSeconds_nan "" "30"); [reflexivity|reflexivity|].
  left. reflexivity.
Defined.

(** ** Engagement counts that are whole numbers *)

Lemma allDigits_numeric (d : string) : allDigits d = true -> numeric d = true.
Proof.
  induction d as [|c d IH]; cbn [allDigits numeric]; [reflexivity|].
  rewrite andb_true_iff. intros [Hc Hd]. now rewrite Hc, IH.
Qed.

(** Counts written with digits only.  A string of digits followed by K,
    M or B gives the number it denotes times a thousand, a million or a
    billion, and a bare string of digits gives the number it denotes, as
    long as the result is below [2^53]; beyond, it is rounded, as in the
    last line. *)
Theorem parseEngagementCount_whole (d : string) :
  numeral d = true ->
  (numeralValue d < 2 ^ 53 ->
   parseEngagementCount d = JNum (inject_Z (numeralValue d))) /\
  (1000 * numeralValue d < 2 ^ 53 ->
   parseEngagementCount (d ++ "K") = JNum (inject_Z (1000 * numeralValue d))) /\
  (1000000 * numeralValue d < 2 ^ 53 ->
   parseEngagementCount (d ++ "M") = JNum (inject_Z (1000000 * numeralValue d))) /\
  (1000000000 * numeralValue d < 2 ^ 53 ->
   parseEngagementCount (d ++ "B") = JNum (inject_Z (1000000000 * numeralValue d))) /\
  parseEngagementCount "9007199254740993" = JNum 9007199254740992.
Proof.
  intros Hd. destruct (parseFloat_numeral d Hd) as [H0 _].
  assert (Hn : numeric d = true).
  { unfold numeral in Hd. apply andb_true_iff in Hd as [_ Hd].
    now apply allDigits_numeric. }
  assert (Hk : forall k, 0 < k < 2 ^ 53 -> k * numeralValue d < 2 ^ 53 ->
            parseFloat d = b64_int (numeralValue d) /\
            mathRound (b64_mul (parseFloat d) (b64_of_Z k)) =
            JNum (inject_Z (k * numeralValue d))).
  { intros k Hk Hlt.
    assert (Hp : parseFloat d = b64_int (numeralValue d))
      by (apply parseFloat_int; [exact Hd|nia]).
    split; [exact Hp|]. rewrite Hp, b64_of_Z_small by lia.
    rewrite b64_mul_int by lia. rewrite mathRound_int by lia. do 2 f_equal. lia. }
  split; [|split; [|split; [|split]]].
  - intros Hlt. rewrite parse_unsuffixed; [|exact Hn|].
    + rewrite parseFloat_int by assumption. apply mathRound_int. lia.
    + rewrite parseFloat_int by assumption. apply b64_int_number.
  - intros Hlt. destruct (Hk 1000 ltac:(lia) Hlt) as [Hp Hr].
    rewrite (parse_suffixed d "K" Hn); [exact Hr| |reflexivity|reflexivity].
    rewrite Hp. apply b64_int_number.
  - intros Hlt. destruct (Hk 1000000 ltac:(lia) Hlt) as [Hp Hr].
    rewrite (parse_suffixed d "M" Hn); [exact Hr| |reflexivity|reflexivity].
    rewrite Hp. apply b64_int_number.
  - intros Hlt. destruct (Hk 1000000000 ltac:(lia) Hlt) as [Hp Hr].
    rewrite (parse_suffixed d "B" Hn); [exact Hr| |reflexivity|reflexivity].
    rewrite Hp. apply b64_int_number.
  - vm_compute. reflexivity.
Qed.

Lemma parseEngagementCount_whole_witness :
  parseEngagementCount "42" = JNum 42 /\
  parseEngagementCount ("42" ++ "K") = JNum 42000.
Proof.
  assert (H : numeral "42" = true) by (vm_compute; reflexivity).
  destruct (parseEngagementCount_whole "42" H) as (H1 & H2 & _).
  split; [apply H1|apply H2]; vm_compute; reflexivity.
Defined.

(** ** extractTweetId *)

Lemma takeDigits_digits (s : string) : allDigits (fst (takeDigits s)) = true.
Proof.
  induction s as [|c s IH]; cbn [takeDigits]; [reflexivity|].
  destruct (isDigit c) eqn:E; cbn [fst allDigits]; [|reflexivity].
  now rewrite E, IH.
Qed.

Lemma matchHere_numeral (before after s digits : string) :
  matchHere before after s = Some digits -> numeral digits = true.
Proof.
  unfold matchHere. destruct (String.prefix before s); [|discriminate].
  pose proof (takeDigits_digits (drop (String.length before) s)) as H.
  destruct (takeDigits _) as [d rest]. cbn [fst] in H.
  destruct (negb (String.eqb d "")) eqn:E; cbn [andb]; [|discriminate].
  destruct (String.prefix after rest); [|discriminate].
  intros [= <-]. unfold numeral. now rewrite E, H.
Qed.

Lemma matchFirst_numeral (before after s digits : string) :
  matchFirst before after s = Some digits -> numeral digits = true.
Proof.
  induction s as [|c s IH]; cbn [matchFirst].
  - destruct (matchHere before after "") eqn:E; [|discriminate].
    intros [= <-]. eapply matchHere_numeral, E.
  - destruct (matchHere before after (String c s)) eqn:E; [|exact IH].
    intros [= <-]. eapply matchHere_numeral, E.
Qed.

Lemma matchFirst_later (before after s : string) (c : ascii) :
  matchFirst before after s <> None -> matchFirst before after (String c s) <> None.
Proof.
  intros H. cbn [matchFirst].
  destruct (matchHere before after (String c s)); [discriminate|exact H].
Qed.

(** Where the fourth pattern matches, the first matches one character
    later. *)
Lemma shortened_here (s : string) :
  matchHere "i/status/" "" s <> None ->
  exists c s', s = String c s' /\ matchHere "/status/" "" s' <> None.
Proof.
  unfold matchHere.
  destruct (String.prefix "i/status/" s) eqn:E; [|congruence].
  apply prefix_iff in E as [q ->]. intros H.
  exists "i"%char, ("/status/" ++ q)%string. split; [reflexivity|].
  assert (P : String.prefix "/status/" ("/status/" ++ q) = true)
    by (apply prefix_iff; now exists q).
  rewrite P.
  change (drop (String.length "/status/") ("/status/" ++ q)) with q.
  change (drop (String.length "i/status/") ("i/status/" ++ q)) with q in H.
  exact H.
Qed.

Lemma shortened_subsumed (s : string) :
  matchFirst "i/status/" "" s <> None -> matchFirst "/status/" "" s <> None.
Proof.
  induction s as [|c s IH]; cbn [matchFirst].
  - destruct (matchHere "i/status/" "" "") eqn:E; [|congruence].
    intros _. destruct (shortened_here "") as (c & s' & Hs & _); [congruence|discriminate].
  - destruct (matchHere "i/status/" "" (String c s)) eqn:E.
    + intros _. destruct (shortened_here (String c s)) as (c' & s' & Hs & Hm);
        [congruence|].
      injection Hs as <- <-.
      destruct (matchHere "/status/" "" (String c s)); [discriminate|].
      cbn [matchFirst] in *. destruct s as [|x s]; cbn [matchFirst];
        destruct (matchHere "/status/" "" _); congruence.
    + intros H. specialize (IH H).
      destruct (matchHere "/status/" "" (String c s)); [discriminate|exact IH].
Qed.

(** X24. What [extractTweetId] returns is a non-empty string of digits, so
    the test of [match[1]] never fails; and the fourth pattern,
    [i/status/], never decides, because wherever it matches the first
    pattern matches as well and is tried before. *)
Theorem extractTweetId_patterns (url : jsstr) :
  (forall tweetId, extractTweetId url = Some tweetId -> numeral tweetId = true) /\
  extractTweetId url =
    (if negb (truthy url) then None
     else firstMatch [("/status/", ""); ("statuses/", ""); ("status/", "/photo")]
            (or_empty url)) /\
  (truthy url = false -> extractTweetId url = None).
Proof.
  split; [|split].
  - intros tweetId. unfold extractTweetId.
    destruct (negb (truthy url)); [discriminate|].
    unfold tweetIdPatterns. cbn [firstMatch].
    repeat match goal with
           | |- context [matchFirst ?b ?a ?s] =>
               let E := fresh "E" in
               destruct (matchFirst b a s) eqn:E;
               [intros [= <-]; eapply matchFirst_numeral, E|]
           end.
    discriminate.
  - unfold extractTweetId. destruct (negb (truthy url)); [reflexivity|].
    unfold tweetIdPatterns. cbn [firstMatch].
    destruct (matchFirst "/status/" "" (or_empty url)) eqn:E1; [reflexivity|].
    destruct (matchFirst "statuses/" "" (or_empty url)); [reflexivity|].
    destruct (matchFirst "status/" "/photo" (or_empty url)); [reflexivity|].
    destruct (matchFirst "i/status/" "" (or_empty url)) eqn:E4; [|reflexivity].
    exfalso. apply (shortened_subsumed (or_empty url)); congruence.
  - intros H. unfold extractTweetId. now rewrite H.
Qed.

Lemma extractTweetId_patterns_witness :
  numeral "123" = true.
Proof.
  apply (proj1 (extractTweetId_patterns (JStr "https://x.com/i/status/123")) "123").
  vm_compute. reflexivity.
Defined.

(** ** throttle *)

Lemma throttle_spaced (delay : Z) (calls : list Z) :
  forall lastTime, spaced delay lastTime (throttle_runs delay calls lastTime).
Proof.
  induction calls as [|now calls IH]; intros lastTime; cbn [throttle_runs]; [exact I|].
  unfold throttled. destruct (delay <=? now - lastTime) eqn:E.
  - cbn [spaced]. split; [now apply Z.leb_le|apply IH].
  - apply IH.
Qed.

Lemma throttle_runs_incl (delay : Z) (calls : list Z) :
  forall lastTime, incl (throttle_runs delay calls lastTime) calls.
Proof.
  induction calls as [|now calls IH]; intros lastTime; cbn [throttle_runs];
    [apply incl_refl|].
  unfold throttled. destruct (delay <=? now - lastTime).
  - apply incl_cons; [now left|]. apply incl_tl, IH.
  - apply incl_tl, IH.
Qed.

(** X25. Whatever the clock readings of the calls, the wrapped function runs
    only at readings of calls that were made, the first run comes at a
    reading of at least [delay], since [lastTime] starts at 0, and any two
    runs in a row lie at least [delay] apart. *)
Theorem throttle_spacing (delay : Z) (calls : list Z) :
  spaced delay 0 (throttle_runs delay calls 0) /\
  incl (throttle_runs delay calls 0) calls.
Proof.
  split; [apply throttle_spaced|apply throttle_runs_incl].
Qed.

(** ** The text of a log at level error *)

Lemma prefix_past (c : ascii) (p s b : string) :
  ~ occurs c p -> p <> "" ->
  String.prefix p (s ++ String c b) = String.prefix p s.
Proof.
  revert s. induction p as [|y p IH]; intros s Hc Hne; [now elim Hne|].
  destruct s as [|x s]; cbn [append String.prefix].
  - destruct (ascii_dec y c) as [->|_]; [|reflexivity]. elim Hc. now left.
  - destruct (ascii_dec y x); [|reflexivity].
    destruct p as [|z p]; [now rewrite !prefix_empty|].
    apply IH; [|discriminate]. intros H. apply Hc. now right.
Qed.

(** A character that is not in the pattern separates the matches. *)
Lemma includes_separated (c : ascii) (p a b : string) :
  ~ occurs c p -> p <> "" ->
  includes (a ++ String c b) p = includes a p || includes b p.
Proof.
  intros Hc Hne. induction a as [|x a IH].
  - cbn [append]. cbn [includes]. 
    change (String c b) with ("" ++ String c b)%string at 1.
    rewrite prefix_past by assumption.
    destruct p; [now elim Hne|]. reflexivity.
  - cbn [append]. cbn [includes].
    change (String x (a ++ String c b)) with (String x a ++ String c b)%string.
    rewrite prefix_past by assumption. rewrite IH. now rewrite orb_assoc.
Qed.

Lemma prefix_short (c d : ascii) (q s : string) :
  d <> c ->
  String.prefix (q ++ String d "") (s ++ String c "") = String.prefix (q ++ String d "") s.
Proof.
  intros Hd. revert s. induction q as [|y q IH]; intros s.
  - destruct s as [|x s]; cbn [append String.prefix].
    + destruct (ascii_dec d c); [contradiction|reflexivity].
    + destruct (ascii_dec d x); [|reflexivity]. now rewrite !prefix_empty.
  - destruct s as [|x s]; cbn [append String.prefix].
    + destruct (ascii_dec y c); [|reflexivity]. destruct q; reflexivity.
    + destruct (ascii_dec y x); [apply IH|reflexivity].
Qed.

(** A character the pattern does not end with completes no match. *)
Lemma includes_completed (c d : ascii) (q a : string) :
  d <> c ->
  includes (a ++ String c "") (q ++ String d "") = includes a (q ++ String d "").
Proof.
  intros Hd. induction a as [|x a IH].
  - cbn [append includes].
    change (String c "") with ("" ++ String c "")%string at 1.
    rewrite prefix_short by assumption.
    destruct q; cbn; rewrite ?orb_false_r; reflexivity.
  - cbn [append]. cbn [includes].
    change (String x (a ++ String c "")) with (String x a ++ String c "")%string.
    rewrite prefix_short by assumption. now rewrite IH.
Qed.

Lemma toLowerCase_app (a b : string) :
  toLowerCase (a ++ b) = (toLowerCase a ++ toLowerCase b)%string.
Proof. induction a as [|c a IH]; simpl; [reflexivity|]. now rewrite IH. Qed.

Lemma string_app_assoc (a b c : string) : ((a ++ b) ++ c = a ++ (b ++ c))%string.
Proof. induction a as [|x a IH]; simpl; [reflexivity|]. now rewrite IH. Qed.

(** A pattern without blank matches the text [log] prints where it
    matches the message. *)
Lemma decorated_plain (p before m : string) :
  ~ occurs " " p -> p <> "" ->
  includes "color: #f4212e" p = false ->
  includes (before ++ "] ") p = false ->
  includes (before ++ "] " ++ m ++ " color: #f4212e") p = includes m p.
Proof.
  intros Hsp Hne Hcol Hbefore.
  change (before ++ "] ")%string with (before ++ "]" ++ String " " "")%string in Hbefore.
  rewrite <- string_app_assoc in Hbefore.
  rewrite includes_separated in Hbefore by assumption.
  apply orb_false_iff in Hbefore. destruct Hbefore as [Hb _].
  change (before ++ "] " ++ m ++ " color: #f4212e")%string
    with (before ++ "]" ++ String " " (m ++ String " " "color: #f4212e"))%string.
  rewrite <- string_app_assoc.
  rewrite includes_separated by assumption. rewrite Hb. cbn [orb].
  rewrite includes_separated by assumption. rewrite Hcol. apply orb_false_r.
Qed.

(** The pattern with blanks. *)
Lemma decorated_spaced (before m : string) :
  let p := "removing unpermitted intrinsics" in
  includes (before ++ "] ") p = false ->
  includes (before ++ "] " ++ m ++ " color: #f4212e") p = includes m p.
Proof.
  intros p Hbefore.
  assert (Hne : p <> "") by discriminate.
  assert (Hc : forall c, negb (includes p (String c "")) = true -> ~ occurs c p).
  { intros c H. apply includes_char_false. now apply negb_true_iff. }
  change (before ++ "] ")%string with (before ++ String "]" " ")%string in Hbefore.
  rewrite (includes_separated "]") in Hbefore by (auto; now apply Hc).
  apply orb_false_iff in Hbefore. destruct Hbefore as [Hb _].
  change (before ++ "] " ++ m ++ " color: #f4212e")%string
    with (before ++ String "]" (String " " (m ++ " color: #f4212e")))%string.
  rewrite (includes_separated "]") by (auto; now apply Hc).
  rewrite Hb. cbn [orb].
  assert (Hlead : forall w, includes (String " " w) p = includes w p).
  { intros w. cbn [includes]. subst p. cbn [String.prefix].
    destruct (ascii_dec "r" " "); [discriminate|reflexivity]. }
  rewrite Hlead.
  change (m ++ " color: #f4212e")%string
    with (m ++ " color" ++ String ":" " #f4212e")%string.
  rewrite <- string_app_assoc.
  rewrite (includes_separated ":") by (auto; now apply Hc).
  change (includes " #f4212e" p) with false. rewrite orb_false_r.
  change (m ++ " color")%string with (m ++ " co" ++ String "l" "or")%string.
  rewrite <- string_app_assoc.
  rewrite (includes_separated "l") by (auto; now apply Hc).
  change (includes "or" p) with false. rewrite orb_false_r.
  change (m ++ " co")%string
    with (m ++ String " " "" ++ String "c" "" ++ String "o" "")%string.
  rewrite <- !string_app_assoc.
  subst p.
  change "removing unpermitted intrinsics"
    with ("removing unpermitted intrinsic" ++ String "s" "")%string.
  rewrite !includes_completed by discriminate. reflexivity.
Qed.

Lemma existsb_false {A} (f : A -> bool) (l : list A) :
  existsb f l = false -> forall x, In x l -> f x = false.
Proof.
  intros H x Hx. destruct (f x) eqn:E; [|reflexivity].
  rewrite <- H. symmetry. apply existsb_exists. now exists x.
Qed.

Lemma existsb_same {A} (f g : A -> bool) (l : list A) :
  (forall x, In x l -> f x = g x) -> existsb f l = existsb g l.
Proof.
  induction l as [|a l IH]; intros H; cbn [existsb]; [reflexivity|].
  rewrite (H a) by now left. rewrite IH; [reflexivity|].
  intros x Hx. apply H. now right.
Qed.

(** The words [log] puts around a message hold no ignored pattern and
    complete none.  Unless the time stamp itself holds a pattern, the
    text [log] hands to [console.error] holds an ignored pattern exactly
    when the message does; this is why [logError] tests the message. *)
Theorem logText_matches (timestamp message : string) :
  shouldIgnoreError ("%c[TMA " ++ timestamp ++ "] ") = false ->
  shouldIgnoreError (logText timestamp message) = shouldIgnoreError message.
Proof.
  unfold shouldIgnoreError, logText. intros H.
  pose proof (existsb_false _ _ H) as Hb. clear H.
  apply existsb_same. intros pattern Hin. specialize (Hb pattern Hin).
  cbv beta in Hb. revert Hb.
  rewrite !toLowerCase_app.
  set (ts := toLowerCase timestamp). set (m := toLowerCase message).
  change (toLowerCase "%c[TMA ") with "%c[tma ".
  change (toLowerCase "] ") with "] ".
  change (toLowerCase " color: #f4212e") with " color: #f4212e".
  replace ("%c[tma " ++ ts ++ "] ")%string with (("%c[tma " ++ ts) ++ "] ")%string
    by apply string_app_assoc.
  replace ("%c[tma " ++ ts ++ "] " ++ m ++ " color: #f4212e")%string
    with (("%c[tma " ++ ts) ++ "] " ++ m ++ " color: #f4212e")%string
    by apply string_app_assoc.
  set (before := ("%c[tma " ++ ts)%string).
  assert (Hplain : forall p,
            negb (includes p " ") && negb (String.eqb p "") &&
            negb (includes "color: #f4212e" p) = true ->
            includes (before ++ "] ") p = false ->
            includes (before ++ "] " ++ m ++ " color: #f4212e") p = includes m p).
  { intros p Hp Hb.
    apply andb_prop in Hp. destruct Hp as [Hp Hcol].
    apply andb_prop in Hp. destruct Hp as [Hsp Hne].
    apply decorated_plain.
    - apply includes_char_false. now apply negb_true_iff.
    - apply negb_true_iff in Hne. now apply String.eqb_neq.
    - now apply negb_true_iff.
    - exact Hb. }
  unfold ignoredPatterns in Hin. cbn [In] in Hin.
  destruct Hin as [<-|[<-|[<-|[<-|[<-|[<-|[<-|[]]]]]]]];
    try (apply Hplain; reflexivity).
  apply decorated_spaced.
Qed.

Lemma logText_matches_witness :
  shouldIgnoreError (logText "10:20:30 AM" "GET https://x.com/i/api/2/badge 403") =
  shouldIgnoreError "GET https://x.com/i/api/2/badge 403".
Proof.
  apply (logText_matches "10:20:30 AM" "GET https://x.com/i/api/2/badge 403").
  vm_compute. reflexivity.
Defined.
